(** * The tiling layout tree of wingo: [layout/tree.go]

    A shallow embedding of the layout tree (splits, leaves, the root
    handle) and the properties of its operations.

    Go values are modelled as the code has them:
    - [proportion] is a [float64]: Rocq's primitive binary64 [float], with
      the IEEE operations the Go code uses ([+], [-], [*], [/], [math.Abs],
      [<]);
    - [int] is a 64-bit two's complement integer: a [Z], with the
      wrap-around of [+=] written out ([wrap64]);
    - nodes are heap objects reached through pointers: the heap is a finite
      map from references to objects, a [node] interface value is a
      reference, and the parent and child links are references, so that
      in-place updates and aliasing are those of the code;
    - a panic is the result [Panic]; functions that recurse through the
      heap take a recursion bound and answer [OutOfFuel] when it is reached
      (the Go code would not return on a cyclic structure either);
    - the calls issued to the external [Client] interface are appended to a
      log kept in the world state. *)

From Stdlib Require Import ZArith Floats Lia Bool Reals Lra Psatz.
From stdpp Require Import gmap list.

Set Warnings "-inexact-float".

Local Open Scope Z_scope.

(** ** Numbers *)

Definition proportion := float.

Definition fullPortion : proportion := 1%float.
Definition epsilon : float := 0.0001%float.

(** Go's [int] on the 64-bit platforms wingo runs on. *)
Definition wrap64 (z : Z) : Z := (z + 2 ^ 63) mod 2 ^ 64 - 2 ^ 63.

(** The conversion [proportion(n)] of an [int] to [float64]: the nearest
    binary64 value, ties to even. *)
Definition float_of_int (z : Z) : float :=
  SF2Prim (binary_normalize prec emax z 0 false).

(** [func (p1 proportion) equal(p2 proportion) bool] *)
Definition equal (p1 p2 : proportion) : bool :=
  (abs (p1 - p2) <? epsilon)%float.

(** ** The heap of nodes *)

Definition ref := nat.
Definition Client := nat.

(** A [node] interface value: [nil] or a pointer to a node. *)
Definition node := option ref.

Record split := mkSplit {
  split_parent : node;
  split_children : list ref;
  split_prop : proportion
}.

Record leaf := mkLeaf {
  leaf_parent : node;
  leaf_client : Client;
  leaf_prop : proportion
}.

Inductive object :=
| HSplit (s : split)
| VSplit (s : split)
| Leaf (l : leaf).

Record tree := mkTree { child : node }.

(** [xrect.Rect], through its accessors [X], [Y], [Width], [Height]. *)
Record Rect := mkRect { X : Z; Y : Z; Width : Z; Height : Z }.

(** The two methods of the [Client] interface that the tree calls. *)
Inductive call :=
| FrameTile (c : Client)
| ClientMoveResize (c : Client) (x y width height : Z).

Record world := mkWorld {
  heap : gmap ref object;
  calls : list call
}.

(** ** The monad of the embedding: state, panics and the recursion bound *)

Inductive result (A : Type) : Type :=
| Ok (a : A)
| Panic
| OutOfFuel.
Arguments Ok {A} a.
Arguments Panic {A}.
Arguments OutOfFuel {A}.

Definition M (A : Type) : Type := world -> result (A * world).

Definition ret {A} (a : A) : M A := fun w => Ok (a, w).

Definition bind {A B} (m : M A) (k : A -> M B) : M B :=
  fun w => match m w with
           | Ok (a, w') => k a w'
           | Panic => Panic
           | OutOfFuel => OutOfFuel
           end.

Definition panic {A} : M A := fun _ => Panic.
Definition out_of_fuel {A} : M A := fun _ => OutOfFuel.

Declare Scope go_scope.
Delimit Scope go_scope with go.
Notation "'let*' x := m 'in' k" := (bind m (fun x => k))
  (at level 10, x name, m at level 100, k at level 200) : go_scope.
Notation "m ;; k" := (bind m (fun _ => k))
  (at level 100, k at level 200, right associativity) : go_scope.
Local Open Scope go_scope.

(** Dereferencing a pointer; a reference outside the heap stands for a nil
    or invalid pointer, whose dereference panics. *)
Definition deref (r : ref) : M object :=
  fun w => match heap w !! r with
           | Some o => Ok (o, w)
           | None => Panic
           end.

(** An assignment to a field of the object behind a pointer. *)
Definition modify (r : ref) (f : object -> object) : M unit :=
  fun w => match heap w !! r with
           | Some o => Ok (tt, mkWorld (<[r := f o]> (heap w)) (calls w))
           | None => Panic
           end.

Definition emit (c : call) : M unit :=
  fun w => Ok (tt, mkWorld (heap w) (calls w ++ [c])).

(** The embedded [split] of an [*hsplit] or [*vsplit] receiver. *)
Definition deref_split (s : ref) : M split :=
  let* o := deref s in
  match o with
  | HSplit sp | VSplit sp => ret sp
  | Leaf _ => panic
  end.

Definition deref_leaf (r : ref) : M leaf :=
  let* o := deref r in
  match o with
  | Leaf l => ret l
  | _ => panic
  end.

(** [for _, child := range cs { body }] *)
Fixpoint range (cs : list ref) (body : ref -> M unit) : M unit :=
  match cs with
  | [] => ret tt
  | c :: cs' => body c ;; range cs' body
  end.

(** A [range] loop that carries a local variable. *)
Fixpoint range_fold {A} (cs : list ref) (body : A -> ref -> M A) (a : A) : M A :=
  match cs with
  | [] => ret a
  | c :: cs' => let* a' := body a c in range_fold cs' body a'
  end.

(** [for _, child := range cs { if !cond(child) { return false } }; return true] *)
Fixpoint range_all (cs : list ref) (cond : ref -> M bool) : M bool :=
  match cs with
  | [] => ret true
  | c :: cs' => let* b := cond c in if b then range_all cs' cond else ret false
  end.

(** The loop of [split.VisitLeafNodes]: [if !child.VisitLeafNodes(f) {
    return false }] for each child, then [return true]; [a] stands for the
    variables captured by the visitor. *)
Fixpoint range_visit {A} (cs : list ref) (visit : ref -> A -> M (A * bool))
    (a : A) : M (A * bool) :=
  match cs with
  | [] => ret (a, true)
  | c :: cs' =>
    let* r := visit c a in
    if negb (snd r) then ret (fst r, false) else range_visit cs' visit (fst r)
  end.

(** ** The [node] interface: accessors *)

Definition obj_prop (o : object) : proportion :=
  match o with
  | HSplit s | VSplit s => split_prop s
  | Leaf l => leaf_prop l
  end.

Definition obj_parent (o : object) : node :=
  match o with
  | HSplit s | VSplit s => split_parent s
  | Leaf l => leaf_parent l
  end.

Definition obj_children (o : object) : list ref :=
  match o with
  | HSplit s | VSplit s => split_children s
  | Leaf _ => []
  end.

Definition set_prop (p : proportion) (o : object) : object :=
  match o with
  | HSplit s => HSplit (mkSplit (split_parent s) (split_children s) p)
  | VSplit s => VSplit (mkSplit (split_parent s) (split_children s) p)
  | Leaf l => Leaf (mkLeaf (leaf_parent l) (leaf_client l) p)
  end.

Definition set_parent (n : node) (o : object) : object :=
  match o with
  | HSplit s => HSplit (mkSplit n (split_children s) (split_prop s))
  | VSplit s => VSplit (mkSplit n (split_children s) (split_prop s))
  | Leaf l => Leaf (mkLeaf n (leaf_client l) (leaf_prop l))
  end.

Definition set_children (cs : list ref) (o : object) : object :=
  match o with
  | HSplit s => HSplit (mkSplit (split_parent s) cs (split_prop s))
  | VSplit s => VSplit (mkSplit (split_parent s) cs (split_prop s))
  | Leaf l => Leaf l
  end.

Definition set_client (c : Client) (o : object) : object :=
  match o with
  | Leaf l => Leaf (mkLeaf (leaf_parent l) c (leaf_prop l))
  | _ => o
  end.

Definition Proportion (n : ref) : M proportion :=
  let* o := deref n in ret (obj_prop o).

Definition SetProportion (n : ref) (p : proportion) : M unit :=
  modify n (set_prop p).

Definition Parent (n : ref) : M node :=
  let* o := deref n in ret (obj_parent o).

Definition SetParent (n : ref) (p : node) : M unit :=
  modify n (set_parent p).

(** ** [split]: the invariant check, insertion and removal *)

(** [func (s *split) checkPortions()] *)
Definition checkPortions (s : ref) : M unit :=
  let* sp := deref_split s in
  if (length (split_children sp) =? 0)%nat then ret tt
  else
    let* sum := range_fold (split_children sp)
             (fun sum child => let* p := Proportion child in ret (sum + p)%float)
             0%float in
    if negb (equal sum fullPortion) then panic else ret tt.

(** [func (s *split) addNode(n node, last bool)] *)
Definition addNode (s : ref) (n : ref) (last : bool) : M unit :=
  let* sp := deref_split s in
  let len := length (split_children sp) in
  let newProp := (fullPortion / float_of_int (Z.of_nat len + 1))%float in
  (if (0 <? len)%nat then
     let chop := (newProp / float_of_int (Z.of_nat len))%float in
     range (split_children sp)
       (fun child => let* p := Proportion child in SetProportion child (p - chop)%float)
   else ret tt) ;;
  SetProportion n newProp ;;
  modify s (fun o =>
    set_children (if last then obj_children o ++ [n] else n :: obj_children o) o) ;;
  checkPortions s.

(** The [range] loop of [removeNode].  The range expression [s.children]
    is evaluated once, so the loop walks the original length over the
    original backing array, while [append(s.children[:i],
    s.children[i+1:]...)] moves the tail of the current slice down in place
    in that same array and shortens [s.children] by one.  [arr] is the
    backing array up to the original length and [len] the current length
    of [s.children]; slicing [s.children[i+1:]] panics when [i+1 > len]. *)
Fixpoint remove_loop (n : ref) (i todo : nat) (arr : list ref) (len : nat)
    (removed : bool) : result (list ref * nat * bool) :=
  match todo with
  | O => Ok (arr, len, removed)
  | S todo' =>
    match arr !! i with
    | None => Panic
    | Some c =>
      if decide (c = n) then
        if decide (i + 1 <= len)%nat then
          remove_loop n (S i) todo'
            (take i arr ++ take (len - (i + 1)) (drop (i + 1) arr)
               ++ drop (len - 1) arr)
            (len - 1) true
        else Panic
      else remove_loop n (S i) todo' arr len removed
    end
  end.

(** [func (s *split) removeNode(n node)] *)
Definition removeNode (s : ref) (n : ref) : M unit :=
  let* sp := deref_split s in
  let cs := split_children sp in
  match remove_loop n 0 (length cs) cs (length cs) false with
  | Ok (arr, len, removed) =>
    modify s (set_children (take len arr)) ;;
    if negb removed then panic
    else
      if (0 <? len)%nat then
        let* pn := Proportion n in
        let leftovers := (pn / float_of_int (Z.of_nat len))%float in
        range (take len arr)
          (fun child => let* p := Proportion child in SetProportion child (p + leftovers)%float) ;;
        checkPortions s
      else ret tt
  | Panic => panic
  | OutOfFuel => out_of_fuel
  end.

(** ** Placement: [ValidDims] and [MoveResize] *)

Section Placement.

(** [misc.Round] lives in wingo's [misc] package; the functions of this
    section call it through [portion] and are stated for any rounding
    function. *)
Variable Round : float -> Z.

(** [func (p proportion) portion(size int) int] *)
Definition portion (p : proportion) (size : Z) : Z :=
  Round (float_of_int size * p)%float.

(** [ValidDims], dispatched on the dynamic type of the node. *)
Fixpoint ValidDims (fuel : nat) (n : ref) (w h minw minh maxw maxh : Z) : M bool :=
  match fuel with
  | O => out_of_fuel
  | S fuel' =>
    let* o := deref n in
    match o with
    | HSplit hs =>
      range_all (split_children hs) (fun child =>
        let* p := Proportion child in
        let childw := portion p w in
        ValidDims fuel' child childw h minw minh maxw maxh)
    | VSplit vs =>
      range_all (split_children vs) (fun child =>
        let* p := Proportion child in
        let childh := portion p h in
        ValidDims fuel' child w childh minw minh maxw maxh)
    | Leaf _ =>
      ret ((minw <=? w) && (minh <=? h) && (w <=? maxw) && (h <=? maxh))
    end
  end.

(** [MoveResize], dispatched on the dynamic type of the node. *)
Fixpoint MoveResize (fuel : nat) (n : ref) (x y width height : Z) : M unit :=
  match fuel with
  | O => out_of_fuel
  | S fuel' =>
    let* o := deref n in
    match o with
    | HSplit hs =>
      range_fold (split_children hs) (fun nextx child =>
        let* p := Proportion child in
        let w := portion p width in
        MoveResize fuel' child nextx y w height ;;
        ret (wrap64 (nextx + w))) x ;;
      ret tt
    | VSplit vs =>
      range_fold (split_children vs) (fun nexty child =>
        let* p := Proportion child in
        let h := portion p height in
        MoveResize fuel' child x nexty width h ;;
        ret (wrap64 (nexty + h))) y ;;
      ret tt
    | Leaf lf =>
      emit (FrameTile (leaf_client lf)) ;;
      emit (ClientMoveResize (leaf_client lf) x y width height)
    end
  end.

(** [func (t *tree) place(geom xrect.Rect)] *)
Definition place (fuel : nat) (t : tree) (geom : Rect) : M unit :=
  match child t with
  | None => ret tt
  | Some c =>
    let x := X geom in
    let y := Y geom in
    let w := Width geom in
    let h := Height geom in
    let* ok := ValidDims fuel c w h 1 1 w h in
    if negb ok then ret tt
    else MoveResize fuel c x y w h
  end.

End Placement.

(** ** Leaf traversal, lookup and swap *)

(** [VisitLeafNodes].  The visitor is a closure: [A] is the type of the
    variables it captures, which it may update besides answering whether
    the traversal goes on. *)
Fixpoint VisitLeafNodes {A} (fuel : nat) (n : ref)
    (f : ref -> A -> M (A * bool)) (a : A) : M (A * bool) :=
  match fuel with
  | O => out_of_fuel
  | S fuel' =>
    let* o := deref n in
    match o with
    | HSplit s | VSplit s =>
      range_visit (split_children s) (fun child => VisitLeafNodes fuel' child f) a
    | Leaf _ => f n a
    end
  end.

(** The closure of [findLeaf]: the captured variable is [lf]. *)
Definition findLeaf_visit (c : Client) (visit : ref) (lf : option ref)
    : M (option ref * bool) :=
  let* l := deref_leaf visit in
  if decide (leaf_client l = c) then ret (Some visit, false)
  else ret (lf, true).

(** [func (t *tree) findLeaf(c Client) *leaf] *)
Definition findLeaf (fuel : nat) (t : tree) (c : Client) : M (option ref) :=
  match child t with
  | None => ret None
  | Some r =>
    let* res := VisitLeafNodes fuel r (findLeaf_visit c) None in
    ret (fst res)
  end.

(** [func (t *tree) switchClients(c1, c2 Client)] *)
Definition switchClients (fuel : nat) (t : tree) (c1 c2 : Client) : M unit :=
  let* lf1 := findLeaf fuel t c1 in
  let* lf2 := findLeaf fuel t c2 in
  match lf1, lf2 with
  | Some r1, Some r2 =>
    let* l1 := deref_leaf r1 in
    let* l2 := deref_leaf r2 in
    modify r1 (set_client (leaf_client l2)) ;;
    modify r2 (set_client (leaf_client l1))
  | _, _ => ret tt
  end.

(** The constructors. *)
Definition newTree : tree := mkTree None.
Definition newLeaf (parent : node) (client : Client) : leaf :=
  mkLeaf parent client 0%float.
Definition newHSplit (parent : node) : object :=
  HSplit (mkSplit parent [] 0%float).
Definition newVSplit (parent : node) : object :=
  VSplit (mkSplit parent [] 0%float).
Definition setChild (t : tree) (n : node) : tree := mkTree n.

(** Modelled from the spec: [misc.Round], of wingo's [misc] package, whose
    source is not part of the files at hand.  The spec has [portion]
    multiply "the proportion by an integer pixel extent" and round "to the
    nearest integer", halves away from zero.  A finite binary64 value is
    [m * 2^e] up to sign; NaN and the infinities, of which the spec says
    nothing, are sent to 0. *)
Definition Round (f : float) : Z :=
  match Prim2SF f with
  | S754_finite s m e =>
    let a := if 0 <=? e then Zpos m * 2 ^ e
             else (2 * Zpos m + 2 ^ (- e)) / (2 * 2 ^ (- e)) in
    if s then - a else a
  | _ => 0
  end.

(** ** Specification-level views of a world *)

(** The child sequence of the container at [s]. *)
Definition children_of (w : world) (s : ref) : list ref :=
  match heap w !! s with
  | Some o => obj_children o
  | None => []
  end.

(** The sum of the proportions of the nodes [cs], accumulated in sequence
    order in binary64 from 0, as [checkPortions] does. *)
Fixpoint sum_from (h : gmap ref object) (cs : list ref) (acc : float) : option float :=
  match cs with
  | [] => Some acc
  | c :: cs' =>
    match h !! c with
    | Some o => sum_from h cs' (acc + obj_prop o)%float
    | None => None
    end
  end.

(** The children's proportions of [s] sum to 1.0 within [epsilon]. *)
Definition portions_ok (w : world) (s : ref) : Prop :=
  exists sum, sum_from (heap w) (children_of w s) 0%float = Some sum
              /\ equal sum fullPortion = true.

(** The leaves below [n], depth first in child-sequence order. *)
Fixpoint all_leaves (rec : ref -> option (list ref)) (cs : list ref) : option (list ref) :=
  match cs with
  | [] => Some []
  | c :: cs' =>
    match rec c, all_leaves rec cs' with
    | Some l, Some ls => Some (l ++ ls)
    | _, _ => None
    end
  end.

Fixpoint leaves (h : gmap ref object) (fuel : nat) (n : ref) : option (list ref) :=
  match fuel with
  | O => None
  | S fuel' =>
    match h !! n with
    | Some (HSplit s) | Some (VSplit s) => all_leaves (leaves h fuel') (split_children s)
    | Some (Leaf _) => Some [n]
    | None => None
    end
  end.

(** Whether the node at [r] is a leaf whose client is [c], by identity. *)
Definition holds_client (h : gmap ref object) (c : Client) (r : ref) : bool :=
  match h !! r with
  | Some (Leaf l) => bool_decide (leaf_client l = c)
  | _ => false
  end.

(** A visitor run over a sequence of leaves, stopping at the first [false]. *)
Fixpoint visit_until_false {A} (ls : list ref) (f : ref -> A -> M (A * bool))
    (a : A) : M (A * bool) :=
  match ls with
  | [] => ret (a, true)
  | l :: ls' =>
    let* r := f l a in
    if snd r then visit_until_false ls' f (fst r) else ret (fst r, false)
  end.

(** The rectangle a client was last told to take, read off the call log. *)
Fixpoint geometry (log : list call) (c : Client) : option Rect :=
  match log with
  | [] => None
  | k :: log' =>
    match geometry log' c with
    | Some r => Some r
    | None =>
      match k with
      | ClientMoveResize c' x y w h =>
        if decide (c' = c) then Some (mkRect x y w h) else None
      | FrameTile _ => None
      end
    end
  end.

(** ** Relations between worlds and views of the heap and the call log *)

(** [preserves R m]: every normal run of [m] relates the initial world to
    the final one by [R]. *)
Definition preserves {A} (R : relation world) (m : M A) : Prop :=
  forall w a w', m w = Ok (a, w') -> R w w'.

Definition parent_of (w : world) (r : ref) : option node :=
  obj_parent <$> heap w !! r.

Definition same_parents (w w' : world) : Prop :=
  forall r, parent_of w' r = parent_of w r.

(** [same_heap w w']: the nodes are untouched, and the call log has only
    grown. *)
Definition same_heap (w w' : world) : Prop :=
  heap w' = heap w /\ exists log, calls w' = calls w ++ log.

(** A visitor that leaves the nodes alone. *)
Definition heap_preserving {A} (f : ref -> A -> M (A * bool)) : Prop :=
  forall l a w r w', f l a w = Ok (r, w') -> heap w' = heap w.

Definition prop_of (w : world) (r : ref) : option proportion :=
  obj_prop <$> heap w !! r.



(** A child's proportion passed through [g], as the loops of [addNode] and
    [removeNode] do. *)
Definition map_prop (g : proportion -> proportion) (o : object) : object :=
  set_prop (g (obj_prop o)) o.

(** The object is a split container whose child sequence is [cs]. *)
Definition split_with (cs : list ref) (o : object) : Prop :=
  exists sp, (o = HSplit sp \/ o = VSplit sp) /\ split_children sp = cs.


(** ** Binary64 numbers as real numbers *)

(** Where the fraction [N / D] lies between [N / D] rounded down and the
    next integer. *)
Definition locate (N D : Z) : location :=
  if N mod D =? 0 then loc_Exact else loc_Inexact (2 * (N mod D) ?= D).

(** The integer nearest to [N / D], ties to even. *)
Definition rnd (N D : Z) : Z := round_nearest_even (N / D) (locate N D).

Definition bpow (e : Z) : R := powerRZ 2 e.

Definition SF2R (x : spec_float) : R :=
  match x with
  | S754_finite s m e => ((if s then -1 else 1) * (IZR (Zpos m) * bpow e))%R
  | _ => 0%R
  end.

Definition SFfinite (x : spec_float) : bool :=
  match x with
  | S754_zero _ | S754_finite _ _ _ => true
  | _ => false
  end.

Definition F2R (f : float) : R := SF2R (Prim2SF f).

Definition is_finite (f : float) : bool := SFfinite (Prim2SF f).

(** ** Example worlds *)

(** The worlds used as concrete inputs: an empty horizontal split at 0 and
    three leaves, of which only the first was built with the split as its
    parent. *)
Definition world0 : world :=
  mkWorld (<[0%nat := newHSplit None]>
          (<[1%nat := Leaf (newLeaf (Some 0%nat) 10%nat)]>
          (<[2%nat := Leaf (newLeaf None 20%nat)]>
          (<[3%nat := Leaf (newLeaf None 30%nat)]> ∅)))) [].

(** The world a run ends in; [w] itself when the run does not return. *)
Definition after {A} (m : M A) (w : world) : world :=
  match m w with
  | Ok (_, w') => w'
  | _ => w
  end.

Definition world1 : world := Eval vm_compute in after (addNode 0%nat 1%nat true) world0.

Definition world2 : world := Eval vm_compute in after (addNode 0%nat 2%nat true) world1.

Definition world3 : world := Eval vm_compute in after (addNode 0%nat 3%nat false) world2.

(** The scenario of the spec: two leaves inserted at the end of a
    horizontal split, placed in a 100 by 50 rectangle at the origin. *)
Definition tree0 : tree := setChild newTree (Some 0%nat).

Definition world2_placed : world :=
  Eval vm_compute in after (place Round 3 tree0 (mkRect 0 0 100 50)) world2.

(** A nested tree: the horizontal split at 0 holds the leaf 1 and the
    vertical split at 4, which holds the leaves 2 and 3. *)
Definition world_nested : world :=
  Eval vm_compute in
    after (addNode 4%nat 2%nat true ;; addNode 4%nat 3%nat true ;;
           addNode 0%nat 4%nat true)
      (mkWorld (<[4%nat := newVSplit (Some 0%nat)]> (heap world1)) []).



(** ** Views used by the further properties *)

(** [same_but_props w w']: the two worlds hold the same nodes with the same
    kinds, parent links, child sequences and clients, and the same call
    log; only proportions may differ. *)
Definition same_but_props (w w' : world) : Prop :=
  calls w' = calls w
  /\ forall r, set_prop 0%float <$> heap w' !! r = set_prop 0%float <$> heap w !! r.

(** A call without its rectangle. *)
Definition call_kind (k : call) : call :=
  match k with
  | FrameTile c => FrameTile c
  | ClientMoveResize c _ _ _ _ => ClientMoveResize c 0 0 0 0
  end.

(** The clients held by the leaves [ls], in order. *)
Definition clients_of (h : gmap ref object) (ls : list ref) : list Client :=
  omap (fun l => match h !! l with
                 | Some (Leaf lf) => Some (leaf_client lf)
                 | _ => None
                 end) ls.

(** One [FrameTile] and then one [MoveResize] for each client, in order,
    rectangles left out. *)
Definition tile_calls (cs : list Client) : list call :=
  flat_map (fun c => [FrameTile c; ClientMoveResize c 0 0 0 0]) cs.

(** The rectangles of the [MoveResize] calls of a log, in order. *)
Definition rects (log : list call) : list Rect :=
  omap (fun k => match k with
                 | ClientMoveResize _ x y w h => Some (mkRect x y w h)
                 | FrameTile _ => None
                 end) log.

(** The rectangles [rs] form a row from [x]: all at [y] with height [h],
    each starting where the one before it ends (in 64-bit arithmetic). *)
Fixpoint row_from (x y h : Z) (rs : list Rect) : Prop :=
  match rs with
  | [] => True
  | r :: rs' =>
    X r = x /\ Y r = y /\ Height r = h
    /\ row_from (wrap64 (x + Width r)) y h rs'
  end.

(** The rectangles [rs] form a column from [y]: all at [x] with width [w],
    each starting where the one before it ends. *)
Fixpoint column_from (x y w : Z) (rs : list Rect) : Prop :=
  match rs with
  | [] => True
  | r :: rs' =>
    X r = x /\ Y r = y /\ Width r = w
    /\ column_from x (wrap64 (y + Height r)) w rs'
  end.

(** The proportions of the nodes [cs], in order. *)
Definition props_of (h : gmap ref object) (cs : list ref) : list proportion :=
  omap (fun c => obj_prop <$> h !! c) cs.

(** The heights of the rectangles the clients were told to take, added up
    over a call log. *)
Fixpoint sum_heights (log : list call) : Z :=
  match log with
  | [] => 0
  | ClientMoveResize _ _ _ _ h :: log' => h + sum_heights log'
  | FrameTile _ :: log' => sum_heights log'
  end.

(** The values of the proportions [ps] added up as real numbers. *)
Fixpoint Rsum (ps : list proportion) : R :=
  match ps with
  | [] => 0%R
  | p :: ps' => (F2R p + Rsum ps')%R
  end.

(** The proportions [ps] added up in binary64 onto [acc], left to right,
    as [checkPortions] does. *)
Fixpoint fsum (ps : list proportion) (acc : float) : float :=
  match ps with
  | [] => acc
  | p :: ps' => fsum ps' (acc + p)%float
  end.

(** A proportion that is a finite number of size at most [b]. *)
Definition within (b : R) (p : proportion) : Prop :=
  is_finite p = true /\ (Rabs (F2R p) <= b)%R.

(** * Properties *)

(** ** Reasoning in the monad *)

Lemma bind_Ok {A B} (m : M A) (k : A -> M B) w b w' :
  bind m k w = Ok (b, w') ->
  exists a w1, m w = Ok (a, w1) /\ k a w1 = Ok (b, w').
Proof.
  unfold bind. destruct (m w) as [[a w1]| |]; [eauto | done | done].
Qed.

Lemma bind_Ok_l {A B} (m : M A) (k : A -> M B) w a w1 :
  m w = Ok (a, w1) -> bind m k w = k a w1.
Proof. unfold bind. by intros ->. Qed.

Lemma deref_Ok r w o w' :
  deref r w = Ok (o, w') -> w' = w /\ heap w !! r = Some o.
Proof.
  unfold deref. destruct (heap w !! r); [|done]. by intros [= -> ->].
Qed.

Lemma deref_lookup r w o : heap w !! r = Some o -> deref r w = Ok (o, w).
Proof. unfold deref. by intros ->. Qed.

Lemma deref_split_Ok s w sp w' :
  deref_split s w = Ok (sp, w') ->
  w' = w /\ exists o, heap w !! s = Some o /\ obj_children o = split_children sp
                      /\ (o = HSplit sp \/ o = VSplit sp).
Proof.
  unfold deref_split. intros H.
  apply bind_Ok in H as (o & w1 & Hd & H). apply deref_Ok in Hd as [-> Hd].
  destruct o; try done; injection H as -> ->; eauto 10.
Qed.

Lemma deref_split_lookup s w o sp :
  heap w !! s = Some o -> o = HSplit sp \/ o = VSplit sp ->
  deref_split s w = Ok (sp, w).
Proof.
  intros Ho Hk. unfold deref_split.
  rewrite (bind_Ok_l _ _ _ _ _ (deref_lookup _ _ _ Ho)). by destruct Hk as [-> | ->].
Qed.

Lemma deref_leaf_Ok r w l w' :
  deref_leaf r w = Ok (l, w') -> w' = w /\ heap w !! r = Some (Leaf l).
Proof.
  unfold deref_leaf. intros H.
  apply bind_Ok in H as (o & w1 & Hd & H). apply deref_Ok in Hd as [-> Hd].
  destruct o; try done. by injection H as -> ->.
Qed.

Lemma deref_leaf_lookup r w l :
  heap w !! r = Some (Leaf l) -> deref_leaf r w = Ok (l, w).
Proof.
  intros Hl. unfold deref_leaf.
  by rewrite (bind_Ok_l _ _ _ _ _ (deref_lookup _ _ _ Hl)).
Qed.

Section Preserves.
Context (R : relation world) `{!PreOrder R}.

Lemma preserves_ret {A} (a : A) : preserves R (ret a).
Proof. intros w a' w' [= _ ->]. reflexivity. Qed.

Lemma preserves_panic {A} : preserves R (@panic A).
Proof. intros w a w'. done. Qed.

Lemma preserves_out_of_fuel {A} : preserves R (@out_of_fuel A).
Proof. intros w a w'. done. Qed.

Lemma preserves_bind {A B} (m : M A) (k : A -> M B) :
  preserves R m -> (forall a, preserves R (k a)) -> preserves R (bind m k).
Proof.
  intros Hm Hk w b w' H. apply bind_Ok in H as (a & w1 & H1 & H2).
  etransitivity; [by eapply Hm | by eapply Hk].
Qed.

Lemma preserves_deref r : preserves R (deref r).
Proof. intros w o w' H. apply deref_Ok in H as [-> _]. reflexivity. Qed.

Lemma preserves_deref_split s : preserves R (deref_split s).
Proof. intros w o w' H. apply deref_split_Ok in H as [-> _]. reflexivity. Qed.

Lemma preserves_deref_leaf r : preserves R (deref_leaf r).
Proof. intros w o w' H. apply deref_leaf_Ok in H as [-> _]. reflexivity. Qed.

Lemma preserves_Proportion n : preserves R (Proportion n).
Proof.
  apply preserves_bind; [apply preserves_deref | intros; apply preserves_ret].
Qed.

Lemma preserves_range cs body :
  (forall c, preserves R (body c)) -> preserves R (range cs body).
Proof.
  intros Hb. induction cs as [|c cs IH]; simpl.
  - apply preserves_ret.
  - apply preserves_bind; auto.
Qed.

Lemma preserves_range_fold {A} cs (body : A -> ref -> M A) a :
  (forall a c, preserves R (body a c)) -> preserves R (range_fold cs body a).
Proof.
  intros Hb. revert a. induction cs as [|c cs IH]; intros a; simpl.
  - apply preserves_ret.
  - apply preserves_bind; auto.
Qed.

Lemma preserves_range_all cs cond :
  (forall c, preserves R (cond c)) -> preserves R (range_all cs cond).
Proof.
  intros Hb. induction cs as [|c cs IH]; simpl.
  - apply preserves_ret.
  - apply preserves_bind; [auto|]. intros [|]; [auto | apply preserves_ret].
Qed.

Lemma preserves_range_visit {A} cs (visit : ref -> A -> M (A * bool)) a :
  (forall c a, preserves R (visit c a)) -> preserves R (range_visit cs visit a).
Proof.
  intros Hb. revert a. induction cs as [|c cs IH]; intros a; simpl.
  - apply preserves_ret.
  - apply preserves_bind; [auto|]. intros [a' [|]]; simpl;
      [auto | apply preserves_ret].
Qed.

Lemma preserves_checkPortions s : preserves R (checkPortions s).
Proof.
  unfold checkPortions. apply preserves_bind; [apply preserves_deref_split|].
  intros sp. destruct (_ =? _)%nat; [apply preserves_ret|].
  apply preserves_bind.
  - apply preserves_range_fold. intros a c.
    apply preserves_bind; [apply preserves_Proportion | intros; apply preserves_ret].
  - intros sum. destruct (negb _); [apply preserves_panic | apply preserves_ret].
Qed.
End Preserves.

(** A run that [preserves eq] leaves the world as it found it. *)
Lemma read_only_Ok {A} (m : M A) w a w' :
  preserves eq m -> m w = Ok (a, w') -> w' = w.
Proof. intros Hm H. symmetry. by eapply Hm. Qed.

(** ** The sum-to-one check *)

Lemma range_fold_sum cs acc w sum w' :
  range_fold cs
    (fun sum child => let* p := Proportion child in ret (sum + p)%float) acc w
  = Ok (sum, w') ->
  w' = w /\ sum_from (heap w) cs acc = Some sum.
Proof.
  revert acc. induction cs as [|c cs IH]; intros acc; simpl.
  - by intros [= -> ->].
  - intros H. apply bind_Ok in H as (a & w1 & H1 & H2).
    apply bind_Ok in H1 as (p & w2 & Hp & [= <- <-]).
    apply bind_Ok in Hp as (o & w3 & Hd & [= <- <-]).
    apply deref_Ok in Hd as [-> Hd]. rewrite Hd. by apply IH.
Qed.

Lemma checkPortions_Ok s w u w' :
  checkPortions s w = Ok (u, w') ->
  w' = w /\ (children_of w s = [] \/ portions_ok w s).
Proof.
  unfold checkPortions. intros H.
  apply bind_Ok in H as (sp & w1 & Hs & H).
  apply deref_split_Ok in Hs as [-> (o & Ho & Hc & _)].
  assert (Hch : children_of w s = split_children sp)
    by (unfold children_of; by rewrite Ho).
  destruct (length (split_children sp) =? 0)%nat eqn:Hlen.
  - injection H as _ <-. split; [done|]. left. rewrite Hch.
    apply Nat.eqb_eq in Hlen. by destruct (split_children sp).
  - apply bind_Ok in H as (sum & w1 & Hsum & H).
    apply range_fold_sum in Hsum as [-> Hsum].
    destruct (negb (equal sum fullPortion)) eqn:Heq; [done|].
    injection H as _ <-. split; [done|]. right.
    exists sum. rewrite Hch. split; [done|]. by apply negb_false_iff.
Qed.

Lemma modify_Ok r f w u w' :
  modify r f w = Ok (u, w') ->
  exists o, heap w !! r = Some o
            /\ w' = mkWorld (<[r := f o]> (heap w)) (calls w).
Proof.
  unfold modify. destruct (heap w !! r) as [o|]; [|done].
  intros [= _ <-]. eauto.
Qed.

Lemma modify_lookup r f w o :
  heap w !! r = Some o ->
  modify r f w = Ok (tt, mkWorld (<[r := f o]> (heap w)) (calls w)).
Proof. unfold modify. by intros ->. Qed.

(** C1, as amended.  Whenever [addNode] or [removeNode] returns normally
    and leaves the container [s] with at least one child (which [addNode]
    always does), the proportions of the children of [s], summed in child
    order in binary64 from 0, are within [epsilon] of 1.0. *)
Theorem portions_checked_after_mutation (s n : ref) (w w' : world)
    (H : (exists last, addNode s n last w = Ok (tt, w'))
         \/ (removeNode s n w = Ok (tt, w') /\ children_of w' s <> [])) :
  portions_ok w' s.
Proof.
  destruct H as [[last H] | [H Hne]].
  - unfold addNode in H.
    apply bind_Ok in H as (sp & w1 & _ & H).
    apply bind_Ok in H as (? & w2 & _ & H).
    apply bind_Ok in H as (? & w3 & _ & H).
    apply bind_Ok in H as (? & w5 & Hm & H).
    apply modify_Ok in Hm as (o & Hd & ->).
    destruct (checkPortions_Ok _ _ _ _ H) as [-> [Hnil | Hok]]; [|done].
    exfalso. unfold children_of in Hnil. simpl in Hnil.
    rewrite lookup_insert_eq in Hnil.
    unfold checkPortions, deref_split, bind, deref in H. simpl in H.
    rewrite lookup_insert_eq in H.
    destruct o as [sp'|sp'|l]; simpl in *; try done;
      destruct last; simpl in Hnil; try done;
      by destruct (split_children sp').
  - unfold removeNode in H.
    apply bind_Ok in H as (sp & w1 & _ & H).
    destruct (remove_loop _ _ _ _ _ _) as [[[arr len] removed]| |]; try done.
    apply bind_Ok in H as (? & w3 & Hm & H).
    apply modify_Ok in Hm as (o & Hd & ->).
    destruct (negb removed); [done|].
    destruct (0 <? len)%nat eqn:Hlen.
    + apply bind_Ok in H as (pn & w4 & _ & H).
      apply bind_Ok in H as (? & w5 & _ & H).
      apply checkPortions_Ok in H as [-> [Hnil | Hok]]; done.
    + injection H as <-. exfalso. apply Hne.
      apply Nat.ltb_ge in Hlen. assert (len = 0%nat) as -> by lia.
      unfold children_of. simpl. rewrite lookup_insert_eq.
      by destruct o.
Qed.

Lemma portions_checked_after_mutation_witness : portions_ok world2 0%nat.
Proof.
  apply (portions_checked_after_mutation 0%nat 2%nat world1 world2).
  left. exists true. vm_compute. reflexivity.
Defined.

(** C1 as stated fails when the last child is removed: [removeNode]
    returns normally and the empty container's proportions sum to 0. *)
Lemma portions_unchecked_when_emptied :
  exists w', removeNode 0%nat 1%nat world1 = Ok (tt, w')
             /\ children_of w' 0%nat = []
             /\ sum_from (heap w') (children_of w' 0%nat) 0%float = Some 0%float
             /\ equal 0%float fullPortion = false
             /\ ~ portions_ok w' 0%nat.
Proof.
  eexists. split; [vm_compute; reflexivity|].
  split; [reflexivity|]. split; [reflexivity|]. split; [reflexivity|].
  intros (sum & Hsum & Heq). vm_compute in Hsum. injection Hsum as <-.
  vm_compute in Heq. discriminate.
Qed.

(** ** Parent links under [addNode] *)

#[local] Instance same_parents_preorder : PreOrder same_parents.
Proof.
  split.
  - by intros w r.
  - intros w1 w2 w3 H12 H23 r. by rewrite H23, H12.
Qed.

Lemma modify_same_parents r f :
  (forall o, obj_parent (f o) = obj_parent o) ->
  preserves same_parents (modify r f).
Proof.
  intros Hf w u w' H. apply modify_Ok in H as (o & Ho & ->).
  intros r'. unfold parent_of. simpl.
  destruct (decide (r = r')) as [<-|Hne].
  - rewrite lookup_insert_eq, Ho. simpl. by rewrite Hf.
  - by rewrite lookup_insert_ne.
Qed.

Lemma addNode_same_parents s n last : preserves same_parents (addNode s n last).
Proof.
  unfold addNode.
  apply preserves_bind; [tc_solve | apply preserves_deref_split; tc_solve |].
  intros sp. apply preserves_bind; [tc_solve | |].
  { destruct (0 <? _)%nat; [|apply preserves_ret; tc_solve].
    apply preserves_range; [tc_solve|]. intros c.
    apply preserves_bind; [tc_solve | apply preserves_Proportion; tc_solve |].
    intros p. apply modify_same_parents. by intros []. }
  intros _. apply preserves_bind; [tc_solve | |].
  { apply modify_same_parents. by intros []. }
  intros _. apply preserves_bind; [tc_solve | |].
  { apply modify_same_parents. by intros []. }
  intros _. apply preserves_checkPortions; tc_solve.
Qed.

(** C2, as amended.  [addNode] never writes a parent link: after
    [addNode(n, last)] returns, the parent link of every node, [n]
    included, is what it was before the call (for [n]: the parent given to
    its constructor or to the last [SetParent]). *)
Theorem addNode_keeps_parent_links (s n : ref) (last : bool) (w w' : world)
    (H : addNode s n last w = Ok (tt, w')) :
  forall r, parent_of w' r = parent_of w r.
Proof. by apply (addNode_same_parents s n last w tt w'). Qed.

Lemma addNode_keeps_parent_links_witness :
  parent_of world2 2%nat = parent_of world1 2%nat.
Proof.
  apply (addNode_keeps_parent_links 0%nat 2%nat true world1 world2).
  vm_compute. reflexivity.
Defined.

(** C2 as stated fails: the leaf at 2 was built with a nil parent, and
    after [addNode] has inserted it into the split at 0 its parent link is
    still nil, not the split. *)
Lemma addNode_does_not_reparent :
  exists w', addNode 0%nat 2%nat true world1 = Ok (tt, w')
             /\ children_of w' 0%nat = [1%nat; 2%nat]
             /\ Parent 2%nat w' = Ok (None, w')
             /\ Parent 2%nat w' <> Ok (Some 0%nat, w').
Proof.
  eexists. split; [vm_compute; reflexivity|].
  split; [reflexivity|]. split; [reflexivity|]. discriminate.
Qed.

(** ** The first child *)

Lemma newProp_first :
  (fullPortion / float_of_int (Z.of_nat 0 + 1))%float = 1%float.
Proof. reflexivity. Qed.

Lemma sum_first : equal (0 + 1)%float fullPortion = true.
Proof. reflexivity. Qed.

(** C5.  Adding a node to a split container that has no child returns
    normally, gives the node the proportion exactly 1.0, makes it the only
    child, and changes no other node's proportion. *)
Theorem addNode_first_child (s n : ref) (last : bool) (w : world)
    (sp : split) (o : object)
    (Hs : deref_split s w = Ok (sp, w))
    (Hempty : split_children sp = [])
    (Hn : heap w !! n = Some o) :
  exists w', addNode s n last w = Ok (tt, w')
             /\ Proportion n w' = Ok (1%float, w')
             /\ children_of w' s = [n]
             /\ forall r, r <> n ->
                  obj_prop <$> heap w' !! r = obj_prop <$> heap w !! r.
Proof.
  destruct (deref_split_Ok _ _ _ _ Hs) as (_ & os & Hos & Hcs & Hkind).
  unfold addNode. rewrite (bind_Ok_l _ _ _ _ _ Hs). rewrite Hempty. simpl length.
  change (0 <? 0)%nat with false. rewrite newProp_first.
  unfold bind at 1. unfold ret at 1.
  unfold SetProportion. rewrite (bind_Ok_l _ _ _ _ _ (modify_lookup _ _ _ _ Hn)).
  set (w1 := mkWorld (<[n := set_prop 1%float o]> (heap w)) (calls w)).
  assert (exists o1, heap w1 !! s = Some o1 /\ obj_children o1 = []
                     /\ (s = n -> obj_prop o1 = 1%float)
                     /\ (exists sp1, o1 = HSplit sp1 \/ o1 = VSplit sp1))
    as (o1 & Ho1 & Hc1 & Hp1 & sp1 & Hk1).
  { subst w1. simpl. destruct (decide (s = n)) as [->|Hne].
    - rewrite lookup_insert_eq. assert (o = os) as -> by congruence.
      exists (set_prop 1%float os). split; [done|].
      destruct Hkind as [-> | ->]; simpl; rewrite Hempty;
        (split; [done|]; split; [done|]); eexists; eauto.
    - rewrite lookup_insert_ne by done. exists os. rewrite Hcs, Hempty.
      split; [done|]. split; [done|]. split; [done|].
      destruct Hkind as [-> | ->]; eexists; eauto. }
  rewrite (bind_Ok_l _ _ _ _ _ (modify_lookup _ _ _ _ Ho1)). rewrite Hc1.
  assert ((if last then [] ++ [n] else [n]) = [n]) as -> by (by destruct last).
  set (w2 := mkWorld (<[s := set_children [n] o1]> (heap w1)) (calls w1)).
  assert (Hn2 : exists o2, heap w2 !! n = Some o2 /\ obj_prop o2 = 1%float).
  { subst w2. simpl. destruct (decide (s = n)) as [->|Hne].
    - rewrite lookup_insert_eq. eexists. split; [done|].
      specialize (Hp1 eq_refl).
      destruct Hk1 as [-> | ->]; simpl in *; done.
    - rewrite lookup_insert_ne by done. subst w1. simpl.
      rewrite lookup_insert_eq. eexists. split; [done|]. by destruct o. }
  destruct Hn2 as (o2 & Ho2 & Hp2).
  assert (Hs2 : heap w2 !! s = Some (set_children [n] o1))
    by (subst w2; simpl; by rewrite lookup_insert_eq).
  exists w2. split; [|split; [|split]].
  - assert (exists sp2, deref_split s w2 = Ok (sp2, w2)
                        /\ split_children sp2 = [n]) as (sp2 & Hs2' & Hc2).
    { unfold deref_split. rewrite (bind_Ok_l _ _ _ _ _ (deref_lookup _ _ _ Hs2)).
      destruct Hk1 as [-> | ->]; simpl; eexists; split; reflexivity. }
    unfold checkPortions. rewrite (bind_Ok_l _ _ _ _ _ Hs2'). rewrite Hc2. simpl.
    unfold bind, ret, Proportion, bind, deref. rewrite Ho2, Hp2.
    unfold ret. by rewrite sum_first.
  - unfold Proportion. rewrite (bind_Ok_l _ _ _ _ _ (deref_lookup _ _ _ Ho2)).
    unfold ret. by rewrite Hp2.
  - unfold children_of. rewrite Hs2. by destruct Hk1 as [-> | ->].
  - intros r Hr. subst w2 w1. simpl.
    destruct (decide (s = r)) as [<-|Hsr].
    + rewrite lookup_insert_eq. simpl in Ho1.
      rewrite lookup_insert_ne in Ho1 by done. rewrite Ho1. simpl.
      by destruct o1.
    + rewrite lookup_insert_ne by done. by rewrite lookup_insert_ne.
Qed.

Lemma addNode_first_child_witness :
  exists w', addNode 0%nat 1%nat true world0 = Ok (tt, w')
             /\ Proportion 1%nat w' = Ok (1%float, w')
             /\ children_of w' 0%nat = [1%nat]
             /\ forall r, r <> 1%nat ->
                  obj_prop <$> heap w' !! r = obj_prop <$> heap world0 !! r.
Proof.
  apply (addNode_first_child 0%nat 1%nat true world0
           (mkSplit None [] 0%float) (Leaf (newLeaf (Some 0%nat) 10%nat)));
    reflexivity.
Defined.

(** ** Placement *)

#[local] Instance same_heap_preorder : PreOrder same_heap.
Proof.
  split.
  - intros w. split; [done|]. exists []. by rewrite app_nil_r.
  - intros w1 w2 w3 [Hh12 [l12 Hc12]] [Hh23 [l23 Hc23]]. split; [congruence|].
    exists (l12 ++ l23). by rewrite Hc23, Hc12, app_assoc.
Qed.

Lemma emit_same_heap k : preserves same_heap (emit k).
Proof. intros w u w' [= _ <-]. split; [done|]. by exists [k]. Qed.

Section PlacementProperties.

Variable Round : float -> Z.

Lemma ValidDims_read_only fuel n w h minw minh maxw maxh :
  preserves eq (ValidDims Round fuel n w h minw minh maxw maxh).
Proof.
  revert n w h. induction fuel as [|fuel IH]; intros n w h; simpl.
  - apply preserves_out_of_fuel.
  - apply preserves_bind; [tc_solve | apply preserves_deref; tc_solve |].
    intros [hs|vs|lf].
    + apply preserves_range_all; [tc_solve|]. intros c.
      apply preserves_bind; [tc_solve | apply preserves_Proportion; tc_solve |].
      intros p. apply IH.
    + apply preserves_range_all; [tc_solve|]. intros c.
      apply preserves_bind; [tc_solve | apply preserves_Proportion; tc_solve |].
      intros p. apply IH.
    + apply preserves_ret; tc_solve.
Qed.

Lemma MoveResize_same_heap fuel n x y width height :
  preserves same_heap (MoveResize Round fuel n x y width height).
Proof.
  revert n x y width height.
  induction fuel as [|fuel IH]; intros n x y width height; simpl.
  - apply preserves_out_of_fuel.
  - apply preserves_bind; [tc_solve | apply preserves_deref; tc_solve |].
    intros [hs|vs|lf].
    + apply preserves_bind; [tc_solve | | intros; apply preserves_ret; tc_solve].
      apply preserves_range_fold; [tc_solve|]. intros nextx c.
      apply preserves_bind; [tc_solve | apply preserves_Proportion; tc_solve |].
      intros p. apply preserves_bind; [tc_solve | apply IH |].
      intros _. apply preserves_ret; tc_solve.
    + apply preserves_bind; [tc_solve | | intros; apply preserves_ret; tc_solve].
      apply preserves_range_fold; [tc_solve|]. intros nexty c.
      apply preserves_bind; [tc_solve | apply preserves_Proportion; tc_solve |].
      intros p. apply preserves_bind; [tc_solve | apply IH |].
      intros _. apply preserves_ret; tc_solve.
    + apply preserves_bind; [tc_solve | apply emit_same_heap |].
      intros _. apply emit_same_heap.
Qed.

(** C6.  [leaf.MoveResize] issues exactly two calls to the leaf's client:
    first [FrameTile], then [MoveResize] with the rectangle it was given. *)
Theorem leaf_MoveResize_frames_then_moves (fuel : nat) (r : ref) (lf : leaf)
    (x y width height : Z) (w : world)
    (Hr : heap w !! r = Some (Leaf lf)) :
  MoveResize Round (S fuel) r x y width height w
  = Ok (tt, mkWorld (heap w)
              (calls w ++ [FrameTile (leaf_client lf);
                           ClientMoveResize (leaf_client lf) x y width height])).
Proof.
  simpl. rewrite (bind_Ok_l _ _ _ _ _ (deref_lookup _ _ _ Hr)).
  unfold bind, emit. simpl. by rewrite <- app_assoc.
Qed.

(** C3.  [place] does nothing on a tree without a child.  Otherwise it
    runs the root's [ValidDims] on the width and height of the target with
    the bounds (1,1) and (width,height); the check itself changes nothing;
    when it answers false, [place] returns in the world it started from: no
    call was issued to any client, so every client's geometry is what it
    was; when it answers true, [place] is the root's [MoveResize] on the
    target rectangle. *)
Theorem place_is_gated_by_ValidDims (fuel : nat) (t : tree) (geom : Rect) (w : world) :
  (child t = None -> place Round fuel t geom w = Ok (tt, w))
  /\ (forall c ok w1,
        child t = Some c ->
        ValidDims Round fuel c (Width geom) (Height geom) 1 1
          (Width geom) (Height geom) w = Ok (ok, w1) ->
        w1 = w
        /\ (ok = false ->
            exists w', place Round fuel t geom w = Ok (tt, w')
                       /\ calls w' = calls w /\ heap w' = heap w
                       /\ forall cl, geometry (calls w') cl = geometry (calls w) cl)
        /\ (ok = true ->
            place Round fuel t geom w
            = MoveResize Round fuel c (X geom) (Y geom) (Width geom) (Height geom) w)).
Proof.
  split.
  - intros Ht. unfold place. by rewrite Ht.
  - intros c ok w1 Ht Hv.
    assert (w1 = w) as -> by (eapply read_only_Ok; [apply ValidDims_read_only | done]).
    split; [done|]. unfold place. rewrite Ht. rewrite (bind_Ok_l _ _ _ _ _ Hv).
    split; intros ->; simpl; [|done].
    exists w. by unfold ret.
Qed.

(** C10.  A run of [place], with the recursive [MoveResize] below it,
    leaves the heap of nodes as it was: every child sequence, parent link
    and proportion is unchanged; all it does is append calls to the
    clients' log. *)
Theorem place_keeps_the_tree (fuel : nat) (t : tree) (geom : Rect) (w w' : world)
    (H : place Round fuel t geom w = Ok (tt, w')) :
  heap w' = heap w
  /\ (forall r, children_of w' r = children_of w r
                /\ parent_of w' r = parent_of w r
                /\ obj_prop <$> heap w' !! r = obj_prop <$> heap w !! r)
  /\ exists log, calls w' = calls w ++ log.
Proof.
  assert (Hsame : same_heap w w').
  { revert H. unfold place. destruct (child t) as [c|].
    - intros H. apply bind_Ok in H as (ok & w1 & Hv & H).
      eapply read_only_Ok in Hv as ->; [|apply ValidDims_read_only].
      destruct ok; simpl in H.
      + by eapply MoveResize_same_heap.
      + injection H as <-. reflexivity.
    - intros [= <-]. reflexivity. }
  destruct Hsame as [Hh Hc]. split; [done|]. split; [|done].
  intros r. unfold children_of, parent_of. by rewrite Hh.
Qed.

End PlacementProperties.

Example place_two_leaves :
  place Round 3 tree0 (mkRect 0 0 100 50) world2 = Ok (tt, world2_placed)
  /\ calls world2_placed
     = [FrameTile 10%nat; ClientMoveResize 10%nat 0 0 50 50;
        FrameTile 20%nat; ClientMoveResize 20%nat 50 0 50 50].
Proof. split; vm_compute; reflexivity. Qed.

Lemma leaf_MoveResize_frames_then_moves_witness :
  MoveResize Round 1 1%nat 5 7 100 50 world1
  = Ok (tt, mkWorld (heap world1)
              [FrameTile 10%nat; ClientMoveResize 10%nat 5 7 100 50]).
Proof.
  apply (leaf_MoveResize_frames_then_moves Round 0 1%nat
           (mkLeaf (Some 0%nat) 10%nat 1%float) 5 7 100 50 world1).
  reflexivity.
Defined.

Lemma place_is_gated_by_ValidDims_witness :
  exists w', place Round 3 tree0 (mkRect 0 0 1 10) world3 = Ok (tt, w')
             /\ calls w' = calls world3 /\ heap w' = heap world3
             /\ forall cl, geometry (calls w') cl = geometry (calls world3) cl.
Proof.
  destruct (place_is_gated_by_ValidDims Round 3 tree0 (mkRect 0 0 1 10) world3)
    as [_ H].
  destruct (H 0%nat false world3 eq_refl) as (_ & Hinvalid & _).
  - vm_compute. reflexivity.
  - exact (Hinvalid eq_refl).
Defined.

Lemma place_keeps_the_tree_witness :
  heap world2_placed = heap world2
  /\ (forall r, children_of world2_placed r = children_of world2 r
                /\ parent_of world2_placed r = parent_of world2 r
                /\ obj_prop <$> heap world2_placed !! r = obj_prop <$> heap world2 !! r)
  /\ exists log, calls world2_placed = calls world2 ++ log.
Proof.
  apply (place_keeps_the_tree Round 3 tree0 (mkRect 0 0 100 50) world2 world2_placed).
  vm_compute. reflexivity.
Defined.

(** ** Leaf traversal and lookup *)

Lemma visit_until_false_app {A} l1 l2 (f : ref -> A -> M (A * bool)) a w :
  visit_until_false (l1 ++ l2) f a w
  = bind (visit_until_false l1 f a)
      (fun r => if snd r then visit_until_false l2 f (fst r)
                else ret (fst r, false)) w.
Proof.
  revert a w. induction l1 as [|l l1 IH]; intros a w; simpl.
  - done.
  - unfold bind in *. destruct (f l a w) as [[[a' b] w1]| |]; simpl; [|done..].
    destruct b; [apply IH | done].
Qed.

Lemma visit_until_false_heap {A} ls (f : ref -> A -> M (A * bool)) a w r w' :
  heap_preserving f -> visit_until_false ls f a w = Ok (r, w') -> heap w' = heap w.
Proof.
  intros Hf. revert a w. induction ls as [|l ls IH]; intros a w; simpl.
  - by intros [= _ ->].
  - intros H. apply bind_Ok in H as ([a' b] & w1 & H1 & H2). simpl in H2.
    apply Hf in H1. destruct b.
    + apply IH in H2. congruence.
    + injection H2 as _ <-. done.
Qed.

Lemma range_visit_leaves {A} (f : ref -> A -> M (A * bool)) h
    (visit : ref -> A -> M (A * bool)) (rec : ref -> option (list ref)) :
  heap_preserving f ->
  (forall c ls, rec c = Some ls ->
     forall a w, heap w = h -> visit c a w = visit_until_false ls f a w) ->
  forall cs ls, all_leaves rec cs = Some ls ->
    forall a w, heap w = h -> range_visit cs visit a w = visit_until_false ls f a w.
Proof.
  intros Hf Hvisit. induction cs as [|c cs IH]; intros ls Hls a w Hw; simpl in *.
  - by injection Hls as <-.
  - destruct (rec c) as [l|] eqn:Hc; [|done].
    destruct (all_leaves rec cs) as [ls'|] eqn:Hcs; [|done].
    injection Hls as <-. rewrite visit_until_false_app.
    unfold bind. rewrite (Hvisit c l Hc a w Hw).
    destruct (visit_until_false l f a w) as [[[a' b] w1]| |] eqn:Hl; [|done..].
    simpl. destruct b; simpl; [|done].
    apply IH; [done|]. apply visit_until_false_heap in Hl; [congruence | done].
Qed.

Lemma VisitLeafNodes_leaves {A} (f : ref -> A -> M (A * bool)) h :
  heap_preserving f ->
  forall fuel n ls, leaves h fuel n = Some ls ->
    forall a w, heap w = h ->
      VisitLeafNodes fuel n f a w = visit_until_false ls f a w.
Proof.
  intros Hf. induction fuel as [|fuel IH]; intros n ls Hl a w Hw; [done|].
  simpl in Hl. simpl. unfold bind at 1. unfold deref. rewrite Hw.
  destruct (h !! n) as [[s|s|l]|] eqn:Hn; try done.
  - eapply range_visit_leaves; eauto.
  - eapply range_visit_leaves; eauto.
  - injection Hl as <-. simpl. unfold bind, ret.
    destruct (f n a w) as [[[a' b] w1]| |]; [|done..]. by destruct b.
Qed.

Lemma all_leaves_Forall (P : ref -> Prop) rec cs ls :
  (forall c l, rec c = Some l -> Forall P l) ->
  all_leaves rec cs = Some ls -> Forall P ls.
Proof.
  intros Hrec. revert ls. induction cs as [|c cs IH]; intros ls; simpl.
  - by intros [= <-].
  - destruct (rec c) as [l|] eqn:Hc; [|done].
    destruct (all_leaves rec cs) as [ls'|]; [|done].
    intros [= <-]. apply Forall_app. eauto.
Qed.

Lemma leaves_are_leaves h fuel n ls :
  leaves h fuel n = Some ls ->
  Forall (fun l => exists lf, h !! l = Some (Leaf lf)) ls.
Proof.
  revert n ls. induction fuel as [|fuel IH]; intros n ls; [done|]. simpl.
  destruct (h !! n) as [[s|s|l]|] eqn:Hn; try done.
  - apply all_leaves_Forall. eauto.
  - apply all_leaves_Forall. eauto.
  - intros [= <-]. constructor; eauto.
Qed.

Lemma findLeaf_visit_Ok c visit lf w r w' :
  findLeaf_visit c visit lf w = Ok (r, w') ->
  w' = w /\ exists l, heap w !! visit = Some (Leaf l)
                      /\ r = if decide (leaf_client l = c) then (Some visit, false)
                             else (lf, true).
Proof.
  unfold findLeaf_visit. intros H. apply bind_Ok in H as (l & w1 & Hl & H).
  apply deref_leaf_Ok in Hl as [-> Hl]. split.
  - destruct (decide _); by injection H.
  - exists l. split; [done|]. destruct (decide _); by injection H.
Qed.

Lemma findLeaf_visit_heap c : heap_preserving (findLeaf_visit c).
Proof. intros l a w r w' H. by apply findLeaf_visit_Ok in H as [-> _]. Qed.

Lemma visit_find c w ls a :
  Forall (fun l => exists lf, heap w !! l = Some (Leaf lf)) ls ->
  visit_until_false ls (findLeaf_visit c) a w
  = Ok (match find (holds_client (heap w) c) ls with
        | Some l => (Some l, false)
        | None => (a, true)
        end, w).
Proof.
  induction 1 as [|l ls [lf Hl] _ IH]; simpl; [done|].
  unfold holds_client at 1. rewrite Hl.
  unfold bind at 1. unfold findLeaf_visit.
  rewrite (bind_Ok_l _ _ _ _ _ (deref_leaf_lookup _ _ _ Hl)).
  destruct (decide (leaf_client lf = c)) as [Hc|Hc].
  - by rewrite bool_decide_eq_true_2.
  - by rewrite bool_decide_eq_false_2.
Qed.

(** C7.  [findLeaf] on an empty tree returns nil.  On a tree whose leaves,
    depth first in child-sequence order, are [ls], it returns the first
    leaf of [ls] whose client is [c], nil when there is none, and changes
    nothing; and the traversal under it, run with any visitor that leaves
    the nodes alone, visits the leaves of [ls] in order and stops at the
    first one for which the visitor answers false. *)
Theorem findLeaf_first_match (fuel : nat) (t : tree) (c : Client) (w : world) :
  (child t = None -> findLeaf fuel t c w = Ok (None, w))
  /\ (forall r ls,
        child t = Some r -> leaves (heap w) fuel r = Some ls ->
        findLeaf fuel t c w = Ok (find (holds_client (heap w) c) ls, w)
        /\ forall (A : Type) (f : ref -> A -> M (A * bool)) (a : A),
             heap_preserving f ->
             VisitLeafNodes fuel r f a w = visit_until_false ls f a w).
Proof.
  split.
  - intros Ht. unfold findLeaf. by rewrite Ht.
  - intros r ls Ht Hls. split.
    + unfold findLeaf. rewrite Ht. unfold bind.
      rewrite (VisitLeafNodes_leaves _ (heap w) (findLeaf_visit_heap c)
                 fuel r ls Hls None w eq_refl).
      rewrite visit_find by (by eapply leaves_are_leaves).
      by destruct (find _ ls).
    + intros A f a Hf. by eapply VisitLeafNodes_leaves.
Qed.

Example leaves_nested :
  leaves (heap world_nested) 3 0%nat = Some [1%nat; 2%nat; 3%nat].
Proof. reflexivity. Qed.

Lemma findLeaf_first_match_witness :
  findLeaf 3 tree0 30%nat world_nested
  = Ok (find (holds_client (heap world_nested) 30%nat) [1%nat; 2%nat; 3%nat],
        world_nested)
  /\ forall (A : Type) (f : ref -> A -> M (A * bool)) (a : A),
       heap_preserving f ->
       VisitLeafNodes 3 0%nat f a world_nested
       = visit_until_false [1%nat; 2%nat; 3%nat] f a world_nested.
Proof.
  apply (proj2 (findLeaf_first_match 3 tree0 30%nat world_nested)
           0%nat [1%nat; 2%nat; 3%nat]); reflexivity.
Defined.

Example findLeaf_nested :
  findLeaf 3 tree0 30%nat world_nested = Ok (Some 3%nat, world_nested)
  /\ findLeaf 3 tree0 40%nat world_nested = Ok (None, world_nested).
Proof. split; vm_compute; reflexivity. Qed.

(** ** Swapping two clients *)

Lemma range_visit_invariant {A} (P : A -> world -> Prop)
    (visit : ref -> A -> M (A * bool)) :
  (forall c a w r w', P a w -> visit c a w = Ok (r, w') -> P (fst r) w') ->
  forall cs a w r w',
    P a w -> range_visit cs visit a w = Ok (r, w') -> P (fst r) w'.
Proof.
  intros Hv. induction cs as [|c cs IH]; intros a w r w' HP; simpl.
  - by intros [= <- <-].
  - intros H. apply bind_Ok in H as ([a' b] & w1 & H1 & H2). simpl in H2.
    apply Hv in H1; [|done]. destruct b; simpl in H2.
    + by eapply IH.
    + by injection H2 as <- <-.
Qed.

Lemma VisitLeafNodes_invariant {A} (P : A -> world -> Prop)
    (f : ref -> A -> M (A * bool)) :
  (forall l a w r w', P a w -> f l a w = Ok (r, w') -> P (fst r) w') ->
  forall fuel n a w r w',
    P a w -> VisitLeafNodes fuel n f a w = Ok (r, w') -> P (fst r) w'.
Proof.
  intros Hf. induction fuel as [|fuel IH]; intros n a w r w' HP; [done|].
  simpl. intros H. apply bind_Ok in H as (o & w1 & Hd & H).
  apply deref_Ok in Hd as [-> Hd]. destruct o as [s|s|l].
  - refine (range_visit_invariant P _ _ _ _ _ _ _ HP H). intros; by eapply IH.
  - refine (range_visit_invariant P _ _ _ _ _ _ _ HP H). intros; by eapply IH.
  - by eapply Hf.
Qed.

Lemma findLeaf_Ok fuel t c w lf w' :
  findLeaf fuel t c w = Ok (lf, w') ->
  w' = w /\ forall r, lf = Some r ->
              exists l, heap w !! r = Some (Leaf l) /\ leaf_client l = c.
Proof.
  unfold findLeaf. destruct (child t) as [root|]; [|by intros [= <- <-]].
  intros H. apply bind_Ok in H as (res & w1 & Hv & [= <- <-]).
  eapply (VisitLeafNodes_invariant
            (fun a w0 => w0 = w /\ forall r, a = Some r ->
               exists l, heap w !! r = Some (Leaf l) /\ leaf_client l = c))
    in Hv; [done | | done].
  intros l a w0 r w0' [-> Ha] Hvisit.
  apply findLeaf_visit_Ok in Hvisit as [-> (lf & Hl & ->)]. split; [done|].
  destruct (decide (leaf_client lf = c)); simpl; [|done].
  intros r' [= <-]. eauto.
Qed.

(** C8.  When [findLeaf] finds no leaf for one of the two clients,
    [switchClients] returns in the world it started from.  When it finds
    the leaves [r1] and [r2], [switchClients] returns in a world where [r1]
    holds the client of [r2] and [r2] that of [r1], with their parent links
    and proportions as before; no other object has changed, so every child
    sequence, parent link and proportion is what it was; and no call was
    issued. *)
Theorem switchClients_swaps_clients (fuel : nat) (t : tree) (c1 c2 : Client)
    (w w1 w2 : world) (lf1 lf2 : option ref)
    (H1 : findLeaf fuel t c1 w = Ok (lf1, w1))
    (H2 : findLeaf fuel t c2 w = Ok (lf2, w2)) :
  (lf1 = None \/ lf2 = None -> switchClients fuel t c1 c2 w = Ok (tt, w))
  /\ (forall r1 r2, lf1 = Some r1 -> lf2 = Some r2 ->
      exists l1 l2 w',
        heap w !! r1 = Some (Leaf l1) /\ leaf_client l1 = c1
        /\ heap w !! r2 = Some (Leaf l2) /\ leaf_client l2 = c2
        /\ switchClients fuel t c1 c2 w = Ok (tt, w')
        /\ heap w' !! r1 = Some (Leaf (mkLeaf (leaf_parent l1) c2 (leaf_prop l1)))
        /\ heap w' !! r2 = Some (Leaf (mkLeaf (leaf_parent l2) c1 (leaf_prop l2)))
        /\ (forall r, r <> r1 -> r <> r2 -> heap w' !! r = heap w !! r)
        /\ (forall r, children_of w' r = children_of w r
                      /\ parent_of w' r = parent_of w r
                      /\ obj_prop <$> heap w' !! r = obj_prop <$> heap w !! r)
        /\ calls w' = calls w).
Proof.
  destruct (findLeaf_Ok _ _ _ _ _ _ H1) as [-> Hl1].
  destruct (findLeaf_Ok _ _ _ _ _ _ H2) as [-> Hl2].
  split.
  - intros Hnone. unfold switchClients.
    rewrite (bind_Ok_l _ _ _ _ _ H1), (bind_Ok_l _ _ _ _ _ H2).
    destruct Hnone as [-> | ->]; [done|]. by destruct lf1.
  - intros r1 r2 -> ->.
    destruct (Hl1 r1 eq_refl) as (l1 & Hr1 & Hc1).
    destruct (Hl2 r2 eq_refl) as (l2 & Hr2 & Hc2).
    set (h1 := <[r1 := set_client c2 (Leaf l1)]> (heap w)).
    assert (Hr2' : exists l2', h1 !! r2 = Some (Leaf l2')
                               /\ leaf_parent l2' = leaf_parent l2
                               /\ leaf_prop l2' = leaf_prop l2).
    { subst h1. destruct (decide (r1 = r2)) as [<-|Hne].
      - rewrite lookup_insert_eq. simpl. eexists. split; [done|].
        split; simpl; congruence.
      - rewrite lookup_insert_ne by done. eauto. }
    destruct Hr2' as (l2' & Hr2' & Hpar & Hprop).
    pose (w' := mkWorld (<[r2 := set_client c1 (Leaf l2')]> h1) (calls w)).
    exists l1, l2, w'.
    assert (Hrun : switchClients fuel t c1 c2 w = Ok (tt, w')).
    { unfold switchClients.
      rewrite (bind_Ok_l _ _ _ _ _ H1), (bind_Ok_l _ _ _ _ _ H2).
      rewrite (bind_Ok_l _ _ _ _ _ (deref_leaf_lookup _ _ _ Hr1)).
      rewrite (bind_Ok_l _ _ _ _ _ (deref_leaf_lookup _ _ _ Hr2)).
      rewrite (bind_Ok_l _ _ _ _ _ (modify_lookup _ _ _ _ Hr1)).
      rewrite Hc1, Hc2. fold h1.
      by rewrite (modify_lookup r2 _ (mkWorld h1 (calls w)) _ Hr2'). }
    assert (Hnew1 : heap w' !! r1
                    = Some (Leaf (mkLeaf (leaf_parent l1) c2 (leaf_prop l1)))).
    { change (heap w') with (<[r2 := set_client c1 (Leaf l2')]> h1).
      destruct (decide (r2 = r1)) as [->|Hne].
      - rewrite lookup_insert_eq. simpl. rewrite Hpar, Hprop.
        assert (l1 = l2) as -> by congruence. congruence.
      - rewrite lookup_insert_ne by done. subst h1. by rewrite lookup_insert_eq. }
    assert (Hnew2 : heap w' !! r2
                    = Some (Leaf (mkLeaf (leaf_parent l2) c1 (leaf_prop l2)))).
    { change (heap w') with (<[r2 := set_client c1 (Leaf l2')]> h1).
      rewrite lookup_insert_eq. simpl. by rewrite Hpar, Hprop. }
    assert (Hother : forall r, r <> r1 -> r <> r2 -> heap w' !! r = heap w !! r).
    { intros r Hn1 Hn2.
      change (heap w') with (<[r2 := set_client c1 (Leaf l2')]> h1).
      rewrite lookup_insert_ne by done. subst h1. by rewrite lookup_insert_ne. }
    repeat (split; [done|]). split; [|done].
    intros r. unfold children_of, parent_of.
    destruct (decide (r = r1)) as [->|Hn1]; [by rewrite Hnew1, Hr1|].
    destruct (decide (r = r2)) as [->|Hn2]; [by rewrite Hnew2, Hr2|].
    by rewrite Hother.
Qed.

Lemma switchClients_swaps_clients_witness :
  exists l1 l2 w',
    heap world_nested !! 1%nat = Some (Leaf l1) /\ leaf_client l1 = 10%nat
    /\ heap world_nested !! 3%nat = Some (Leaf l2) /\ leaf_client l2 = 30%nat
    /\ switchClients 3 tree0 10%nat 30%nat world_nested = Ok (tt, w')
    /\ heap w' !! 1%nat = Some (Leaf (mkLeaf (leaf_parent l1) 30%nat (leaf_prop l1)))
    /\ heap w' !! 3%nat = Some (Leaf (mkLeaf (leaf_parent l2) 10%nat (leaf_prop l2)))
    /\ (forall r, r <> 1%nat -> r <> 3%nat -> heap w' !! r = heap world_nested !! r)
    /\ (forall r, children_of w' r = children_of world_nested r
                  /\ parent_of w' r = parent_of world_nested r
                  /\ obj_prop <$> heap w' !! r = obj_prop <$> heap world_nested !! r)
    /\ calls w' = calls world_nested.
Proof.
  assert (H1 : findLeaf 3 tree0 10%nat world_nested = Ok (Some 1%nat, world_nested))
    by (vm_compute; reflexivity).
  assert (H2 : findLeaf 3 tree0 30%nat world_nested = Ok (Some 3%nat, world_nested))
    by (vm_compute; reflexivity).
  exact (proj2 (switchClients_swaps_clients 3 tree0 10%nat 30%nat world_nested
                  world_nested world_nested (Some 1%nat) (Some 3%nat) H1 H2)
           1%nat 3%nat eq_refl eq_refl).
Defined.

Section Binary64.

(** ** Binary64 arithmetic: the rounding of [SpecFloat] *)

Lemma digits2_pos_size (m : positive) : digits2_pos m = Pos.size m.
Proof. induction m; simpl; congruence. Qed.

Lemma digits2_bounds (m : positive) :
  2 ^ (Zpos (digits2_pos m) - 1) <= Zpos m < 2 ^ Zpos (digits2_pos m).
Proof.
  rewrite digits2_pos_size. split.
  - pose proof (Pos.size_le m) as H.
    assert (Hp : (2 ^ Pos.size m <= m~0)%positive) by exact H.
    apply Pos2Z.pos_le_pos in Hp. rewrite Pos2Z.inj_pow in Hp.
    replace (Zpos (Pos.size m)) with (Zpos (Pos.size m) - 1 + 1) in Hp by lia.
    rewrite Z.pow_add_r in Hp by lia. change (Zpos m~0) with (2 * Zpos m) in Hp. lia.
  - pose proof (Pos.size_gt m) as H. apply Pos2Z.pos_lt_pos in H.
    by rewrite Pos2Z.inj_pow in H.
Qed.

Lemma shr_1_div2 q r s :
  0 <= q ->
  shr_1 (Build_shr_record q r s) = Build_shr_record (q / 2) (Z.odd q) (r || s).
Proof.
  intros Hq. rewrite <- Z.div2_div. destruct q as [|p|p]; [done | | lia].
  by destruct p.
Qed.

Lemma shr_1_locate N D :
  0 <= N -> 0 < D ->
  shr_1 (shr_record_of_loc (N / D) (locate N D))
  = shr_record_of_loc (N / (2 * D)) (locate N (2 * D)).
Proof.
  intros HN HD.
  assert (Hq : 0 <= N / D) by (apply Z.div_pos; lia).
  pose proof (Z.mod_pos_bound N D HD) as HR.
  assert (Hq2 : N / (2 * D) = N / D / 2).
  { rewrite (Z.mul_comm 2 D). by rewrite Z.div_div by lia. }
  assert (Hr2 : N mod (2 * D) = (if Z.odd (N / D) then 1 else 0) * D + N mod D).
  { rewrite (Z.mul_comm 2 D). rewrite Z.rem_mul_r by lia.
    rewrite (Zmod_odd (N / D)). lia. }
  rewrite Hq2. unfold locate. rewrite Hr2.
  set (q := N / D) in *. set (R := N mod D) in *.
  assert (Hrec : forall l, shr_1 (shr_record_of_loc q l)
                 = Build_shr_record (q / 2) (Z.odd q)
                     (match l with loc_Exact => false | _ => true end)).
  { intros [|[| |]]; unfold shr_record_of_loc; by rewrite shr_1_div2. }
  rewrite Hrec. destruct (Z.odd q).
  - replace (1 * D + R) with (D + R) by lia.
    assert (HDR : (D + R =? 0) = false) by (apply Z.eqb_neq; lia).
    rewrite HDR. destruct (R =? 0) eqn:HR0.
    + apply Z.eqb_eq in HR0.
      assert ((2 * (D + R) ?= 2 * D) = Eq) as -> by (apply Z.compare_eq_iff; lia).
      done.
    + apply Z.eqb_neq in HR0.
      assert ((2 * (D + R) ?= 2 * D) = Gt) as -> by (apply Z.compare_gt_iff; lia).
      done.
  - replace (0 * D + R) with R by lia. destruct (R =? 0) eqn:HR0; [done|].
    apply Z.eqb_neq in HR0.
    assert ((2 * R ?= 2 * D) = Lt) as -> by (apply Z.compare_lt_iff; lia).
    done.
Qed.

Lemma pow2_xO (p : positive) : 2 ^ Zpos p~0 = 2 ^ Zpos p * 2 ^ Zpos p.
Proof.
  replace (Zpos p~0) with (Zpos p + Zpos p) by lia. by rewrite Z.pow_add_r by lia.
Qed.

Lemma pow2_xI (p : positive) : 2 ^ Zpos p~1 = 2 * (2 ^ Zpos p * 2 ^ Zpos p).
Proof.
  replace (Zpos p~1) with (1 + (Zpos p + Zpos p)) by lia.
  by rewrite !Z.pow_add_r, Z.pow_1_r by lia.
Qed.

Lemma iter_pos_shr_1 (p : positive) N D :
  0 <= N -> 0 < D ->
  SpecFloat.iter_pos shr_1 p (shr_record_of_loc (N / D) (locate N D))
  = shr_record_of_loc (N / (2 ^ Zpos p * D)) (locate N (2 ^ Zpos p * D)).
Proof.
  intros HN. revert D. induction p as [p IH|p IH|]; intros D HD;
    cbn [SpecFloat.iter_pos].
  - assert (0 < 2 ^ Zpos p) by (apply Z.pow_pos_nonneg; lia).
    rewrite shr_1_locate by lia. rewrite IH by lia. rewrite IH by nia.
    rewrite pow2_xI.
    replace (2 ^ Zpos p * (2 ^ Zpos p * (2 * D)))
      with (2 * (2 ^ Zpos p * 2 ^ Zpos p) * D) by ring.
    done.
  - assert (0 < 2 ^ Zpos p) by (apply Z.pow_pos_nonneg; lia).
    rewrite IH by lia. rewrite IH by nia. rewrite pow2_xO.
    replace (2 ^ Zpos p * (2 ^ Zpos p * D)) with (2 ^ Zpos p * 2 ^ Zpos p * D) by ring.
    done.
  - rewrite shr_1_locate by lia. by rewrite Z.pow_1_r.
Qed.

Lemma rnd_spec N D :
  0 <= N -> 0 < D ->
  2 * Z.abs (rnd N D * D - N) <= D /\ N / D <= rnd N D <= N / D + 1.
Proof.
  intros HN HD. unfold rnd, locate.
  pose proof (Z.mod_pos_bound N D HD) as HR.
  pose proof (Z.div_mod N D ltac:(lia)) as HND.
  set (q := N / D) in *. set (R := N mod D) in *.
  assert (Hdn : q * D - N = - R) by lia.
  assert (Hup : (q + 1) * D - N = D - R) by lia.
  destruct (R =? 0) eqn:HR0; simpl.
  - apply Z.eqb_eq in HR0. rewrite Hdn. lia.
  - destruct (2 * R ?= D) eqn:Hc.
    + apply Z.compare_eq_iff in Hc.
      destruct (Z.even q); [rewrite Hdn | rewrite Hup]; lia.
    + pose proof (proj1 (Z.compare_lt_iff _ _) Hc). rewrite Hdn. lia.
    + pose proof (proj1 (Z.compare_gt_iff _ _) Hc). rewrite Hup. lia.
Qed.

Lemma Zdigits2_bounds m :
  0 < m -> 0 < Zdigits2 m /\ 2 ^ (Zdigits2 m - 1) <= m < 2 ^ Zdigits2 m.
Proof.
  destruct m as [|p|p]; try lia. intros _. simpl. split; [lia|].
  apply digits2_bounds.
Qed.

Lemma Zdigits2_unique m d :
  0 < d -> 2 ^ (d - 1) <= m < 2 ^ d -> Zdigits2 m = d.
Proof.
  intros Hd Hm.
  assert (0 < m) by (assert (0 < 2 ^ (d - 1)) by (apply Z.pow_pos_nonneg; lia); lia).
  destruct (Zdigits2_bounds m ltac:(done)) as [Hd' Hm'].
  destruct (Z.lt_trichotomy (Zdigits2 m) d) as [Hlt | [Heq | Hgt]]; [|done|].
  - assert (2 ^ Zdigits2 m <= 2 ^ (d - 1)) by (apply Z.pow_le_mono_r; lia). lia.
  - assert (2 ^ d <= 2 ^ (Zdigits2 m - 1)) by (apply Z.pow_le_mono_r; lia). lia.
Qed.

Lemma fexp_eq x : fexp prec emax x = Z.max (x - 53) (-1074).
Proof. reflexivity. Qed.

Lemma shr_record_of_loc_m m l : shr_m (shr_record_of_loc m l) = m.
Proof. by destruct l as [|[| |]]. Qed.

Lemma loc_of_shr_record_of_loc m l : loc_of_shr_record (shr_record_of_loc m l) = l.
Proof. by destruct l as [|[| |]]. Qed.

Lemma locate_1 m : locate m 1 = loc_Exact.
Proof. unfold locate. by rewrite Z.mod_1_r. Qed.

(** [shr_fexp] on a fraction: the fraction is kept, the denominator takes
    the shift. *)
Lemma shr_fexp_locate N D e :
  0 <= N -> 0 < D ->
  let sh := fexp prec emax (Zdigits2 (N / D) + e) - e in
  0 <= sh ->
  shr_fexp prec emax (N / D) e (locate N D)
  = (shr_record_of_loc (N / (2 ^ sh * D)) (locate N (2 ^ sh * D)), e + sh).
Proof.
  intros HN HD sh Hsh. unfold shr_fexp, shr. fold sh.
  destruct sh as [|p|p]; [|by rewrite iter_pos_shr_1|lia].
  rewrite Z.pow_0_r, Z.mul_1_l, Z.add_0_r. done.
Qed.

(** The rounding of [SpecFloat] on a fraction [N / D] scaled by [2 ^ e]:
    the mantissa is the nearest integer to the fraction taken at the
    exponent [e1] of the format, renormalised when rounding carries into a
    54th bit. *)
Lemma binary_round_aux_locate (s : bool) (N D e : Z) :
  0 <= N -> 0 < D -> 0 < N / D ->
  let e1 := fexp prec emax (Zdigits2 (N / D) + e) in
  e <= e1 -> e1 <= 970 ->
  exists m' e',
    binary_round_aux prec emax s (N / D) e (locate N D)
    = match m' with
      | Zpos p => S754_finite s p e'
      | _ => S754_zero s
      end
    /\ 0 <= m' /\ e1 <= e' <= 971
    /\ m' * 2 ^ (e' - e1) = rnd N (2 ^ (e1 - e) * D)
    /\ match m' with
       | Zpos p => SpecFloat.bounded prec emax p e' = true
       | _ => True
       end.
Proof.
  intros HN HD Hm e1 He He1.
  destruct (Zdigits2_bounds _ Hm) as [Hd Hmd].
  set (d := Zdigits2 (N / D)) in *.
  assert (He1' : e1 = Z.max (d + e - 53) (-1074)) by (subst e1; apply fexp_eq).
  set (sh := e1 - e).
  assert (Hpow : 0 < 2 ^ sh) by (apply Z.pow_pos_nonneg; lia).
  set (D1 := 2 ^ sh * D).
  assert (HD1 : 0 < D1) by (subst D1; nia).
  unfold binary_round_aux.
  rewrite (shr_fexp_locate N D e HN HD) by (fold d; fold e1; lia).
  fold d. fold e1. fold sh. fold D1.
  rewrite shr_record_of_loc_m, loc_of_shr_record_of_loc.
  replace (e + sh) with e1 by (subst sh; lia).
  fold (rnd N D1).
  destruct (rnd_spec N D1 HN HD1) as [_ Hrnd].
  set (m1 := rnd N D1) in *.
  assert (Hq1 : N / D1 = N / D / 2 ^ sh).
  { subst D1. rewrite (Z.mul_comm (2 ^ sh) D). by rewrite Z.div_div by lia. }
  assert (Hq1ub : N / D1 < 2 ^ 53).
  { rewrite Hq1. apply Z.div_lt_upper_bound; [lia|].
    rewrite <- Z.pow_add_r by lia.
    assert (2 ^ d <= 2 ^ (sh + 53)) by (apply Z.pow_le_mono_r; lia). lia. }
  assert (Hq1lb : -1074 < e1 -> 2 ^ 52 <= N / D1).
  { intros Hnorm. rewrite Hq1. apply Z.div_le_lower_bound; [lia|].
    rewrite <- Z.pow_add_r by lia.
    assert (2 ^ (sh + 52) <= 2 ^ (d - 1)) by (apply Z.pow_le_mono_r; lia). lia. }
  assert (Hq1nn : 0 <= N / D1) by (apply Z.div_pos; lia).
  replace (shr_record_of_loc m1 loc_Exact)
    with (shr_record_of_loc (m1 / 1) (locate m1 1))
    by (by rewrite Z.div_1_r, locate_1).
  change (shr_fexp prec emax m1 e1 loc_Exact)
    with (shr_fexp prec emax m1 e1 loc_Exact).
  replace (shr_fexp prec emax m1 e1 loc_Exact)
    with (shr_fexp prec emax (m1 / 1) e1 (locate m1 1))
    by (by rewrite Z.div_1_r, locate_1).
  destruct (Z.eq_dec m1 0) as [Hm0 | Hm0].
  - (* the fraction underflows to zero *)
    exists 0, e1.
    assert (Hsh2 : fexp prec emax (Zdigits2 (m1 / 1) + e1) - e1 <= 0).
    { rewrite Z.div_1_r, Hm0. simpl Zdigits2. rewrite fexp_eq. lia. }
    unfold shr_fexp, shr.
    destruct (fexp prec emax (Zdigits2 (m1 / 1) + e1) - e1) as [|p|p] eqn:Hs; try lia;
      rewrite shr_record_of_loc_m, Z.div_1_r, Hm0;
      (split; [done|]); (split; [lia|]); (split; [lia|]); (split; [|done]);
      rewrite Z.sub_diag; simpl; lia.
  - destruct (Z.eq_dec m1 (2 ^ 53)) as [Hcarry | Hcarry].
    + (* rounding carried into a 54th bit *)
      exists (Zpos (2 ^ 52)%positive), (e1 + 1).
      assert (Hd1 : Zdigits2 m1 = 54) by (apply Zdigits2_unique; [lia | rewrite Hcarry; lia]).
      rewrite (shr_fexp_locate m1 1 e1) by
        (rewrite ?Z.div_1_r, ?Hd1, ?fexp_eq; lia).
      rewrite Z.div_1_r, Hd1.
      assert (Hs2 : fexp prec emax (54 + e1) - e1 = 1) by (rewrite fexp_eq; lia).
      rewrite Hs2. rewrite shr_record_of_loc_m. rewrite Hcarry.
      change (2 ^ 53 / (2 ^ 1 * 1)) with (Zpos (2 ^ 52)%positive).
      cbv iota. assert ((e1 + 1 <=? emax - prec) = true) as ->
        by (apply Z.leb_le; change (emax - prec) with 971; lia).
      split; [done|]. split; [lia|]. split; [lia|]. split.
      * replace (e1 + 1 - e1) with 1 by lia. done.
      * unfold SpecFloat.bounded, canonical_mantissa.
        change (Zpos (digits2_pos (2 ^ 52)%positive)) with 53.
        rewrite fexp_eq. apply andb_true_iff. split.
        -- apply Z.eqb_eq. lia.
        -- apply Z.leb_le. change (emax - prec) with 971. lia.
    + (* the mantissa fits *)
      exists m1, e1.
      assert (Hm1 : 0 < m1 < 2 ^ 53) by lia.
      destruct (Zdigits2_bounds m1 ltac:(lia)) as [Hd1 Hmd1].
      assert (Hd1ub : Zdigits2 m1 <= 53).
      { destruct (Z.le_gt_cases (Zdigits2 m1) 53) as [|Hgt]; [done|].
        assert (2 ^ 53 <= 2 ^ (Zdigits2 m1 - 1)) by (apply Z.pow_le_mono_r; lia). lia. }
      assert (Hsh2 : fexp prec emax (Zdigits2 (m1 / 1) + e1) - e1 <= 0).
      { rewrite Z.div_1_r, fexp_eq. lia. }
      unfold shr_fexp, shr.
      destruct (fexp prec emax (Zdigits2 (m1 / 1) + e1) - e1) as [|p|p] eqn:Hs; try lia;
        rewrite shr_record_of_loc_m, Z.div_1_r;
        destruct m1 as [|p1|p1] eqn:Hp1; try lia;
        (assert ((e1 <=? emax - prec) = true) as ->
           by (apply Z.leb_le; change (emax - prec) with 971; lia));
        (split; [done|]); (split; [lia|]); (split; [lia|]);
        (split; [rewrite Z.sub_diag; simpl Z.pow; lia|]);
        unfold SpecFloat.bounded, canonical_mantissa; apply andb_true_iff;
        (split; [|apply Z.leb_le; change (emax - prec) with 971; lia]);
        apply Z.eqb_eq; rewrite fexp_eq;
        change (Zpos (digits2_pos p1)) with (Zdigits2 (Zpos p1));
        destruct (Z.eq_dec e1 (-1074)) as [Hsub | Hnorm]; try lia;
        (assert (Zdigits2 (Zpos p1) = 53);
         [apply Zdigits2_unique; [lia|]; specialize (Hq1lb ltac:(lia)); lia | lia]).
Qed.

(** ** The real value of a binary64 number *)

Local Open Scope R_scope.

Lemma bpow_pos e : 0 < bpow e.
Proof. apply powerRZ_lt. lra. Qed.

Lemma bpow_add a b : bpow (a + b) = bpow a * bpow b.
Proof. apply powerRZ_add. lra. Qed.

Lemma bpow_IZR e : (0 <= e)%Z -> bpow e = IZR (2 ^ e).
Proof.
  intros He. unfold bpow. destruct e as [|p|p]; [done| |lia].
  simpl powerRZ. rewrite pow_IZR. by rewrite positive_nat_Z.
Qed.

Lemma bpow_le a b : (a <= b)%Z -> bpow a <= bpow b.
Proof.
  intros Hab. replace b with (a + (b - a))%Z by lia. rewrite bpow_add.
  rewrite (bpow_IZR (b - a)) by lia.
  assert (1 <= IZR (2 ^ (b - a))).
  { apply IZR_le. assert (0 < 2 ^ (b - a))%Z by (apply Z.pow_pos_nonneg; lia). lia. }
  pose proof (bpow_pos a). nra.
Qed.

Lemma bpow_lt a b : (a < b)%Z -> bpow a < bpow b.
Proof.
  intros Hab. replace b with (a + (b - a))%Z by lia. rewrite bpow_add.
  rewrite (bpow_IZR (b - a)) by lia.
  assert (2 <= IZR (2 ^ (b - a))).
  { apply IZR_le. replace (b - a)%Z with (1 + (b - a - 1))%Z by lia.
    rewrite Z.pow_add_r by lia.
    assert (0 < 2 ^ (b - a - 1))%Z by (apply Z.pow_pos_nonneg; lia). lia. }
  pose proof (bpow_pos a). nra.
Qed.

Lemma bpow_0 : bpow 0 = 1.
Proof. done. Qed.

Lemma bpow_1 : bpow 1 = 2.
Proof. unfold bpow. simpl. lra. Qed.

Lemma bpow_opp e : bpow (- e) = / bpow e.
Proof. apply powerRZ_neg'. Qed.

(** The value and the error of the rounding. *)
Lemma binary_round_aux_error (s : bool) (N D e : Z) :
  (0 <= N)%Z -> (0 < D)%Z -> (0 < N / D)%Z ->
  let e1 := fexp prec emax (Zdigits2 (N / D) + e) in
  (e <= e1)%Z -> (e1 <= 970)%Z ->
  let z := binary_round_aux prec emax s (N / D) e (locate N D) in
  let v := IZR (rnd N (2 ^ (e1 - e) * D)) * bpow e1 in
  SFfinite z = true /\ valid_binary z = true
  /\ SF2R z = (if s then -1 else 1) * v /\ 0 <= v
  /\ Rabs (v - IZR N / IZR D * bpow e) <= bpow e1 / 2
  /\ (z = S754_zero s \/ exists m' e', z = S754_finite s m' e').
Proof.
  intros HN HD Hm e1 He He1 z v.
  destruct (binary_round_aux_locate s N D e HN HD Hm He He1)
    as (m' & e' & Hz & Hm' & He' & Hval & Hvalid).
  fold e1 in Hval, He'. fold z in Hz.
  set (sh := (e1 - e)%Z) in *.
  assert (Hpow : (0 < 2 ^ sh)%Z) by (apply Z.pow_pos_nonneg; lia).
  set (D1 := (2 ^ sh * D)%Z) in *.
  assert (HD1 : (0 < D1)%Z) by (subst D1; nia).
  destruct (rnd_spec N D1 HN HD1) as [Herr Hrnd].
  assert (Hv : IZR m' * bpow e' = v).
  { subst v. rewrite <- Hval. replace e' with ((e' - e1) + e1)%Z at 1 by lia.
    rewrite bpow_add, (bpow_IZR (e' - e1)) by lia. rewrite mult_IZR. ring. }
  assert (Hexact : IZR N / IZR D * bpow e = IZR N / IZR D1 * bpow e1).
  { subst D1. rewrite mult_IZR.
    replace (bpow e1) with (bpow (sh + e)) by (f_equal; subst sh; lia).
    rewrite bpow_add, <- (bpow_IZR sh) by lia.
    pose proof (bpow_pos sh). assert (0 < IZR D) by (by apply IZR_lt).
    field. lra. }
  assert (Hbound : Rabs (v - IZR N / IZR D * bpow e) <= bpow e1 / 2).
  { rewrite Hexact. subst v.
    assert (HD1R : 0 < IZR D1) by (by apply IZR_lt).
    replace (IZR (rnd N D1) * bpow e1 - IZR N / IZR D1 * bpow e1)
      with (IZR (rnd N D1 * D1 - N) / IZR D1 * bpow e1)
      by (rewrite minus_IZR, mult_IZR; field; lra).
    pose proof (bpow_pos e1).
    rewrite Rabs_mult, (Rabs_pos_eq (bpow e1)) by lra.
    unfold Rdiv at 1. rewrite Rabs_mult, (Rabs_pos_eq (/ IZR D1))
      by (apply Rlt_le, Rinv_0_lt_compat; lra).
    rewrite <- abs_IZR.
    assert (2 * IZR (Z.abs (rnd N D1 * D1 - N)) <= IZR D1).
    { rewrite <- mult_IZR. by apply IZR_le. }
    assert (IZR (Z.abs (rnd N D1 * D1 - N)) * / IZR D1 <= / 2).
    { apply (Rmult_le_reg_r (IZR D1)); [lra|].
      rewrite Rmult_assoc, Rinv_l by lra. lra. }
    nra. }
  assert (Hvnn : 0 <= v).
  { subst v. pose proof (bpow_pos e1).
    assert (0 <= IZR (rnd N D1)).
    { apply IZR_le. assert (0 <= N / D1)%Z by (apply Z.div_pos; lia). lia. }
    nra. }
  destruct m' as [|p|p]; [| |lia].
  - rewrite Hz. split; [done|]. split; [done|]. simpl SF2R.
    split; [|split; [done|split; [done|by left]]].
    rewrite <- Hv. destruct s; lra.
  - rewrite Hz. split; [done|]. split; [done|]. simpl SF2R.
    split; [|split; [done|split; [done|right; eauto]]].
    by rewrite <- Hv.
Qed.

(** In the normal range the error is relative. *)
Lemma half_ulp_relative (N D e : Z) :
  (0 <= N)%Z -> (0 < D)%Z -> (0 < N / D)%Z ->
  let e1 := fexp prec emax (Zdigits2 (N / D) + e) in
  (-1021 <= Zdigits2 (N / D) + e)%Z ->
  bpow e1 / 2 <= bpow (-53) * (IZR N / IZR D * bpow e).
Proof.
  intros HN HD Hm e1 Hnorm.
  destruct (Zdigits2_bounds _ Hm) as [Hd Hmd].
  set (d := Zdigits2 (N / D)) in *.
  assert (He1 : e1 = (d + e - 53)%Z) by (subst e1; rewrite fexp_eq; lia).
  rewrite He1.
  assert (HDR : 0 < IZR D) by (by apply IZR_lt).
  assert (Hq : IZR (N / D) <= IZR N / IZR D).
  { apply (Rmult_le_reg_r (IZR D)); [lra|].
    unfold Rdiv. rewrite Rmult_assoc, Rinv_l, Rmult_1_r by lra.
    rewrite <- mult_IZR. apply IZR_le.
    pose proof (Z.mul_div_le N D HD). lia. }
  assert (Hlow : bpow (d - 1) <= IZR (N / D)).
  { rewrite bpow_IZR by lia. apply IZR_le. lia. }
  replace (d + e - 53)%Z with ((-53) + (d - 1) + e + 1)%Z by lia.
  rewrite !bpow_add, bpow_1.
  pose proof (bpow_pos (-53)). pose proof (bpow_pos (d - 1)). pose proof (bpow_pos e).
  assert (bpow (d - 1) * bpow e <= IZR N / IZR D * bpow e) by nra.
  nra.
Qed.

Lemma valid_finite s m e :
  valid_binary (S754_finite s m e) = true ->
  (-1074 <= e <= 971)%Z
  /\ fexp prec emax (Zdigits2 (Zpos m) + e) = e
  /\ (Zdigits2 (Zpos m) <= 53)%Z
  /\ ((-1074 < e)%Z -> Zdigits2 (Zpos m) = 53%Z).
Proof.
  unfold valid_binary, SpecFloat.bounded, canonical_mantissa.
  intros H. apply andb_true_iff in H as [Hc Hb].
  apply Z.eqb_eq in Hc. apply Z.leb_le in Hb. change (emax - prec)%Z with 971%Z in Hb.
  change (Zpos (digits2_pos m)) with (Zdigits2 (Zpos m)) in Hc.
  split; [|split; [done|]]; rewrite fexp_eq in Hc; lia.
Qed.

Lemma Zdigits2_shift m k :
  (0 < m)%Z -> (0 <= k)%Z -> Zdigits2 (m * 2 ^ k) = (Zdigits2 m + k)%Z.
Proof.
  intros Hm Hk. destruct (Zdigits2_bounds m Hm) as [Hd Hmd].
  assert (0 < 2 ^ k)%Z by (apply Z.pow_pos_nonneg; lia).
  apply Zdigits2_unique; [lia|].
  replace (Zdigits2 m + k - 1)%Z with ((Zdigits2 m - 1) + k)%Z by lia.
  rewrite !Z.pow_add_r by lia. nia.
Qed.

Lemma iter_xO m d : Zpos (Pos.iter xO m d) = (Zpos m * 2 ^ Zpos d)%Z.
Proof.
  induction d as [|d IH] using Pos.peano_ind.
  - simpl. lia.
  - rewrite Pos.iter_succ, Pos2Z.inj_xO, IH, Pos2Z.inj_succ, Z.pow_succ_r by lia. ring.
Qed.

Lemma shl_align_spec m e e' :
  snd (shl_align m e e') = Z.min e e'
  /\ Zpos (fst (shl_align m e e')) = (Zpos m * 2 ^ (e - Z.min e e'))%Z.
Proof.
  unfold shl_align. destruct (e' - e)%Z as [|d|d] eqn:Hd; simpl.
  - replace (Z.min e e') with e by lia. rewrite Z.sub_diag. simpl. lia.
  - replace (Z.min e e') with e by lia. rewrite Z.sub_diag. simpl. lia.
  - replace (Z.min e e') with e' by lia. split; [done|].
    rewrite iter_xO. f_equal. f_equal. lia.
Qed.

(** [binary_round]: the rounding of [m * 2 ^ e]. *)
Lemma binary_round_error (s : bool) (m : positive) (e : Z) :
  let e1 := fexp prec emax (Zdigits2 (Zpos m) + e) in
  (e1 <= 970)%Z ->
  let z := binary_round prec emax s m e in
  SFfinite z = true /\ valid_binary z = true
  /\ exists v : R,
       SF2R z = (if s then -1 else 1) * v /\ 0 <= v
       /\ Rabs (v - IZR (Zpos m) * bpow e) <= bpow e1 / 2
       /\ ((e1 <= e)%Z -> v = IZR (Zpos m) * bpow e).
Proof.
  intros e1 He1 z. subst z. unfold binary_round.
  change (Zpos (digits2_pos m)) with (Zdigits2 (Zpos m)). fold e1.
  destruct (shl_align_spec m e e1) as [Hsnd Hfst].
  destruct (shl_align m e e1) as [mz ez]. simpl in Hsnd, Hfst.
  set (k := (e - Z.min e e1)%Z) in *.
  assert (Hk : (0 <= k)%Z) by (subst k; lia).
  assert (Hdig : Zdigits2 (Zpos mz) = (Zdigits2 (Zpos m) + k)%Z).
  { rewrite Hfst. by apply Zdigits2_shift. }
  assert (Hfe : fexp prec emax (Zdigits2 (Zpos mz / 1) + ez) = e1).
  { rewrite Z.div_1_r, Hdig. subst e1. f_equal. subst k. lia. }
  pose proof (binary_round_aux_error s (Zpos mz) 1 ez ltac:(lia) ltac:(lia)
                ltac:(rewrite Z.div_1_r; lia)) as Haux.
  cbv zeta in Haux. rewrite Hfe in Haux.
  specialize (Haux ltac:(lia) He1).
  rewrite Z.div_1_r, locate_1 in Haux.
  destruct Haux as (Hfin & Hvalid & Hv & Hvnn & Herr & _).
  split; [done|]. split; [done|].
  eexists. split; [exact Hv|]. split; [done|].
  assert (Hexact : IZR (Zpos mz) / IZR 1 * bpow ez = IZR (Zpos m) * bpow e).
  { rewrite Hfst, mult_IZR, <- bpow_IZR by lia.
    replace (bpow e) with (bpow (k + ez)) by (f_equal; subst k; lia).
    rewrite bpow_add. field. }
  rewrite Hexact in Herr. split; [done|].
  intros Hle. rewrite <- Hexact.
  assert (ez = e1) as -> by lia.
  rewrite Z.sub_diag. change (2 ^ 0 * 1)%Z with 1%Z.
  unfold rnd. rewrite locate_1, Z.div_1_r. simpl. field.
Qed.

Lemma fexp_mono a b : (a <= b)%Z -> (fexp prec emax a <= fexp prec emax b)%Z.
Proof. rewrite !fexp_eq. lia. Qed.

(** The number of digits of an integer, from a bound on its size. *)
Lemma digits_le_of_lt (m e k : Z) :
  (0 < m)%Z -> IZR m * bpow e < bpow k -> (Zdigits2 m + e <= k)%Z.
Proof.
  intros Hm Hlt. destruct (Zdigits2_bounds m Hm) as [Hd Hmd].
  destruct (Z.le_gt_cases (Zdigits2 m + e) k) as [|Hgt]; [done|]. exfalso.
  assert (bpow k <= bpow (Zdigits2 m - 1 + e)) by (apply bpow_le; lia).
  rewrite bpow_add, (bpow_IZR (Zdigits2 m - 1)) in H by lia.
  assert (IZR (2 ^ (Zdigits2 m - 1)) <= IZR m) by (apply IZR_le; lia).
  pose proof (bpow_pos e). nra.
Qed.

Lemma digits_ge_of_le (m e k : Z) :
  (0 < m)%Z -> bpow k <= IZR m * bpow e -> (k < Zdigits2 m + e)%Z.
Proof.
  intros Hm Hle. destruct (Zdigits2_bounds m Hm) as [Hd Hmd].
  destruct (Z.lt_ge_cases k (Zdigits2 m + e)) as [|Hge]; [done|]. exfalso.
  assert (bpow (Zdigits2 m + e) <= bpow k) by (apply bpow_le; lia).
  rewrite bpow_add, (bpow_IZR (Zdigits2 m)) in H by lia.
  assert (IZR m < IZR (2 ^ Zdigits2 m)) by (apply IZR_lt; lia).
  pose proof (bpow_pos e). nra.
Qed.

(** [binary_normalize]: the rounding of a signed integer times a power of
    two. *)
Lemma binary_normalize_error (M e k : Z) :
  Rabs (IZR M * bpow e) < bpow k -> (k <= 1023)%Z ->
  let z := binary_normalize prec emax M e false in
  SFfinite z = true /\ valid_binary z = true
  /\ Rabs (SF2R z - IZR M * bpow e) <= bpow (fexp prec emax k) / 2
  /\ ((Z.abs M < 2 ^ 53)%Z -> (-1074 <= e)%Z -> SF2R z = IZR M * bpow e).
Proof.
  intros Hlt Hk z. subst z. pose proof (bpow_pos e) as Hbe.
  destruct M as [|m|m]; simpl binary_normalize.
  - split; [done|]. split; [done|]. simpl. replace (0 - 0 * bpow e) with 0 by ring.
    rewrite Rabs_R0. pose proof (bpow_pos (fexp prec emax k)). split; [lra|]. intros; ring.
  - rewrite Rabs_pos_eq in Hlt by (assert (0 < IZR (Zpos m)) by (by apply IZR_lt); nra).
    pose proof (digits_le_of_lt (Zpos m) e k ltac:(lia) Hlt) as Hdig.
    pose proof (fexp_mono _ _ Hdig) as Hfe.
    destruct (binary_round_error false m e) as (Hfin & Hvalid & v & Hv & Hvnn & Herr & Hex).
    { rewrite fexp_eq in *. lia. }
    split; [done|]. split; [done|]. rewrite Hv.
    replace (1 * v) with v by ring. split.
    + assert (bpow (fexp prec emax (Zdigits2 (Zpos m) + e)) <= bpow (fexp prec emax k))
        by (by apply bpow_le). lra.
    + intros Hm He. apply Hex. rewrite fexp_eq.
      assert (Zdigits2 (Zpos m) <= 53)%Z; [|lia].
      destruct (Z.le_gt_cases (Zdigits2 (Zpos m)) 53) as [|Hgt]; [done|].
      destruct (Zdigits2_bounds (Zpos m) ltac:(lia)) as [_ [Hlo _]].
      assert (2 ^ 53 <= 2 ^ (Zdigits2 (Zpos m) - 1))%Z by (apply Z.pow_le_mono_r; lia).
      lia.
  - assert (HMneg : IZR (Zneg m) = - IZR (Zpos m)) by (by rewrite <- opp_IZR).
    rewrite HMneg in *.
    replace (- IZR (Zpos m) * bpow e) with (- (IZR (Zpos m) * bpow e)) in * by ring.
    rewrite Rabs_Ropp in Hlt.
    rewrite Rabs_pos_eq in Hlt by (assert (0 < IZR (Zpos m)) by (by apply IZR_lt); nra).
    pose proof (digits_le_of_lt (Zpos m) e k ltac:(lia) Hlt) as Hdig.
    pose proof (fexp_mono _ _ Hdig) as Hfe.
    destruct (binary_round_error true m e) as (Hfin & Hvalid & v & Hv & Hvnn & Herr & Hex).
    { rewrite fexp_eq in *. lia. }
    split; [done|]. split; [done|]. rewrite Hv.
    replace (-1 * v - - (IZR (Zpos m) * bpow e)) with (- (v - IZR (Zpos m) * bpow e)) by ring.
    rewrite Rabs_Ropp. split.
    + assert (bpow (fexp prec emax (Zdigits2 (Zpos m) + e)) <= bpow (fexp prec emax k))
        by (by apply bpow_le). lra.
    + intros Hm He. rewrite Hex; [ring|]. rewrite fexp_eq.
      assert (Zdigits2 (Zpos m) <= 53)%Z; [|lia].
      destruct (Z.le_gt_cases (Zdigits2 (Zpos m)) 53) as [|Hgt]; [done|].
      destruct (Zdigits2_bounds (Zpos m) ltac:(lia)) as [_ [Hlo _]].
      assert (2 ^ 53 <= 2 ^ (Zdigits2 (Zpos m) - 1))%Z by (apply Z.pow_le_mono_r; lia).
      lia.
Qed.

Lemma SF2R_finite s m e :
  SF2R (S754_finite s m e) = IZR (cond_Zopp s (Zpos m)) * bpow e.
Proof.
  destruct s; simpl; [|ring].
  change (Zneg m) with (- Zpos m)%Z. rewrite opp_IZR. ring.
Qed.

Lemma aligned_value s m e ez :
  (ez <= e)%Z ->
  IZR (cond_Zopp s (Zpos (fst (shl_align m e ez)))) * bpow ez
  = SF2R (S754_finite s m e).
Proof.
  intros Hez. destruct (shl_align_spec m e ez) as [_ Hfst].
  rewrite Z.min_r in Hfst by lia. rewrite SF2R_finite.
  replace (bpow e) with (bpow ((e - ez) + ez)) by (f_equal; lia).
  rewrite bpow_add, (bpow_IZR (e - ez)) by lia.
  destruct s; simpl cond_Zopp; rewrite ?opp_IZR, Hfst, mult_IZR; simpl; ring.
Qed.

Lemma zero_error k : Rabs (0 - 0) <= bpow k / 2.
Proof. rewrite Rminus_diag, Rabs_R0. pose proof (bpow_pos k). lra. Qed.

Lemma self_error (v : R) k : Rabs (v - v) <= bpow k / 2.
Proof. rewrite Rminus_diag, Rabs_R0. pose proof (bpow_pos k). lra. Qed.

(** Addition and subtraction of finite numbers: the result is finite when
    the exact result is below the overflow threshold, and within half a
    unit in the last place of it. *)
Lemma SFadd_error (x y : spec_float) (k : Z) :
  SFfinite x = true -> SFfinite y = true ->
  Rabs (SF2R x + SF2R y) < bpow k -> (k <= 1023)%Z ->
  let z := SFadd prec emax x y in
  SFfinite z = true
  /\ Rabs (SF2R z - (SF2R x + SF2R y)) <= bpow (fexp prec emax k) / 2.
Proof.
  intros Hx Hy Hlt Hk z. subst z.
  destruct x as [sx|sx| |sx mx ex], y as [sy|sy| |sy my ey]; try done.
  - simpl SF2R. rewrite Rplus_0_r.
    destruct sx, sy; simpl; (split; [done|]); apply zero_error.
  - simpl SFadd. split; [done|]. simpl (SF2R (S754_zero _)). rewrite Rplus_0_l.
    apply self_error.
  - simpl SFadd. split; [done|]. simpl (SF2R (S754_zero _)). rewrite Rplus_0_r.
    apply self_error.
  - unfold SFadd.
    rewrite <- (aligned_value sx mx ex (Z.min ex ey)) in * by lia.
    rewrite <- (aligned_value sy my ey (Z.min ex ey)) in * by lia.
    rewrite <- Rmult_plus_distr_r, <- plus_IZR in *.
    destruct (binary_normalize_error _ _ _ Hlt Hk) as (Hfin & _ & Herr & _).
    done.
Qed.

Lemma SFsub_error (x y : spec_float) (k : Z) :
  SFfinite x = true -> SFfinite y = true ->
  Rabs (SF2R x - SF2R y) < bpow k -> (k <= 1023)%Z ->
  let z := SFsub prec emax x y in
  SFfinite z = true
  /\ Rabs (SF2R z - (SF2R x - SF2R y)) <= bpow (fexp prec emax k) / 2.
Proof.
  intros Hx Hy Hlt Hk z. subst z.
  destruct x as [sx|sx| |sx mx ex], y as [sy|sy| |sy my ey]; try done.
  - simpl SF2R. rewrite Rminus_0_r.
    destruct sx, sy; simpl; (split; [done|]); apply zero_error.
  - simpl SFsub. split; [done|]. simpl (SF2R (S754_zero _)). rewrite Rminus_0_l.
    replace (SF2R (S754_finite (negb sy) my ey)) with (- SF2R (S754_finite sy my ey))
      by (destruct sy; simpl; ring).
    apply self_error.
  - simpl SFsub. split; [done|]. simpl (SF2R (S754_zero _)). rewrite Rminus_0_r.
    apply self_error.
  - unfold SFsub.
    rewrite <- (aligned_value sx mx ex (Z.min ex ey)) in * by lia.
    rewrite <- (aligned_value sy my ey (Z.min ex ey)) in * by lia.
    rewrite <- Rmult_minus_distr_r, <- minus_IZR in *.
    destruct (binary_normalize_error _ _ _ Hlt Hk) as (Hfin & _ & Herr & _).
    done.
Qed.

Lemma Rabs_SF2R_finite s m e :
  Rabs (SF2R (S754_finite s m e)) = IZR (Zpos m) * bpow e.
Proof.
  pose proof (bpow_pos e). assert (0 < IZR (Zpos m)) by (by apply IZR_lt).
  simpl. destruct s.
  - replace (-1 * (IZR (Zpos m) * bpow e)) with (- (IZR (Zpos m) * bpow e)) by ring.
    rewrite Rabs_Ropp, Rabs_pos_eq; nra.
  - rewrite Rmult_1_l, Rabs_pos_eq; nra.
Qed.

Lemma SF2R_nonzero_finite x :
  SF2R x <> 0 -> exists s m e, x = S754_finite s m e.
Proof. destruct x; simpl; try done. eauto. Qed.

(** A number of the normal range has a full mantissa. *)
Lemma normal_digits s m e :
  valid_binary (S754_finite s m e) = true ->
  bpow (-1022) <= Rabs (SF2R (S754_finite s m e)) ->
  Zdigits2 (Zpos m) = 53%Z.
Proof.
  intros Hv Hn. destruct (valid_finite _ _ _ Hv) as (He & _ & Hd & Hnorm).
  rewrite Rabs_SF2R_finite in Hn.
  pose proof (digits_ge_of_le (Zpos m) e (-1022) ltac:(lia) Hn). lia.
Qed.

Lemma xorb_sign sx sy :
  (if xorb sx sy then -1 else 1)
  = (if sx then -1 else 1) * (if sy then -1 else 1).
Proof. destruct sx, sy; simpl; ring. Qed.

(** Multiplication of two numbers of the normal range whose product is in
    the normal range. *)
Lemma SFmul_error (x y : spec_float) :
  valid_binary x = true -> valid_binary y = true ->
  bpow (-1022) <= Rabs (SF2R x) -> bpow (-1022) <= Rabs (SF2R y) ->
  bpow (-1022) <= Rabs (SF2R x * SF2R y) -> Rabs (SF2R x * SF2R y) < bpow 1023 ->
  let z := SFmul prec emax x y in
  SFfinite z = true
  /\ Rabs (SF2R z - SF2R x * SF2R y) <= bpow (-53) * Rabs (SF2R x * SF2R y).
Proof.
  intros Hvx Hvy Hnx Hny Hlo Hhi z. subst z.
  pose proof (bpow_pos (-1022)) as Hp.
  destruct (SF2R_nonzero_finite x) as (sx & mx & ex & ->).
  { intros H0. rewrite H0, Rabs_R0 in Hnx. lra. }
  destruct (SF2R_nonzero_finite y) as (sy & my & ey & ->).
  { intros H0. rewrite H0, Rabs_R0 in Hny. lra. }
  pose proof (normal_digits _ _ _ Hvx Hnx) as Hdx.
  pose proof (normal_digits _ _ _ Hvy Hny) as Hdy.
  destruct (Zdigits2_bounds (Zpos mx) ltac:(lia)) as [_ Hbx].
  destruct (Zdigits2_bounds (Zpos my) ltac:(lia)) as [_ Hby].
  rewrite Hdx in Hbx. rewrite Hdy in Hby.
  rewrite Rabs_mult, !Rabs_SF2R_finite in Hlo, Hhi.
  set (N := Zpos (mx * my)).
  assert (HN : N = (Zpos mx * Zpos my)%Z) by done.
  assert (Hexact : IZR N / IZR 1 * bpow (ex + ey)
                   = IZR (Zpos mx) * bpow ex * (IZR (Zpos my) * bpow ey)).
  { rewrite HN, mult_IZR, bpow_add. field. }
  assert (HNlow : (2 ^ 104 <= N)%Z).
  { rewrite HN. change (2 ^ 104)%Z with (2 ^ (53 - 1) * 2 ^ (53 - 1))%Z. nia. }
  assert (Hdlow : (105 <= Zdigits2 N)%Z).
  { destruct (Z.le_gt_cases 105 (Zdigits2 N)) as [|Hlt]; [done|].
    destruct (Zdigits2_bounds N ltac:(lia)) as [_ [_ Hub]].
    assert (2 ^ Zdigits2 N <= 2 ^ 104)%Z by (apply Z.pow_le_mono_r; lia). lia. }
  assert (Hdhi : (Zdigits2 N + (ex + ey) <= 1023)%Z).
  { apply digits_le_of_lt; [lia|]. rewrite HN, mult_IZR, bpow_add. lra. }
  assert (Hdnorm : (-1022 < Zdigits2 N + (ex + ey))%Z).
  { apply digits_ge_of_le; [lia|]. rewrite HN, mult_IZR, bpow_add. lra. }
  unfold SFmul. fold N.
  pose proof (binary_round_aux_error (xorb sx sy) N 1 (ex + ey)
                ltac:(lia) ltac:(lia) ltac:(rewrite Z.div_1_r; lia)) as Haux.
  cbv zeta in Haux. rewrite Z.div_1_r, locate_1 in Haux.
  destruct Haux as (Hfin & _ & Hv & Hvnn & Herr & _);
    [rewrite fexp_eq; lia | rewrite fexp_eq; lia |].
  split; [done|].
  pose proof (half_ulp_relative N 1 (ex + ey) ltac:(lia) ltac:(lia)
                ltac:(rewrite Z.div_1_r; lia)) as Hrel.
  cbv zeta in Hrel. rewrite Z.div_1_r in Hrel. specialize (Hrel ltac:(lia)).
  rewrite Hexact in Herr, Hrel.
  rewrite Hv. rewrite Rabs_mult, !Rabs_SF2R_finite.
  simpl SF2R. rewrite xorb_sign.
  set (v := IZR (rnd N (2 ^ (fexp prec emax (Zdigits2 N + (ex + ey)) - (ex + ey)) * 1))
            * bpow (fexp prec emax (Zdigits2 N + (ex + ey)))) in *.
  set (a := IZR (Zpos mx) * bpow ex) in *. set (b := IZR (Zpos my) * bpow ey) in *.
  replace ((if sx then -1 else 1) * (if sy then -1 else 1) * v
           - (if sx then -1 else 1) * a * ((if sy then -1 else 1) * b))
    with ((if sx then -1 else 1) * (if sy then -1 else 1) * (v - a * b)) by ring.
  rewrite !Rabs_mult.
  assert (Hs : forall s : bool, Rabs (if s then -1 else 1) = 1).
  { intros []; [rewrite Rabs_left | rewrite Rabs_pos_eq]; lra. }
  rewrite !Hs. lra.
Qed.

Lemma new_location_locate N D :
  (0 <= N)%Z -> (0 < D)%Z -> new_location D (N mod D) = locate N D.
Proof.
  intros HN HD. pose proof (Z.mod_pos_bound N D HD) as HR.
  unfold new_location, new_location_even, new_location_odd, locate.
  destruct (Z.even D) eqn:Heven; cbv beta; [done|].
  destruct (N mod D =? 0)%Z eqn:HR0; [done|].
  f_equal.
  assert (Hodd : Z.odd D = true) by (by rewrite <- Z.negb_even, Heven).
  apply Z.odd_spec in Hodd as [h Hh].
  destruct (2 * (N mod D) + 1 ?= D)%Z eqn:Hc.
  - apply Z.compare_eq_iff in Hc. symmetry. apply Z.compare_lt_iff. lia.
  - pose proof (proj1 (Z.compare_lt_iff _ _) Hc). symmetry. apply Z.compare_lt_iff. lia.
  - pose proof (proj1 (Z.compare_gt_iff _ _) Hc). symmetry. apply Z.compare_gt_iff. lia.
Qed.

(** Division of two numbers of the normal range whose quotient is well
    inside the normal range. *)
Lemma SFdiv_error (x y : spec_float) :
  valid_binary x = true -> valid_binary y = true ->
  bpow (-1022) <= Rabs (SF2R x) -> bpow (-1022) <= Rabs (SF2R y) ->
  bpow (-1020) <= Rabs (SF2R x / SF2R y) -> Rabs (SF2R x / SF2R y) < bpow 1020 ->
  let z := SFdiv prec emax x y in
  SFfinite z = true
  /\ Rabs (SF2R z - SF2R x / SF2R y) <= bpow (-53) * Rabs (SF2R x / SF2R y).
Proof.
  intros Hvx Hvy Hnx Hny Hlo Hhi z. subst z.
  pose proof (bpow_pos (-1022)) as Hp.
  destruct (SF2R_nonzero_finite x) as (sx & mx & ex & ->).
  { intros H0. rewrite H0, Rabs_R0 in Hnx. lra. }
  destruct (SF2R_nonzero_finite y) as (sy & my & ey & ->).
  { intros H0. rewrite H0, Rabs_R0 in Hny. lra. }
  pose proof (normal_digits _ _ _ Hvx Hnx) as Hdx.
  pose proof (normal_digits _ _ _ Hvy Hny) as Hdy.
  destruct (Zdigits2_bounds (Zpos mx) ltac:(lia)) as [_ Hbx].
  destruct (Zdigits2_bounds (Zpos my) ltac:(lia)) as [_ Hby].
  rewrite Hdx in Hbx. rewrite Hdy in Hby.
  assert (Hmx : 0 < IZR (Zpos mx)) by (by apply IZR_lt).
  assert (Hmy : 0 < IZR (Zpos my)) by (by apply IZR_lt).
  pose proof (bpow_pos ex) as Hbex. pose proof (bpow_pos ey) as Hbey.
  assert (Habs : Rabs (SF2R (S754_finite sx mx ex) / SF2R (S754_finite sy my ey))
                 = IZR (Zpos mx) / IZR (Zpos my) * bpow (ex - ey)).
  { unfold Rdiv at 1. rewrite Rabs_mult, Rabs_inv, !Rabs_SF2R_finite.
    unfold Z.sub. rewrite bpow_add, bpow_opp. field. split; lra. }
  rewrite Habs in Hlo, Hhi.
  assert (Hratio : / 2 < IZR (Zpos mx) / IZR (Zpos my) < 2).
  { assert (IZR (2 ^ 52) <= IZR (Zpos mx) < IZR (2 ^ 53))
      by (split; [apply IZR_le | apply IZR_lt]; lia).
    assert (IZR (2 ^ 52) <= IZR (Zpos my) < IZR (2 ^ 53))
      by (split; [apply IZR_le | apply IZR_lt]; lia).
    change (2 ^ 53)%Z with (2 * 2 ^ 52)%Z in *. rewrite mult_IZR in *.
    assert (0 < IZR (2 ^ 52)) by (apply IZR_lt; lia).
    split.
    - apply (Rmult_lt_reg_r (IZR (Zpos my))); [lra|].
      unfold Rdiv. rewrite Rmult_assoc, Rinv_l by lra. lra.
    - apply (Rmult_lt_reg_r (IZR (Zpos my))); [lra|].
      unfold Rdiv. rewrite Rmult_assoc, Rinv_l by lra. lra. }
  assert (Hediff : (-1021 <= ex - ey <= 1020)%Z).
  { pose proof (bpow_pos (ex - ey)).
    destruct (Z.le_gt_cases (-1021) (ex - ey)) as [Hl|Hl];
      [|assert (bpow (ex - ey) <= bpow (-1022)) by (apply bpow_le; lia);
        assert (bpow (-1020) = 4 * bpow (-1022))
          by (replace (-1020)%Z with (2 + -1022)%Z by lia; rewrite bpow_add;
              unfold bpow at 1; simpl; ring);
        nra].
    destruct (Z.le_gt_cases (ex - ey) 1020) as [Hu|Hu];
      [lia|].
    assert (bpow 1021 <= bpow (ex - ey)) by (apply bpow_le; lia).
    assert (bpow 1021 = 2 * bpow 1020)
      by (replace 1021%Z with (1 + 1020)%Z by lia; rewrite bpow_add, bpow_1; ring).
    nra. }
  unfold SFdiv, SFdiv_core_binary.
  change (Zdigits2 (Zpos mx)) with (Zdigits2 (Zpos mx)). rewrite Hdx, Hdy.
  set (e' := Z.min (fexp prec emax (53 + ex - (53 + ey))) (ex - ey)).
  assert (He' : e' = (ex - ey - 53)%Z) by (subst e'; rewrite fexp_eq; lia).
  rewrite He'. replace (ex - ey - (ex - ey - 53))%Z with 53%Z by lia.
  cbv iota. rewrite Z.shiftl_mul_pow2 by lia.
  set (N := (Zpos mx * 2 ^ 53)%Z).
  assert (HNpos : (0 < N)%Z) by (subst N; lia).
  unfold Z.div_eucl at 1.
  pose proof (Z.div_eucl_eq N (Zpos my) ltac:(lia)) as Heucl.
  assert (Hqr : Z.div_eucl N (Zpos my) = (N / Zpos my, N mod Zpos my)%Z).
  { unfold Z.div, Z.modulo. by destruct (Z.div_eucl N (Zpos my)). }
  fold (Z.div_eucl N (Zpos my)). rewrite Hqr.
  rewrite new_location_locate by lia.
  assert (Hq : (2 ^ 52 <= N / Zpos my < 2 ^ 54)%Z).
  { split.
    - apply Z.div_le_lower_bound; [lia|]. subst N. nia.
    - apply Z.div_lt_upper_bound; [lia|]. subst N. nia. }
  assert (Hdq : (53 <= Zdigits2 (N / Zpos my) <= 54)%Z).
  { destruct (Zdigits2_bounds (N / Zpos my) ltac:(lia)) as [_ [Hl Hu]]. split.
    - destruct (Z.le_gt_cases 53 (Zdigits2 (N / Zpos my))) as [|Hlt]; [done|].
      assert (2 ^ Zdigits2 (N / Zpos my) <= 2 ^ 52)%Z by (apply Z.pow_le_mono_r; lia).
      lia.
    - destruct (Z.le_gt_cases (Zdigits2 (N / Zpos my)) 54) as [|Hgt]; [done|].
      assert (2 ^ 54 <= 2 ^ (Zdigits2 (N / Zpos my) - 1))%Z
        by (apply Z.pow_le_mono_r; lia).
      lia. }
  assert (Hexact : IZR N / IZR (Zpos my) * bpow (ex - ey - 53)
                   = IZR (Zpos mx) / IZR (Zpos my) * bpow (ex - ey)).
  { subst N. rewrite mult_IZR, <- bpow_IZR by lia.
    replace (bpow (ex - ey)) with (bpow (53 + (ex - ey - 53))) by (f_equal; lia).
    rewrite bpow_add. field. lra. }
  pose proof (binary_round_aux_error (xorb sx sy) N (Zpos my) (ex - ey - 53)
                ltac:(lia) ltac:(lia) ltac:(lia)) as Haux.
  cbv zeta in Haux.
  destruct Haux as (Hfin & _ & Hv & Hvnn & Herr & _);
    [rewrite fexp_eq; lia | rewrite fexp_eq; lia |].
  split; [done|].
  pose proof (half_ulp_relative N (Zpos my) (ex - ey - 53) ltac:(lia) ltac:(lia)
                ltac:(lia) ltac:(lia)) as Hrel.
  cbv zeta in Hrel. rewrite Hexact in Herr, Hrel.
  rewrite Hv. rewrite Habs.
  set (v := IZR (rnd N _) * bpow _) in *.
  set (q := IZR (Zpos mx) / IZR (Zpos my) * bpow (ex - ey)) in *.
  replace (SF2R (S754_finite sx mx ex) / SF2R (S754_finite sy my ey))
    with ((if xorb sx sy then -1 else 1) * q).
  2:{ subst q. simpl SF2R. rewrite xorb_sign. unfold Z.sub. rewrite bpow_add, bpow_opp.
      destruct sx, sy; field; split; lra. }
  rewrite <- Rmult_minus_distr_l, Rabs_mult.
  assert (Hs : forall s : bool, Rabs (if s then -1 else 1) = 1).
  { intros []; [rewrite Rabs_left | rewrite Rabs_pos_eq]; lra. }
  rewrite Hs. lra.
Qed.

(** ** Comparison *)

Lemma finite_exponent_lt m1 e1 m2 e2 :
  valid_binary (S754_finite false m1 e1) = true ->
  valid_binary (S754_finite false m2 e2) = true ->
  (e1 < e2)%Z ->
  IZR (Zpos m1) * bpow e1 < IZR (Zpos m2) * bpow e2.
Proof.
  intros Hv1 Hv2 Hlt.
  destruct (valid_finite _ _ _ Hv1) as (He1 & _ & Hd1 & _).
  destruct (valid_finite _ _ _ Hv2) as (He2 & _ & _ & Hn2).
  specialize (Hn2 ltac:(lia)).
  destruct (Zdigits2_bounds (Zpos m1) ltac:(lia)) as [_ [_ Hu1]].
  destruct (Zdigits2_bounds (Zpos m2) ltac:(lia)) as [_ [Hl2 _]].
  rewrite Hn2 in Hl2.
  assert (Hm1 : IZR (Zpos m1) < IZR (2 ^ 53)).
  { apply IZR_lt. assert (2 ^ Zdigits2 (Zpos m1) <= 2 ^ 53)%Z
      by (apply Z.pow_le_mono_r; lia). lia. }
  assert (Hm2 : IZR (2 ^ 52) <= IZR (Zpos m2)) by (apply IZR_le; lia).
  rewrite <- !bpow_IZR in * by lia.
  assert (bpow 53 * bpow e1 <= bpow 52 * bpow e2).
  { rewrite <- !bpow_add. apply bpow_le. lia. }
  pose proof (bpow_pos e1). pose proof (bpow_pos e2). nra.
Qed.

Lemma mantissa_lt (m1 m2 : positive) e :
  IZR (Zpos m1) * bpow e < IZR (Zpos m2) * bpow e -> (m1 < m2)%positive.
Proof.
  intros H. pose proof (bpow_pos e).
  assert (IZR (Zpos m1) < IZR (Zpos m2)) by nra.
  apply lt_IZR in H1. lia.
Qed.

(** A finite nonnegative number below a finite positive one compares
    [Lt]. *)
Lemma SFltb_of_lt (x : spec_float) (m2 : positive) (e2 : Z) :
  valid_binary x = true -> SFfinite x = true ->
  valid_binary (S754_finite false m2 e2) = true ->
  Rabs (SF2R x) < SF2R (S754_finite false m2 e2) ->
  SFltb (SFabs x) (S754_finite false m2 e2) = true.
Proof.
  intros Hvx Hfx Hvy Hlt.
  destruct x as [sx|sx| |sx m1 e1]; try done.
  rewrite Rabs_SF2R_finite in Hlt. simpl SF2R in Hlt. rewrite Rmult_1_l in Hlt.
  unfold SFltb. simpl.
  assert (Hv1 : valid_binary (S754_finite false m1 e1) = true) by done.
  destruct (e1 ?= e2)%Z eqn:Hc.
  - apply Z.compare_eq_iff in Hc. subst e2.
    apply mantissa_lt in Hlt.
    change (Pos.compare_cont Eq m1 m2) with (Pos.compare m1 m2).
    by rewrite (proj2 (Pos.compare_lt_iff _ _) Hlt).
  - done.
  - pose proof (proj1 (Z.compare_gt_iff _ _) Hc) as Hgt.
    pose proof (finite_exponent_lt _ _ _ _ Hvy Hv1 Hgt). lra.
Qed.


(** ** Primitive floats through their specification *)

Lemma add_error (f g : float) (k : Z) :
  is_finite f = true -> is_finite g = true ->
  Rabs (F2R f + F2R g) < bpow k -> (k <= 1023)%Z ->
  is_finite (f + g) = true
  /\ Rabs (F2R (f + g) - (F2R f + F2R g)) <= bpow (fexp prec emax k) / 2.
Proof.
  unfold is_finite, F2R. rewrite add_spec. intros. by apply SFadd_error.
Qed.

Lemma sub_error (f g : float) (k : Z) :
  is_finite f = true -> is_finite g = true ->
  Rabs (F2R f - F2R g) < bpow k -> (k <= 1023)%Z ->
  is_finite (f - g) = true
  /\ Rabs (F2R (f - g) - (F2R f - F2R g)) <= bpow (fexp prec emax k) / 2.
Proof.
  unfold is_finite, F2R. rewrite sub_spec. intros. by apply SFsub_error.
Qed.

Lemma mul_error (f g : float) :
  bpow (-1022) <= Rabs (F2R f) -> bpow (-1022) <= Rabs (F2R g) ->
  bpow (-1022) <= Rabs (F2R f * F2R g) -> Rabs (F2R f * F2R g) < bpow 1023 ->
  is_finite (f * g) = true
  /\ Rabs (F2R (f * g) - F2R f * F2R g) <= bpow (-53) * Rabs (F2R f * F2R g).
Proof.
  unfold is_finite, F2R. rewrite mul_spec. intros.
  apply SFmul_error; auto using Prim2SF_valid.
Qed.

Lemma div_error (f g : float) :
  bpow (-1022) <= Rabs (F2R f) -> bpow (-1022) <= Rabs (F2R g) ->
  bpow (-1020) <= Rabs (F2R f / F2R g) -> Rabs (F2R f / F2R g) < bpow 1020 ->
  is_finite (f / g) = true
  /\ Rabs (F2R (f / g) - F2R f / F2R g) <= bpow (-53) * Rabs (F2R f / F2R g).
Proof.
  unfold is_finite, F2R. rewrite div_spec. intros.
  apply SFdiv_error; auto using Prim2SF_valid.
Qed.

Lemma float_of_int_spec (z k : Z) :
  Rabs (IZR z) < bpow k -> (k <= 1023)%Z ->
  Prim2SF (float_of_int z) = binary_normalize prec emax z 0 false
  /\ is_finite (float_of_int z) = true
  /\ Rabs (F2R (float_of_int z) - IZR z) <= bpow (fexp prec emax k) / 2
  /\ ((Z.abs z < 2 ^ 53)%Z -> F2R (float_of_int z) = IZR z).
Proof.
  intros Hlt Hk.
  assert (Hlt' : Rabs (IZR z * bpow 0) < bpow k) by (by rewrite bpow_0, Rmult_1_r).
  destruct (binary_normalize_error z 0 k Hlt' Hk) as (Hfin & Hvalid & Herr & Hex).
  assert (Hspec : Prim2SF (float_of_int z) = binary_normalize prec emax z 0 false)
    by (by apply Prim2SF_SF2Prim).
  unfold is_finite, F2R. rewrite Hspec. rewrite bpow_0, Rmult_1_r in Herr, Hex.
  repeat (split; [done|]). intros Hz. apply Hex; [done | lia].
Qed.

(** The conversion of a positive integer: the error is relative. *)
Lemma float_of_int_pos (z : Z) :
  (1 <= z < 2 ^ 1000)%Z ->
  is_finite (float_of_int z) = true
  /\ Rabs (F2R (float_of_int z) - IZR z) <= bpow (-53) * IZR z.
Proof.
  intros Hz. destruct (Zdigits2_bounds z ltac:(lia)) as [Hd [Hlo Hhi]].
  set (d := Zdigits2 z) in *.
  assert (Hd1000 : (d <= 1000)%Z).
  { destruct (Z.le_gt_cases d 1000) as [|Hgt]; [done|].
    assert (2 ^ 1000 <= 2 ^ (d - 1))%Z by (apply Z.pow_le_mono_r; lia). lia. }
  assert (Hlt : Rabs (IZR z) < bpow d).
  { rewrite Rabs_pos_eq by (apply IZR_le; lia). rewrite bpow_IZR by lia.
    by apply IZR_lt. }
  destruct (float_of_int_spec z d Hlt ltac:(lia)) as (_ & Hfin & Herr & Hex).
  split; [done|].
  assert (Hzpos : 1 <= IZR z) by (apply IZR_le; lia).
  pose proof (bpow_pos (-53)).
  destruct (Z.le_gt_cases d 53) as [Hsmall | Hbig].
  - rewrite Hex.
    + rewrite Rminus_diag, Rabs_R0. nra.
    + assert (2 ^ d <= 2 ^ 53)%Z by (apply Z.pow_le_mono_r; lia). lia.
  - assert (Hfe : fexp prec emax d = (d - 53)%Z) by (rewrite fexp_eq; lia).
    rewrite Hfe in Herr.
    assert (bpow (d - 53) / 2 <= bpow (-53) * IZR z); [|lra].
    replace (d - 53)%Z with (-53 + (d - 1) + 1)%Z by lia.
    rewrite !bpow_add, bpow_1, (bpow_IZR (d - 1)) by lia.
    assert (IZR (2 ^ (d - 1)) <= IZR z) by (by apply IZR_le).
    nra.
Qed.

Lemma F2R_zero : F2R 0%float = 0.
Proof. done. Qed.

Lemma F2R_one : F2R 1%float = 1.
Proof.
  unfold F2R. change (Prim2SF 1) with (S754_finite false (2 ^ 52)%positive (-52)).
  unfold SF2R. change (-52)%Z with (Z.opp 52). rewrite bpow_opp, (bpow_IZR 52) by lia.
  change (Zpos (2 ^ 52)%positive) with (2 ^ 52)%Z.
  assert (0 < IZR (2 ^ 52)) by (apply IZR_lt; lia). field. lra.
Qed.

(** [Round] is within a half of its argument. *)
Lemma Round_error (f : float) : Rabs (IZR (Round f) - F2R f) <= / 2.
Proof.
  unfold Round, F2R.
  destruct (Prim2SF f) as [s|s| |s m e]; simpl SF2R;
    try (rewrite Rminus_diag, Rabs_R0; lra).
  cbv zeta.
  assert (Hgoal : forall a : Z,
            Rabs (IZR a - IZR (Zpos m) * bpow e) <= / 2 ->
            Rabs (IZR (if s then (- a)%Z else a)
                  - (if s then -1 else 1) * (IZR (Zpos m) * bpow e)) <= / 2).
  { intros a Ha. destruct s.
    - rewrite opp_IZR.
      replace (- IZR a - -1 * (IZR (Zpos m) * bpow e))
        with (- (IZR a - IZR (Zpos m) * bpow e)) by ring.
      by rewrite Rabs_Ropp.
    - by rewrite Rmult_1_l. }
  apply Hgoal. destruct (0 <=? e)%Z eqn:He.
  - apply Z.leb_le in He. rewrite mult_IZR, <- bpow_IZR by lia.
    rewrite Rminus_diag, Rabs_R0. lra.
  - apply Z.leb_gt in He.
    set (P := (2 ^ (- e))%Z).
    assert (HP : (0 < P)%Z) by (apply Z.pow_pos_nonneg; lia).
    assert (Hbe : bpow e = / IZR P).
    { replace e with (- (- e))%Z at 1 by lia. rewrite bpow_opp, bpow_IZR by lia. done. }
    rewrite Hbe.
    set (a := ((2 * Zpos m + P) / (2 * P))%Z).
    pose proof (Z.div_mod (2 * Zpos m + P) (2 * P) ltac:(lia)) as Hdm.
    pose proof (Z.mod_pos_bound (2 * Zpos m + P) (2 * P) ltac:(lia)) as Hmod.
    fold a in Hdm.
    assert (HPR : 0 < IZR P) by (by apply IZR_lt).
    assert (H1 : (- P <= 2 * (Zpos m - P * a) < P)%Z) by lia.
    assert (H2 : - IZR P <= 2 * (IZR (Zpos m) - IZR P * IZR a) < IZR P).
    { rewrite <- mult_IZR, <- minus_IZR, <- (mult_IZR 2), <- opp_IZR.
      split; [apply IZR_le | apply IZR_lt]; lia. }
    replace (IZR a - IZR (Zpos m) * / IZR P)
      with (- ((IZR (Zpos m) - IZR P * IZR a) * / IZR P)) by (field; lra).
    rewrite Rabs_Ropp, Rabs_mult, (Rabs_pos_eq (/ IZR P))
      by (apply Rlt_le, Rinv_0_lt_compat; lra).
    apply (Rmult_le_reg_r (IZR P)); [lra|].
    rewrite Rmult_assoc, Rinv_l, Rmult_1_r by lra.
    apply Rabs_le. lra.
Qed.

(** ** Numerical facts about the proportions *)

Lemma Rabs_le_inv (a b : R) : Rabs a <= b -> - b <= a <= b.
Proof. unfold Rabs. destruct (Rcase_abs a); lra. Qed.

Lemma bpow_neg_val (p : positive) : bpow (Zneg p) = / IZR (2 ^ Zpos p).
Proof. change (Zneg p) with (- Zpos p)%Z. rewrite bpow_opp, bpow_IZR by lia. done. Qed.

Lemma bpow_pos_val (p : positive) : bpow (Zpos p) = IZR (2 ^ Zpos p).
Proof. by rewrite bpow_IZR by lia. Qed.

Lemma epsilon_spec : Prim2SF epsilon = S754_finite false 7378697629483821 (-66).
Proof. reflexivity. Qed.


Lemma bpow_m53 : bpow (-53) = / 9007199254740992.
Proof. by rewrite bpow_neg_val. Qed.

(** A positive [int] converts to a float between 9/10 and 2^64. *)
Lemma float_of_int_range (z : Z) :
  (1 <= z < 2 ^ 63)%Z ->
  is_finite (float_of_int z) = true
  /\ Rabs (F2R (float_of_int z) - IZR z) <= bpow (-53) * IZR z
  /\ 9 / 10 <= F2R (float_of_int z) <= bpow 64.
Proof.
  intros Hz. destruct (float_of_int_pos z ltac:(lia)) as [Hfin Herr].
  split; [done|]. split; [done|].
  apply Rabs_le_inv in Herr. rewrite bpow_m53 in Herr. rewrite bpow_pos_val.
  assert (1 <= IZR z) by (apply IZR_le; lia).
  assert (IZR z <= IZR (2 ^ 63)) by (apply IZR_le; lia).
  change (2 ^ 63)%Z with 9223372036854775808%Z in *.
  change (2 ^ 64)%Z with 18446744073709551616%Z. lra.
Qed.

(** The quotient of a float in [2^-200, 2] by one in [9/10, 2^64]. *)
Lemma div_range (f g : float) :
  bpow (-200) <= F2R f <= 2 -> 9 / 10 <= F2R g <= bpow 64 ->
  is_finite (f / g) = true
  /\ Rabs (F2R (f / g) - F2R f / F2R g) <= bpow (-53) * (F2R f / F2R g)
  /\ bpow (-65) * F2R f <= F2R (f / g)%float <= 5 / 4 * F2R f.
Proof.
  intros [Hflo Hfhi] [Hglo Hghi].
  pose proof (bpow_pos (-200)) as H200.
  assert (Htiny : bpow (-1022) <= bpow (-200)) by (apply bpow_le; lia).
  assert (Htiny1 : bpow (-1022) <= bpow (-1)) by (apply bpow_le; lia).
  assert (Hm1 : bpow (-1) = / 2) by (by rewrite bpow_neg_val).
  assert (H64 : bpow 64 = 18446744073709551616) by (by rewrite bpow_pos_val).
  assert (Hm64 : bpow (-64) = / 18446744073709551616) by (by rewrite bpow_neg_val).
  assert (Hm65 : bpow (-65) = / 36893488147419103232) by (by rewrite bpow_neg_val).
  set (q := F2R f / F2R g).
  assert (Hqg : q * F2R g = F2R f) by (subst q; field; lra).
  assert (Hqpos : 0 < q).
  { subst q. apply Rdiv_lt_0_compat; lra. }
  assert (Hqhi : q <= 10 / 9 * F2R f) by nra.
  assert (Hqlo : bpow (-64) * F2R f <= q) by (rewrite Hm64; nra).
  assert (Hq1020 : bpow (-1020) <= q).
  { assert (bpow (-1020) <= bpow (-264)) by (apply bpow_le; lia).
    assert (bpow (-264) = bpow (-64) * bpow (-200)) by (by rewrite <- bpow_add).
    pose proof (bpow_pos (-64)). nra. }
  assert (Hq1020' : q < bpow 1020).
  { assert (bpow 2 <= bpow 1020) by (apply bpow_le; lia).
    assert (bpow 2 = 4) by (by rewrite bpow_pos_val). lra. }
  destruct (div_error f g) as [Hfin Herr].
  - rewrite Rabs_pos_eq; lra.
  - rewrite Rabs_pos_eq; lra.
  - fold q. rewrite Rabs_pos_eq; lra.
  - fold q. rewrite Rabs_pos_eq; lra.
  - fold q in Herr. rewrite (Rabs_pos_eq q) in Herr by lra.
    split; [done|]. split; [done|].
    apply Rabs_le_inv in Herr. rewrite bpow_m53 in Herr. rewrite Hm65.
    rewrite Hm64 in Hqlo. split; nra.
Qed.


Lemma Round_zero (f : float) :
  (exists s, Prim2SF f = S754_zero s) -> Round f = 0%Z.
Proof. intros [s Hs]. unfold Round. by rewrite Hs. Qed.

(** The width of each of [N] equal shares of a width [W] of at most 2^50
    pixels: [N] such widths add up to [W] within [N]. *)
Lemma equal_share_width (N W : Z) :
  (1 <= N < 2 ^ 63)%Z -> (Z.abs W <= 2 ^ 50)%Z ->
  (Z.abs (N * portion Round (fullPortion / float_of_int N)%float W - W) <= N)%Z.
Proof.
  intros HN HW. unfold portion.
  set (p := (fullPortion / float_of_int N)%float).
  destruct (float_of_int_range N HN) as (_ & Hn & Hnr).
  set (n := F2R (float_of_int N)) in *.
  pose proof (bpow_pos (-200)) as H200.
  assert (H200' : bpow (-200) <= bpow 0) by (apply bpow_le; lia).
  rewrite bpow_0 in H200'.
  destruct (div_range fullPortion (float_of_int N)) as (Hfp & Hp & Hpr);
    [unfold fullPortion; rewrite F2R_one; lra | done |].
  fold p in Hfp, Hp, Hpr. fold n in Hp.
  unfold fullPortion in Hp, Hpr. rewrite F2R_one in Hp, Hpr.
  set (pv := F2R p) in *.
  assert (Hm65 : bpow (-65) = / 36893488147419103232) by (by rewrite bpow_neg_val).
  assert (Hpvpos : 0 < pv) by (rewrite Hm65 in Hpr; lra).
  destruct (Z.eq_dec W 0%Z) as [-> | HW0].
  - (* nothing to share *)
    rewrite Round_zero; [lia|].
    change (float_of_int 0) with 0%float. rewrite mul_spec.
    destruct (SF2R_nonzero_finite (Prim2SF p)) as (sp & mp & ep & Hpf).
    { fold (F2R p). fold pv. lra. }
    rewrite Hpf. by eexists.
  - assert (HNr : 1 <= IZR N) by (apply IZR_le; lia).
    assert (HWabs : 1 <= Rabs (IZR W) <= 1125899906842624).
    { rewrite Rabs_Zabs. split; apply IZR_le; [lia|].
      change 1125899906842624%Z with (2 ^ 50)%Z. lia. }
    destruct (float_of_int_spec W 51) as (_ & HfW & _ & HexW); [| lia |].
    { rewrite bpow_pos_val. change (2 ^ 51)%Z with 2251799813685248%Z. lra. }
    specialize (HexW ltac:(lia)).
    destruct (mul_error (float_of_int W) p) as [Hfg Hg].
    + rewrite HexW. assert (bpow (-1022) <= bpow 0) by (apply bpow_le; lia).
      rewrite bpow_0 in H. lra.
    + fold pv. rewrite Rabs_pos_eq by lra.
      assert (bpow (-1022) <= bpow (-65)) by (apply bpow_le; lia). lra.
    + rewrite HexW. fold pv. rewrite Rabs_mult, (Rabs_pos_eq pv) by lra.
      assert (bpow (-1022) <= bpow (-65)) by (apply bpow_le; lia).
      pose proof (bpow_pos (-65)). nra.
    + rewrite HexW. fold pv. rewrite Rabs_mult, (Rabs_pos_eq pv) by lra.
      assert (bpow 52 <= bpow 1023) by (apply bpow_le; lia).
      assert (bpow 52 = 4503599627370496) by (by rewrite bpow_pos_val).
      nra.
    + rewrite HexW in Hg. fold pv in Hg.
      rewrite (Rabs_mult (IZR W) pv), (Rabs_pos_eq pv) in Hg by lra.
      set (g := F2R (float_of_int W * p)%float) in *.
      pose proof (Round_error (float_of_int W * p)%float) as HR. fold g in HR.
      set (r := Round (float_of_int W * p)%float) in *.
      rewrite bpow_m53 in *.
      set (u := / 9007199254740992) in *.
      assert (Hu : u = / 9007199254740992) by done.
      set (A := Rabs (IZR W)) in *.
      set (Nr := IZR N) in *.
      (* the proportion times N is 1 within 2.1 u *)
      assert (Hnpos : 0 < n) by lra.
      assert (Hqn : / n * n = 1) by (apply Rinv_l; lra).
      assert (Hpn : 1 - u <= pv * n <= 1 + u).
      { unfold Rdiv in Hp. rewrite Rmult_1_l in Hp. apply Rabs_le_inv in Hp.
        destruct Hp as [Hp1 Hp2].
        pose proof (Rmult_le_compat_r n _ _ (Rlt_le _ _ Hnpos) Hp1) as Hp1'.
        pose proof (Rmult_le_compat_r n _ _ (Rlt_le _ _ Hnpos) Hp2) as Hp2'.
        rewrite Hu in *. split; nra. }
      apply Rabs_le_inv in Hn. destruct Hn as [Hn1 Hn2].
      set (t := pv * Nr).
      assert (Ht1 : t * (1 - u) <= pv * n).
      { subst t. replace (pv * Nr * (1 - u)) with (pv * (Nr - u * Nr)) by ring.
        apply Rmult_le_compat_l; lra. }
      assert (Ht2 : pv * n <= t * (1 + u)).
      { subst t. replace (pv * Nr * (1 + u)) with (pv * (Nr + u * Nr)) by ring.
        apply Rmult_le_compat_l; lra. }
      assert (Ht : 1 - 21 / 10 * u <= t <= 1 + 21 / 10 * u) by (rewrite Hu in *; split; lra).
      (* the product times N is W within 0.4 *)
      assert (Htpos : 0 <= t) by (rewrite Hu in Ht; lra).
      assert (HE : Rabs ((g - IZR W * pv) * Nr) <= u * (1125899906842624 * (1 + 21 / 10 * u))).
      { rewrite Rabs_mult, (Rabs_pos_eq Nr) by lra.
        assert (Rabs (g - IZR W * pv) * Nr <= u * (A * pv) * Nr)
          by (apply Rmult_le_compat_r; lra).
        replace (u * (A * pv) * Nr) with (u * (A * t)) in H by (subst t; ring).
        assert (A * t <= 1125899906842624 * (1 + 21 / 10 * u)).
        { apply Rmult_le_compat; lra. }
        assert (0 < u) by (rewrite Hu; lra). nra. }
      assert (HD : Rabs (IZR W * (t - 1)) <= 1125899906842624 * (21 / 10 * u)).
      { rewrite Rabs_mult. fold A.
        assert (Rabs (t - 1) <= 21 / 10 * u) by (apply Rabs_le; lra).
        pose proof (Rabs_pos (t - 1)).
        apply Rmult_le_compat; lra. }
      assert (HgN : Rabs (g * Nr - IZR W) <= 2 / 5).
      { replace (g * Nr - IZR W)
          with ((g - IZR W * pv) * Nr + IZR W * (t - 1)) by (subst t; ring).
        eapply Rle_trans; [apply Rabs_triang|].
        rewrite Hu in HE, HD. lra. }
      apply le_IZR. rewrite abs_IZR, minus_IZR, mult_IZR. fold Nr.
      replace (Nr * IZR r - IZR W)
        with (Nr * (IZR r - g) + (g * Nr - IZR W)) by ring.
      eapply Rle_trans; [apply Rabs_triang|].
      rewrite Rabs_mult, (Rabs_pos_eq Nr) by lra.
      assert (Nr * Rabs (IZR r - g) <= Nr * / 2)
        by (apply Rmult_le_compat_l; lra).
      lra.
Qed.

End Binary64.

(** ** Insertion followed by removal *)

Lemma remove_loop_skip n t1 :
  forall t2 i arr len removed,
    (forall j c, (i <= j < i + t1)%nat -> arr !! j = Some c -> c <> n) ->
    (i + t1 <= length arr)%nat ->
    remove_loop n i (t1 + t2) arr len removed
    = remove_loop n (i + t1) t2 arr len removed.
Proof.
  induction t1 as [|t1 IH]; intros t2 i arr len removed Hne Hlen; simpl.
  - by rewrite Nat.add_0_r.
  - destruct (lookup_lt_is_Some_2 arr i ltac:(lia)) as [c Hc]. rewrite Hc.
    rewrite decide_False by (apply (Hne i); [lia | done]).
    rewrite IH; [f_equal; lia | | lia].
    intros j c' Hj. apply Hne. lia.
Qed.

(** When [n] is in the child sequence once, the loop of [removeNode] takes
    it out and keeps the other children in order. *)
Lemma remove_loop_once n pre post :
  n ∉ pre -> n ∉ post ->
  exists arr,
    remove_loop n 0 (length (pre ++ n :: post)) (pre ++ n :: post)
      (length (pre ++ n :: post)) false
    = Ok (arr, length (pre ++ post), true)
    /\ take (length (pre ++ post)) arr = pre ++ post.
Proof.
  intros Hpre Hpost.
  set (dl := drop (length (pre ++ n :: post) - 1) (pre ++ n :: post)).
  exists (pre ++ post ++ dl).
  assert (Hlen : length (pre ++ n :: post) = (length pre + S (length post))%nat)
    by (by rewrite length_app).
  assert (Hlen' : length (pre ++ post) = (length pre + length post)%nat)
    by (by rewrite length_app).
  split; [|rewrite app_assoc; by rewrite take_app_length].
  rewrite Hlen at 1.
  rewrite (remove_loop_skip n (length pre) (S (length post)) 0 (pre ++ n :: post));
    [| |lia].
  2:{ intros j c Hj Hc. rewrite lookup_app_l in Hc by lia.
      intros ->. apply Hpre. by eapply list_elem_of_lookup_2. }
  simpl. rewrite list_lookup_middle by done.
  rewrite decide_True by done. rewrite decide_True by lia.
  rewrite take_app_length.
  replace (drop (length pre + 1) (pre ++ n :: post)) with post.
  2:{ rewrite drop_app_ge by lia.
      replace (length pre + 1 - length pre)%nat with 1%nat by lia. done. }
  rewrite take_ge by lia. fold dl.
  replace (length (pre ++ n :: post) - 1)%nat with (length (pre ++ post)) by lia.
  pose proof (remove_loop_skip n (length post) 0 (S (length pre))
                (pre ++ post ++ dl) (length (pre ++ post)) true) as Hskip.
  rewrite Nat.add_0_r in Hskip. rewrite Hskip; [done | |].
  - intros j c Hj Hc.
    rewrite lookup_app_r in Hc by lia.
    assert (Hin : c ∈ post); [|intros ->; done].
    destruct (decide (j - length pre < length post)%nat) as [Hlt|Hge].
    + rewrite lookup_app_l in Hc by done. by eapply list_elem_of_lookup_2.
    + rewrite lookup_app_r in Hc by lia.
      subst dl. rewrite lookup_drop in Hc.
      rewrite lookup_app_r in Hc by lia.
      rewrite lookup_cons_ne_0 in Hc by lia.
      by eapply list_elem_of_lookup_2.
  - rewrite !length_app. subst dl. rewrite length_drop. lia.
Qed.

Lemma modify_other r f w u w' x :
  modify r f w = Ok (u, w') -> x <> r -> heap w' !! x = heap w !! x.
Proof.
  intros H Hx. apply modify_Ok in H as (o & Ho & ->). simpl.
  by rewrite lookup_insert_ne.
Qed.

Lemma modify_self r f w u w' :
  modify r f w = Ok (u, w') ->
  exists o, heap w !! r = Some o /\ heap w' !! r = Some (f o).
Proof.
  intros H. apply modify_Ok in H as (o & Ho & ->). simpl.
  exists o. by rewrite lookup_insert_eq.
Qed.

(** A [range] loop that passes every child's proportion through [g]. *)
Lemma range_map_props (g : proportion -> proportion) cs :
  forall w,
    NoDup cs -> (forall c, c ∈ cs -> is_Some (heap w !! c)) ->
    exists w',
      range cs (fun c => let* p := Proportion c in SetProportion c (g p)) w
      = Ok (tt, w')
      /\ calls w' = calls w
      /\ forall r, heap w' !! r
                   = if decide (r ∈ cs) then map_prop g <$> heap w !! r
                     else heap w !! r.
Proof.
  induction cs as [|c cs IH]; intros w Hnd Hall.
  - exists w. split; [done|]. split; [done|]. intros r.
    rewrite decide_False; [done | apply not_elem_of_nil].
  - apply NoDup_cons in Hnd as [Hc Hnd].
    destruct (Hall c ltac:(left)) as [o Ho].
    set (wc := mkWorld (<[c := map_prop g o]> (heap w)) (calls w)).
    assert (Hbody : (let* p := Proportion c in SetProportion c (g p)) w = Ok (tt, wc)).
    { unfold Proportion.
      unfold bind at 1. unfold bind at 1. rewrite (deref_lookup _ _ _ Ho).
      unfold ret. unfold SetProportion. by rewrite (modify_lookup _ _ _ _ Ho). }
    destruct (IH wc Hnd) as (w' & Hrun & Hcalls & Hheap).
    { intros c' Hc'. subst wc. simpl. rewrite lookup_insert_ne; [|by intros ->].
      apply Hall. by right. }
    exists w'. split; [|split; [done|]].
    + simpl. by rewrite (bind_Ok_l _ _ _ _ _ Hbody).
    + intros r. rewrite Hheap. subst wc. simpl.
      destruct (decide (r = c)) as [->|Hne].
      * rewrite decide_False by done. rewrite decide_True by left.
        by rewrite lookup_insert_eq, Ho.
      * rewrite lookup_insert_ne by done.
        destruct (decide (r ∈ cs)) as [Hin|Hin].
        -- by rewrite decide_True by (by right).
        -- rewrite decide_False; [done|]. rewrite elem_of_cons. tauto.
Qed.


Lemma obj_prop_set_prop p o : obj_prop (set_prop p o) = p.
Proof. by destruct o. Qed.

Lemma obj_prop_set_children cs o : obj_prop (set_children cs o) = obj_prop o.
Proof. by destruct o. Qed.

Lemma modify_prop_of r f w u w' :
  modify r f w = Ok (u, w') -> (forall o, obj_prop (f o) = obj_prop o) ->
  forall x, prop_of w' x = prop_of w x.
Proof.
  intros H Hf x. unfold prop_of. destruct (decide (x = r)) as [->|Hne].
  - destruct (modify_self _ _ _ _ _ H) as (o & Ho & Ho'). rewrite Ho, Ho'. simpl.
    by rewrite Hf.
  - by rewrite (modify_other _ _ _ _ _ x H).
Qed.

Lemma split_with_set_prop cs p o : split_with cs o -> split_with cs (set_prop p o).
Proof. intros (sp & [-> | ->] & Hcs); eexists; split; eauto. Qed.

Lemma split_with_set_children cs cs' o :
  split_with cs o -> split_with cs' (set_children cs' o).
Proof. intros (sp & [-> | ->] & Hcs); eexists; split; eauto. Qed.

Lemma split_with_children cs o : split_with cs o -> obj_children o = cs.
Proof. by intros (sp & [-> | ->] & Hcs). Qed.

Lemma split_with_deref cs s w o :
  heap w !! s = Some o -> split_with cs o ->
  exists sp, deref_split s w = Ok (sp, w) /\ split_children sp = cs.
Proof.
  intros Ho (sp & Hk & Hcs). exists sp. split; [|done].
  by eapply deref_split_lookup.
Qed.






(** ** Widths allotted by a horizontal split *)







(** ** Placement returns on a tree *)

Section PlacementReturns.

Variable Round : float -> Z.

Lemma leaves_allocated h fuel r ls :
  leaves h fuel r = Some ls -> exists o, h !! r = Some o.
Proof.
  destruct fuel as [|fuel]; [done|]. simpl.
  destruct (h !! r); [eauto | done].
Qed.

Lemma Proportion_lookup r w o :
  heap w !! r = Some o -> Proportion r w = Ok (obj_prop o, w).
Proof.
  intros Hr. unfold Proportion.
  by rewrite (bind_Ok_l _ _ _ _ _ (deref_lookup _ _ _ Hr)).
Qed.

(** On a tree (the leaves below [r] are reached within [fuel]),
    [ValidDims] returns. *)
Lemma ValidDims_returns (h : gmap ref object) (fuel : nat) :
  forall r ls wd ht minw minh maxw maxh w,
    leaves h fuel r = Some ls -> heap w = h ->
    exists b, ValidDims Round fuel r wd ht minw minh maxw maxh w = Ok (b, w).
Proof.
  induction fuel as [|fuel IH]; intros r ls wd ht minw minh maxw maxh w Hls Hw;
    [done|].
  simpl in Hls. cbn [ValidDims].
  destruct (h !! r) as [o|] eqn:Hr; [|done].
  rewrite <- Hw in Hr. rewrite (bind_Ok_l _ _ _ _ _ (deref_lookup _ _ _ Hr)).
  destruct o as [s|s|l]; [| |by eexists].
  - revert ls Hls. induction (split_children s) as [|c cs IHcs]; intros ls Hls;
      [by eexists|].
    simpl in Hls. cbn [range_all].
    destruct (leaves h fuel c) as [lc|] eqn:Hc; [|done].
    destruct (all_leaves (leaves h fuel) cs) as [lcs|] eqn:Hcs; [|done].
    destruct (leaves_allocated _ _ _ _ Hc) as [oc Hoc]. rewrite <- Hw in Hoc.
    unfold bind at 1. rewrite (bind_Ok_l _ _ _ _ _ (Proportion_lookup _ _ _ Hoc)).
    destruct (IH c lc (portion Round (obj_prop oc) wd) ht minw minh maxw maxh w Hc Hw)
      as [b ->].
    destruct b; [by eapply IHcs | by eexists].
  - revert ls Hls. induction (split_children s) as [|c cs IHcs]; intros ls Hls;
      [by eexists|].
    simpl in Hls. cbn [range_all].
    destruct (leaves h fuel c) as [lc|] eqn:Hc; [|done].
    destruct (all_leaves (leaves h fuel) cs) as [lcs|] eqn:Hcs; [|done].
    destruct (leaves_allocated _ _ _ _ Hc) as [oc Hoc]. rewrite <- Hw in Hoc.
    unfold bind at 1. rewrite (bind_Ok_l _ _ _ _ _ (Proportion_lookup _ _ _ Hoc)).
    destruct (IH c lc wd (portion Round (obj_prop oc) ht) minw minh maxw maxh w Hc Hw)
      as [b ->].
    destruct b; [by eapply IHcs | by eexists].
Qed.

(** On a tree, [MoveResize] returns, and the nodes are as they were. *)
Lemma MoveResize_returns (h : gmap ref object) (fuel : nat) :
  forall r ls x y wd ht w,
    leaves h fuel r = Some ls -> heap w = h ->
    exists w', MoveResize Round fuel r x y wd ht w = Ok (tt, w') /\ heap w' = h.
Proof.
  induction fuel as [|fuel IH]; intros r ls x y wd ht w Hls Hw; [done|].
  simpl in Hls. cbn [MoveResize].
  destruct (h !! r) as [o|] eqn:Hr; [|done].
  rewrite <- Hw in Hr. rewrite (bind_Ok_l _ _ _ _ _ (deref_lookup _ _ _ Hr)).
  destruct o as [s|s|l].
  - assert (Hloop : exists a w',
        range_fold (split_children s) (fun nextx child =>
          let* p := Proportion child in
          let w0 := portion Round p wd in
          MoveResize Round fuel child nextx y w0 ht ;;
          ret (wrap64 (nextx + w0))) x w = Ok (a, w') /\ heap w' = h).
    { clear Hr. revert ls Hls x w Hw.
      induction (split_children s) as [|c cs IHcs]; intros ls Hls x w Hw;
        [by do 2 eexists|].
      simpl in Hls. cbn [range_fold].
      destruct (leaves h fuel c) as [lc|] eqn:Hc; [|done].
      destruct (all_leaves (leaves h fuel) cs) as [lcs|] eqn:Hcs; [|done].
      destruct (leaves_allocated _ _ _ _ Hc) as [oc Hoc]. rewrite <- Hw in Hoc.
      unfold bind at 1. rewrite (bind_Ok_l _ _ _ _ _ (Proportion_lookup _ _ _ Hoc)).
      cbv zeta.
      destruct (IH c lc x y (portion Round (obj_prop oc) wd) ht w Hc Hw)
        as (w1 & Hrun & Hw1).
      rewrite (bind_Ok_l _ _ _ _ _ Hrun). unfold ret at 1.
      by eapply IHcs. }
    destruct Hloop as (a & w' & Hrun & Hw').
    rewrite (bind_Ok_l _ _ _ _ _ Hrun). by exists w'.
  - assert (Hloop : exists a w',
        range_fold (split_children s) (fun nexty child =>
          let* p := Proportion child in
          let h0 := portion Round p ht in
          MoveResize Round fuel child x nexty wd h0 ;;
          ret (wrap64 (nexty + h0))) y w = Ok (a, w') /\ heap w' = h).
    { clear Hr. revert ls Hls y w Hw.
      induction (split_children s) as [|c cs IHcs]; intros ls Hls y w Hw;
        [by do 2 eexists|].
      simpl in Hls. cbn [range_fold].
      destruct (leaves h fuel c) as [lc|] eqn:Hc; [|done].
      destruct (all_leaves (leaves h fuel) cs) as [lcs|] eqn:Hcs; [|done].
      destruct (leaves_allocated _ _ _ _ Hc) as [oc Hoc]. rewrite <- Hw in Hoc.
      unfold bind at 1. rewrite (bind_Ok_l _ _ _ _ _ (Proportion_lookup _ _ _ Hoc)).
      cbv zeta.
      destruct (IH c lc x y wd (portion Round (obj_prop oc) ht) w Hc Hw)
        as (w1 & Hrun & Hw1).
      rewrite (bind_Ok_l _ _ _ _ _ Hrun). unfold ret at 1.
      by eapply IHcs. }
    destruct Hloop as (a & w' & Hrun & Hw').
    rewrite (bind_Ok_l _ _ _ _ _ Hrun). by exists w'.
  - eexists. split; [reflexivity|]. by rewrite <- Hw.
Qed.

(** [place] returns on every tree: with no child at once, and otherwise
    as soon as the recursion bound reaches the leaves. *)
Lemma place_returns (fuel : nat) (t : tree) (geom : Rect) (w : world) :
  (child t = None
   \/ exists r ls, child t = Some r /\ leaves (heap w) fuel r = Some ls) ->
  exists w', place Round fuel t geom w = Ok (tt, w') /\ heap w' = heap w.
Proof.
  intros [Ht | (r & ls & Ht & Hls)]; unfold place; rewrite Ht; [by exists w|].
  destruct (ValidDims_returns _ fuel r ls (Width geom) (Height geom) 1 1
              (Width geom) (Height geom) w Hls eq_refl) as [b Hv].
  rewrite (bind_Ok_l _ _ _ _ _ Hv). destruct b; simpl.
  - by eapply MoveResize_returns.
  - by exists w.
Qed.

End PlacementReturns.

(** * Further properties *)

(** ** Insertion, removal and the check *)

#[local] Instance same_but_props_preorder : PreOrder same_but_props.
Proof.
  split.
  - by intros w.
  - intros w1 w2 w3 [Hc1 H1] [Hc2 H2]. split; [congruence|].
    intros r. by rewrite H2, H1.
Qed.

Lemma set_prop_set_prop p q o : set_prop p (set_prop q o) = set_prop p o.
Proof. by destruct o. Qed.

Lemma SetProportion_same_but_props n p : preserves same_but_props (SetProportion n p).
Proof.
  intros w u w' H. apply modify_Ok in H as (o & Ho & ->). split; [done|].
  intros r. simpl. destruct (decide (r = n)) as [->|Hne].
  - rewrite lookup_insert_eq, Ho. simpl. by rewrite set_prop_set_prop.
  - by rewrite lookup_insert_ne.
Qed.

Lemma same_but_props_children w w' r :
  same_but_props w w' -> children_of w' r = children_of w r.
Proof.
  intros [_ H]. specialize (H r). unfold children_of.
  destruct (heap w' !! r) as [[]|], (heap w !! r) as [[]|]; simpl in *; congruence.
Qed.

Lemma same_but_props_parent w w' r :
  same_but_props w w' -> parent_of w' r = parent_of w r.
Proof.
  intros [_ H]. specialize (H r). unfold parent_of.
  destruct (heap w' !! r) as [[]|], (heap w !! r) as [[]|]; simpl in *; congruence.
Qed.

Lemma same_but_props_split w w' r o cs :
  same_but_props w w' -> heap w !! r = Some o -> split_with cs o ->
  exists o', heap w' !! r = Some o' /\ split_with cs o'.
Proof.
  intros [_ H] Ho (sp & Hk & Hcs). specialize (H r). rewrite Ho in H.
  destruct (heap w' !! r) as [o'|]; [|done]. exists o'. split; [done|].
  simpl in H. destruct Hk as [-> | ->], o' as [sp'|sp'|l']; simpl in H; try done;
    exists sp'; (split; [eauto | congruence]).
Qed.

Lemma prop_loop_same_but_props (g : proportion -> proportion) cs :
  preserves same_but_props
    (range cs (fun child => let* p := Proportion child in SetProportion child (g p))).
Proof.
  apply preserves_range; [tc_solve|]. intros c.
  apply preserves_bind; [tc_solve | apply preserves_Proportion; tc_solve |].
  intros p. apply SetProportion_same_but_props.
Qed.

Lemma prop_loop_others (g : proportion -> proportion) cs :
  forall w u w',
    range cs (fun child => let* p := Proportion child in SetProportion child (g p)) w
    = Ok (u, w') ->
    forall r, r ∉ cs -> heap w' !! r = heap w !! r.
Proof.
  induction cs as [|c cs IH]; intros w u w' H r Hr; simpl in H.
  - by injection H as _ <-.
  - apply bind_Ok in H as (? & w1 & H1 & H2).
    apply bind_Ok in H1 as (p & w0 & Hp & H1).
    apply bind_Ok in Hp as (o & w0' & Hd & [= <- <-]).
    apply deref_Ok in Hd as [-> _].
    apply not_elem_of_cons in Hr as [Hrc Hr].
    rewrite (IH _ _ _ H2 r Hr). by apply (modify_other _ _ _ _ _ r H1).
Qed.

(** X1.  When [addNode(n, last)] returns, the container's children are the
    earlier ones in their order, with [n] after them if [last] and before
    them otherwise; the proportion of [n] is exactly
    [1.0 / float64(len + 1)]; every other node has the child sequence it
    had, and the call log is unchanged. *)
Theorem addNode_inserts (s n : ref) (last : bool) (w w' : world) (sp : split)
    (Hs : deref_split s w = Ok (sp, w))
    (Hadd : addNode s n last w = Ok (tt, w')) :
  children_of w' s
  = (if last then split_children sp ++ [n] else n :: split_children sp)
  /\ prop_of w' n
     = Some (fullPortion
             / float_of_int (Z.of_nat (length (split_children sp)) + 1))%float
  /\ (forall r, r <> s -> children_of w' r = children_of w r)
  /\ calls w' = calls w.
Proof.
  destruct (deref_split_Ok _ _ _ _ Hs) as (_ & o0 & Ho0 & _ & Hk0).
  assert (Hsplit0 : split_with (split_children sp) o0) by (by exists sp).
  unfold addNode in Hadd. rewrite (bind_Ok_l _ _ _ _ _ Hs) in Hadd.
  cbv zeta in Hadd.
  apply bind_Ok in Hadd as ([] & wa & Hloop & Hadd).
  apply bind_Ok in Hadd as ([] & wb & Hsetn & Hadd).
  apply bind_Ok in Hadd as ([] & wc & Hmod & Hadd).
  apply checkPortions_Ok in Hadd as [-> _].
  assert (Ha : same_but_props w wa).
  { destruct (0 <? _)%nat.
    - by eapply (prop_loop_same_but_props (fun p => (p - _)%float)).
    - injection Hloop as <-. reflexivity. }
  assert (Hb : same_but_props w wb).
  { etransitivity; [exact Ha|]. by eapply SetProportion_same_but_props. }
  destruct (same_but_props_split _ _ _ _ _ Hb Ho0 Hsplit0) as (ob & Hob & Hsplitb).
  destruct (modify_self _ _ _ _ _ Hmod) as (ob' & Hob' & Hoc).
  assert (ob' = ob) as -> by congruence.
  rewrite (split_with_children _ _ Hsplitb) in Hoc.
  split; [|split; [|split]].
  - unfold children_of. rewrite Hoc. apply split_with_children.
    by eapply split_with_set_children.
  - rewrite (modify_prop_of _ _ _ _ _ Hmod) by (intros; apply obj_prop_set_children).
    unfold prop_of. destruct (modify_self _ _ _ _ _ Hsetn) as (on & Hon & Hon').
    rewrite Hon'. simpl. by rewrite obj_prop_set_prop.
  - intros r Hr. unfold children_of. rewrite (modify_other _ _ _ _ _ r Hmod Hr).
    by apply same_but_props_children.
  - apply modify_Ok in Hmod as (? & _ & ->). simpl. apply Hb.
Qed.

Lemma addNode_inserts_witness :
  children_of world3 0%nat = [3%nat; 1%nat; 2%nat]
  /\ prop_of world3 3%nat = Some (fullPortion / float_of_int (Z.of_nat 2 + 1))%float
  /\ (forall r, r <> 0%nat -> children_of world3 r = children_of world2 r)
  /\ calls world3 = calls world2.
Proof.
  apply (addNode_inserts 0%nat 3%nat false world2 world3
           (mkSplit None [1%nat; 2%nat] 0%float)); vm_compute; reflexivity.
Defined.

(** What a run of [removeNode] that returns goes through. *)
Lemma removeNode_steps s n w w' sp :
  deref_split s w = Ok (sp, w) -> removeNode s n w = Ok (tt, w') ->
  exists arr len w3,
    remove_loop n 0 (length (split_children sp)) (split_children sp)
      (length (split_children sp)) false = Ok (arr, len, true)
    /\ modify s (set_children (take len arr)) w = Ok (tt, w3)
    /\ same_but_props w3 w'
    /\ forall r, r ∉ take len arr -> heap w' !! r = heap w3 !! r.
Proof.
  intros Hs Hrem. unfold removeNode in Hrem.
  rewrite (bind_Ok_l _ _ _ _ _ Hs) in Hrem. cbv zeta in Hrem.
  destruct (remove_loop _ _ _ _ _ _) as [[[arr len] removed]| |]; [|done..].
  apply bind_Ok in Hrem as ([] & w3 & Hmod & Hrem).
  destruct removed; [|done]. simpl negb in Hrem. cbv iota in Hrem.
  exists arr, len, w3. split; [done|]. split; [done|].
  destruct (0 <? len)%nat.
  - apply bind_Ok in Hrem as (pn & w3' & Hp & Hrem).
    apply bind_Ok in Hp as (on & w3'' & Hd & [= <- <-]).
    apply deref_Ok in Hd as [-> _].
    apply bind_Ok in Hrem as ([] & w4 & Hrange & Hrem).
    apply checkPortions_Ok in Hrem as [-> _]. split.
    + by eapply (prop_loop_same_but_props (fun p => (p + _)%float)).
    + by eapply (prop_loop_others (fun p => (p + _)%float)).
  - injection Hrem as <-. split; [reflexivity | done].
Qed.

(** X2.  [removeNode] panics when the node is not among the container's
    children. *)
Theorem removeNode_absent_panics (s n : ref) (w : world) (sp : split)
    (Hs : deref_split s w = Ok (sp, w))
    (Hn : n ∉ split_children sp) :
  removeNode s n w = Panic.
Proof.
  destruct (deref_split_Ok _ _ _ _ Hs) as (_ & o & Ho & _ & _).
  unfold removeNode. rewrite (bind_Ok_l _ _ _ _ _ Hs). cbv zeta.
  pose proof (remove_loop_skip n (length (split_children sp)) 0 0
                (split_children sp) (length (split_children sp)) false) as Hskip.
  rewrite Nat.add_0_r in Hskip. rewrite Hskip; [|intros j c _ Hc ->|simpl; lia].
  - simpl. by rewrite (bind_Ok_l _ _ _ _ _ (modify_lookup _ _ _ _ Ho)).
  - apply Hn. by eapply list_elem_of_lookup_2.
Qed.

Lemma removeNode_absent_panics_witness : removeNode 0%nat 2%nat world1 = Panic.
Proof.
  apply (removeNode_absent_panics 0%nat 2%nat world1 (mkSplit None [1%nat] 0%float)).
  - vm_compute. reflexivity.
  - compute_done.
Defined.

(** X3.  When [removeNode] returns after removing a node that occurred once
    among the children, the container holds the other children in their
    earlier order, every other node has the child sequence it had, and the
    removed node keeps its proportion. *)
Theorem removeNode_keeps_order (s n : ref) (w w' : world) (sp : split)
    (pre post : list ref)
    (Hs : deref_split s w = Ok (sp, w))
    (Hcs : split_children sp = pre ++ n :: post)
    (Hpre : n ∉ pre) (Hpost : n ∉ post)
    (Hrem : removeNode s n w = Ok (tt, w')) :
  children_of w' s = pre ++ post
  /\ (forall r, r <> s -> children_of w' r = children_of w r)
  /\ prop_of w' n = prop_of w n.
Proof.
  destruct (deref_split_Ok _ _ _ _ Hs) as (_ & o & Ho & _ & Hk).
  assert (Hsplit : split_with (split_children sp) o) by (by exists sp).
  destruct (removeNode_steps _ _ _ _ _ Hs Hrem)
    as (arr & len & w3 & Hloop & Hmod & Hsame & Hothers).
  rewrite Hcs in Hloop.
  destruct (remove_loop_once n pre post Hpre Hpost) as (arr' & Hrun & Htake).
  rewrite Hrun in Hloop. injection Hloop as -> <-.
  rewrite Htake in Hmod, Hothers.
  destruct (modify_self _ _ _ _ _ Hmod) as (o' & Ho' & Ho3).
  assert (o' = o) as -> by congruence.
  split; [|split].
  - rewrite (same_but_props_children _ _ _ Hsame). unfold children_of. rewrite Ho3.
    apply split_with_children. by eapply split_with_set_children.
  - intros r Hr. rewrite (same_but_props_children _ _ _ Hsame). unfold children_of.
    by rewrite (modify_other _ _ _ _ _ r Hmod Hr).
  - transitivity (prop_of w3 n).
    + unfold prop_of. rewrite Hothers; [done|].
      rewrite elem_of_app. tauto.
    + apply (modify_prop_of _ _ _ _ _ Hmod). intros. apply obj_prop_set_children.
Qed.

Lemma removeNode_keeps_order_witness :
  children_of (after (removeNode 0%nat 1%nat) world3) 0%nat = [3%nat] ++ [2%nat]
  /\ (forall r, r <> 0%nat ->
        children_of (after (removeNode 0%nat 1%nat) world3) r = children_of world3 r)
  /\ prop_of (after (removeNode 0%nat 1%nat) world3) 1%nat = prop_of world3 1%nat.
Proof.
  apply (removeNode_keeps_order 0%nat 1%nat world3 _
           (mkSplit None [3%nat; 1%nat; 2%nat] 0%float) [3%nat] [2%nat]).
  - vm_compute. reflexivity.
  - reflexivity.
  - compute_done.
  - compute_done.
  - vm_compute. reflexivity.
Defined.

(** X4.  [removeNode] writes no parent link and issues no call to a client:
    after it returns, every node, the removed one included, has the parent
    link it had, and the call log is unchanged. *)
Theorem removeNode_keeps_parent_links (s n : ref) (w w' : world)
    (Hrem : removeNode s n w = Ok (tt, w')) :
  (forall r, parent_of w' r = parent_of w r) /\ calls w' = calls w.
Proof.
  assert (exists sp, deref_split s w = Ok (sp, w)) as [sp Hs].
  { unfold removeNode in Hrem. apply bind_Ok in Hrem as (sp & w0 & Hs & _).
    destruct (deref_split_Ok _ _ _ _ Hs) as [-> _]. eauto. }
  destruct (removeNode_steps _ _ _ _ _ Hs Hrem)
    as (arr & len & w3 & _ & Hmod & Hsame & _).
  split.
  - intros r. rewrite (same_but_props_parent _ _ _ Hsame).
    assert (Hp : same_parents w w3)
      by (eapply modify_same_parents; [|exact Hmod]; by intros []).
    apply Hp.
  - destruct Hsame as [-> _]. by apply modify_Ok in Hmod as (? & _ & ->).
Qed.

Lemma removeNode_keeps_parent_links_witness :
  (forall r, parent_of (after (removeNode 0%nat 1%nat) world3) r = parent_of world3 r)
  /\ calls (after (removeNode 0%nat 1%nat) world3) = calls world3.
Proof.
  apply (removeNode_keeps_parent_links 0%nat 1%nat world3).
  vm_compute. reflexivity.
Defined.

Lemma set_children_restore cs o :
  split_with [] o -> set_children [] (set_children cs o) = o.
Proof. intros (sp & [-> | ->] & Hcs); destruct sp; simpl in *; by subst. Qed.

(** The world [addNode] returns in when the container is empty. *)
Lemma addNode_empty_world s n last w sp o :
  deref_split s w = Ok (sp, w) -> split_children sp = [] ->
  heap w !! n = Some o ->
  exists o1,
    <[n := set_prop 1%float o]> (heap w) !! s = Some o1
    /\ split_with [] o1
    /\ addNode s n last w
       = Ok (tt, mkWorld (<[s := set_children [n] o1]>
                            (<[n := set_prop 1%float o]> (heap w))) (calls w)).
Proof.
  intros Hs Hempty Hn.
  destruct (deref_split_Ok _ _ _ _ Hs) as (_ & os & Hos & Hcs & Hkind).
  assert (Hsplit : split_with [] os) by (by exists sp).
  assert (exists o1, <[n := set_prop 1%float o]> (heap w) !! s = Some o1
                     /\ split_with [] o1 /\ (s = n -> obj_prop o1 = 1%float))
    as (o1 & Ho1 & Hsplit1 & Hp1).
  { destruct (decide (s = n)) as [->|Hne].
    - rewrite lookup_insert_eq. assert (o = os) as -> by congruence.
      eexists. split; [done|]. split; [by apply split_with_set_prop|].
      intros _. apply obj_prop_set_prop.
    - rewrite lookup_insert_ne by done. exists os.
      split; [done|]. split; [done|]. intros ?. contradiction. }
  exists o1. split; [done|]. split; [done|].
  unfold addNode. rewrite (bind_Ok_l _ _ _ _ _ Hs). rewrite Hempty. simpl length.
  change (0 <? 0)%nat with false. rewrite newProp_first.
  unfold bind at 1. unfold ret at 1.
  unfold SetProportion. rewrite (bind_Ok_l _ _ _ _ _ (modify_lookup _ _ _ _ Hn)).
  set (w1 := mkWorld (<[n := set_prop 1%float o]> (heap w)) (calls w)).
  assert (Ho1' : heap w1 !! s = Some o1) by done.
  rewrite (bind_Ok_l _ _ _ _ _ (modify_lookup _ _ _ _ Ho1')).
  rewrite (split_with_children _ _ Hsplit1).
  assert ((if last then [] ++ [n] else [n]) = [n]) as -> by (by destruct last).
  set (w2 := mkWorld (<[s := set_children [n] o1]> (heap w1)) (calls w1)).
  assert (Hs2 : heap w2 !! s = Some (set_children [n] o1))
    by (subst w2; simpl; by rewrite lookup_insert_eq).
  destruct (split_with_deref [n] s w2 _ Hs2) as (sp2 & Hs2' & Hc2);
    [by eapply split_with_set_children|].
  assert (Hn2 : exists o2, heap w2 !! n = Some o2 /\ obj_prop o2 = 1%float).
  { destruct (decide (s = n)) as [->|Hne].
    - rewrite Hs2. eexists. split; [done|].
      rewrite obj_prop_set_children. by apply Hp1.
    - subst w2 w1. simpl. rewrite lookup_insert_ne by done.
      rewrite lookup_insert_eq. eexists. split; [done|]. apply obj_prop_set_prop. }
  destruct Hn2 as (o2 & Ho2 & Hp2).
  unfold checkPortions. rewrite (bind_Ok_l _ _ _ _ _ Hs2'). rewrite Hc2. simpl.
  unfold bind, ret, Proportion, bind, deref. rewrite Ho2, Hp2.
  unfold ret. by rewrite sum_first.
Qed.

(** X5.  On a container without children, [addNode] and then [removeNode] of
    the same node both return, and the world they end in is the initial one
    except that the node's proportion is 1.0. *)
Theorem addNode_removeNode_empty (s n : ref) (last : bool) (w : world)
    (sp : split) (o : object)
    (Hs : deref_split s w = Ok (sp, w))
    (Hempty : split_children sp = [])
    (Hn : heap w !! n = Some o) :
  exists w1,
    addNode s n last w = Ok (tt, w1)
    /\ removeNode s n w1
       = Ok (tt, mkWorld (<[n := set_prop 1%float o]> (heap w)) (calls w)).
Proof.
  destruct (addNode_empty_world s n last w sp o Hs Hempty Hn)
    as (o1 & Ho1 & Hsplit1 & Hadd).
  eexists. split; [exact Hadd|].
  set (h1 := <[n := set_prop 1%float o]> (heap w)) in *.
  set (w1 := mkWorld (<[s := set_children [n] o1]> h1) (calls w)).
  assert (Hs1 : heap w1 !! s = Some (set_children [n] o1))
    by (subst w1; simpl; by rewrite lookup_insert_eq).
  destruct (split_with_deref [n] s w1 _ Hs1) as (sp1 & Hs1' & Hc1);
    [by eapply split_with_set_children|].
  unfold removeNode. rewrite (bind_Ok_l _ _ _ _ _ Hs1'). cbv zeta. rewrite Hc1.
  destruct (remove_loop_once n [] []) as (arr & Hrun & Htake);
    [apply not_elem_of_nil..|].
  simpl app in Hrun, Htake. rewrite Hrun, Htake.
  rewrite (bind_Ok_l _ _ _ _ _ (modify_lookup _ _ _ _ Hs1)). simpl.
  unfold ret. f_equal. f_equal. subst w1. simpl. f_equal.
  rewrite insert_insert_eq, (set_children_restore _ _ Hsplit1).
  by apply insert_id.
Qed.

Lemma addNode_removeNode_empty_witness :
  exists w1,
    addNode 0%nat 1%nat true world0 = Ok (tt, w1)
    /\ removeNode 0%nat 1%nat w1
       = Ok (tt, mkWorld (<[1%nat := set_prop 1%float (Leaf (newLeaf (Some 0%nat) 10%nat))]>
                            (heap world0)) (calls world0)).
Proof.
  apply (addNode_removeNode_empty 0%nat 1%nat true world0 (mkSplit None [] 0%float)).
  - vm_compute. reflexivity.
  - reflexivity.
  - vm_compute. reflexivity.
Defined.

(** ** The check, as a function of the children's proportions *)

Lemma range_fold_sum_run cs :
  forall acc w,
    range_fold cs
      (fun sum child => let* p := Proportion child in ret (sum + p)%float) acc w
    = match sum_from (heap w) cs acc with
      | Some sum => Ok (sum, w)
      | None => Panic
      end.
Proof.
  induction cs as [|c cs IH]; intros acc w; simpl; [reflexivity|].
  destruct (heap w !! c) as [o|] eqn:Hc.
  - assert (H : (let* p := Proportion c in ret (acc + p)%float) w
                = Ok ((acc + obj_prop o)%float, w))
      by (by rewrite (bind_Ok_l _ _ _ _ _ (Proportion_lookup _ _ _ Hc))).
    rewrite (bind_Ok_l _ _ _ _ _ H). apply IH.
  - unfold bind, Proportion, bind, deref. by rewrite Hc.
Qed.

(** X6.  [checkPortions] returns, leaving the world as it is, if the
    container has no child or the proportions of its children, added in
    child order in binary64 from 0, are [equal] to 1.0; in every other case
    it panics. *)
Theorem checkPortions_returns_iff (s : ref) (w : world) (sp : split)
    (Hs : deref_split s w = Ok (sp, w)) :
  ((children_of w s = [] \/ portions_ok w s) -> checkPortions s w = Ok (tt, w))
  /\ (~ (children_of w s = [] \/ portions_ok w s) -> checkPortions s w = Panic).
Proof.
  destruct (deref_split_Ok _ _ _ _ Hs) as (_ & o & Ho & Hc & _).
  assert (Hch : children_of w s = split_children sp)
    by (unfold children_of; by rewrite Ho).
  unfold portions_ok. rewrite Hch.
  unfold checkPortions. rewrite (bind_Ok_l _ _ _ _ _ Hs).
  destruct (split_children sp) as [|c cs] eqn:Hcs.
  - split; [done|]. intros H. destruct H. by left.
  - change (length (c :: cs) =? 0)%nat with false. cbv iota.
    unfold bind at 1. unfold bind at 2. rewrite range_fold_sum_run.
    destruct (sum_from (heap w) (c :: cs) 0) as [sum|].
    + destruct (equal sum fullPortion) eqn:Heq; simpl.
      * split; [done|]. intros H. destruct H. right. eauto.
      * split; [|done]. intros [H | (sum' & [= <-] & Heq')]; [done | congruence].
    + split; [|done]. by intros [H | (sum' & H & _)].
Qed.

Lemma checkPortions_returns_iff_witness :
  ((children_of world2 0%nat = [] \/ portions_ok world2 0%nat) ->
   checkPortions 0%nat world2 = Ok (tt, world2))
  /\ (~ (children_of world2 0%nat = [] \/ portions_ok world2 0%nat) ->
      checkPortions 0%nat world2 = Panic).
Proof.
  apply (checkPortions_returns_iff 0%nat world2 (mkSplit None [1%nat; 2%nat] 0%float)).
  vm_compute. reflexivity.
Defined.

Lemma add_nonfinite_l (a b : float) : is_finite a = false -> is_finite (a + b) = false.
Proof.
  unfold is_finite. rewrite add_spec.
  by destruct (Prim2SF a) as [| [] | |], (Prim2SF b) as [| [] | |].
Qed.

Lemma add_nonfinite_r (a b : float) : is_finite b = false -> is_finite (a + b) = false.
Proof.
  unfold is_finite. rewrite add_spec.
  by destruct (Prim2SF a) as [| [] | |], (Prim2SF b) as [| [] | |].
Qed.

Lemma equal_nonfinite (a b : float) : is_finite a = false -> equal a b = false.
Proof.
  unfold is_finite, equal. rewrite ltb_spec, abs_spec, sub_spec, epsilon_spec.
  by destruct (Prim2SF a) as [| [] | |], (Prim2SF b) as [| [] | |].
Qed.

Lemma sum_from_nonfinite h cs :
  forall acc sum,
    sum_from h cs acc = Some sum ->
    is_finite acc = false
    \/ (exists c o, c ∈ cs /\ h !! c = Some o /\ is_finite (obj_prop o) = false) ->
    is_finite sum = false.
Proof.
  induction cs as [|c cs IH]; intros acc sum Hsum Hbad; simpl in Hsum.
  - injection Hsum as <-. destruct Hbad as [H | (c & o & Hc & _)]; [done|].
    by apply not_elem_of_nil in Hc.
  - destruct (h !! c) as [oc|] eqn:Hoc; [|done].
    apply (IH _ _ Hsum). destruct Hbad as [H | (c' & o & Hc' & Ho & Hfin)].
    + left. by apply add_nonfinite_l.
    + apply elem_of_cons in Hc' as [-> | Hc'].
      * left. apply add_nonfinite_r. congruence.
      * right. eauto.
Qed.

(** X7.  [checkPortions] panics whenever one of the children has an infinite
    or NaN proportion. *)
Theorem checkPortions_nonfinite_panics (s c : ref) (w : world) (sp : split)
    (p : proportion)
    (Hs : deref_split s w = Ok (sp, w))
    (Hc : c ∈ split_children sp)
    (Hp : prop_of w c = Some p)
    (Hfin : is_finite p = false) :
  checkPortions s w = Panic.
Proof.
  unfold checkPortions. rewrite (bind_Ok_l _ _ _ _ _ Hs).
  destruct (split_children sp) as [|c0 cs] eqn:Hcs; [by apply not_elem_of_nil in Hc|].
  change (length (c0 :: cs) =? 0)%nat with false. cbv iota.
  unfold bind at 1. rewrite range_fold_sum_run.
  destruct (sum_from (heap w) (c0 :: cs) 0) as [sum|] eqn:Hsum; [|done].
  rewrite equal_nonfinite; [done|].
  apply (sum_from_nonfinite _ _ _ _ Hsum). right.
  unfold prop_of in Hp. destruct (heap w !! c) as [o|] eqn:Ho; [|done].
  injection Hp as <-. eauto.
Qed.

Lemma checkPortions_nonfinite_panics_witness :
  checkPortions 0%nat
    (mkWorld (<[0%nat := HSplit (mkSplit None [1%nat; 2%nat] 0%float)]>
             (<[1%nat := Leaf (mkLeaf (Some 0%nat) 10%nat 1%float)]>
             (<[2%nat := Leaf (mkLeaf (Some 0%nat) 20%nat nan)]> ∅))) [])
  = Panic.
Proof.
  apply (checkPortions_nonfinite_panics 0%nat 2%nat _
           (mkSplit None [1%nat; 2%nat] 0%float) nan).
  - vm_compute. reflexivity.
  - compute_done.
  - vm_compute. reflexivity.
  - vm_compute. reflexivity.
Defined.

(** X8.  A proportion is [equal] to itself exactly when it is a finite
    number: for NaN and the infinities [equal] answers false. *)
Theorem equal_self (p : proportion) : equal p p = is_finite p.
Proof.
  unfold is_finite, equal. rewrite ltb_spec, abs_spec, sub_spec, epsilon_spec.
  destruct (Prim2SF p) as [[]|[]| |s m e]; try reflexivity.
  unfold SF64sub, SFsub. rewrite Z.sub_diag. reflexivity.
Qed.

(** ** Layout *)

Section PlacementLayout.

Variable Round : float -> Z.

(** X9.  On a tree that is a single leaf, [place] frames and moves the
    leaf's client to the target rectangle when the rectangle's width and
    height are both at least 1, and does nothing otherwise. *)
Theorem place_single_leaf (fuel : nat) (r : ref) (lf : leaf) (geom : Rect) (w : world)
    (Hr : heap w !! r = Some (Leaf lf)) :
  place Round (S fuel) (mkTree (Some r)) geom w
  = Ok (tt, if (1 <=? Width geom) && (1 <=? Height geom)
            then mkWorld (heap w)
                   (calls w ++ [FrameTile (leaf_client lf);
                                ClientMoveResize (leaf_client lf) (X geom) (Y geom)
                                  (Width geom) (Height geom)])
            else w).
Proof.
  assert (Hv : ValidDims Round (S fuel) r (Width geom) (Height geom) 1 1
                 (Width geom) (Height geom) w
               = Ok ((1 <=? Width geom) && (1 <=? Height geom), w)).
  { simpl. rewrite (bind_Ok_l _ _ _ _ _ (deref_lookup _ _ _ Hr)).
    unfold ret. by rewrite !Z.leb_refl, !andb_true_r. }
  unfold place. cbn [child]. rewrite (bind_Ok_l _ _ _ _ _ Hv).
  destruct ((1 <=? Width geom) && (1 <=? Height geom)); simpl negb; cbv iota.
  - simpl. rewrite (bind_Ok_l _ _ _ _ _ (deref_lookup _ _ _ Hr)).
    unfold bind, emit. simpl. by rewrite <- app_assoc.
  - reflexivity.
Qed.

Lemma clients_of_app h l1 l2 :
  clients_of h (l1 ++ l2) = clients_of h l1 ++ clients_of h l2.
Proof. apply omap_app. Qed.

Lemma tile_calls_app c1 c2 : tile_calls (c1 ++ c2) = tile_calls c1 ++ tile_calls c2.
Proof. apply flat_map_app. Qed.

(** A loop over the children whose body lays out the subtree below each
    child lays out the leaves below all of them. *)
Lemma range_fold_log {A} (h : gmap ref object) (body : A -> ref -> M A)
    (rec : ref -> option (list ref)) :
  (forall a c lc w, rec c = Some lc -> heap w = h ->
     exists a' log, body a c w = Ok (a', mkWorld h (calls w ++ log))
                    /\ map call_kind log = tile_calls (clients_of h lc)) ->
  forall cs ls a w, all_leaves rec cs = Some ls -> heap w = h ->
    exists a' log, range_fold cs body a w = Ok (a', mkWorld h (calls w ++ log))
                   /\ map call_kind log = tile_calls (clients_of h ls).
Proof.
  intros Hbody. induction cs as [|c cs IH]; intros ls a w Hls Hw; simpl in Hls.
  - injection Hls as <-. exists a, []. split; [|done].
    cbn [range_fold]. unfold ret. rewrite app_nil_r, <- Hw. by destruct w.
  - destruct (rec c) as [lc|] eqn:Hc; [|done].
    destruct (all_leaves rec cs) as [lcs|] eqn:Hcs; [|done].
    injection Hls as <-.
    destruct (Hbody a c lc w Hc Hw) as (a1 & log1 & Hrun1 & Hlog1).
    destruct (IH lcs a1 (mkWorld h (calls w ++ log1)) eq_refl eq_refl)
      as (a2 & log2 & Hrun2 & Hlog2).
    exists a2, (log1 ++ log2). split.
    + cbn [range_fold]. rewrite (bind_Ok_l _ _ _ _ _ Hrun1), Hrun2.
      cbn [calls]. by rewrite app_assoc.
    + by rewrite map_app, clients_of_app, tile_calls_app, Hlog1, Hlog2.
Qed.

(** On a tree, [MoveResize] frames and moves the client of every leaf
    below the node once, in depth-first order. *)
Lemma MoveResize_log (h : gmap ref object) (fuel : nat) :
  forall r ls x y wd ht w,
    leaves h fuel r = Some ls -> heap w = h ->
    exists log, MoveResize Round fuel r x y wd ht w
                = Ok (tt, mkWorld h (calls w ++ log))
                /\ map call_kind log = tile_calls (clients_of h ls).
Proof.
  induction fuel as [|fuel IH]; intros r ls x y wd ht w Hls Hw; [done|].
  simpl in Hls. cbn [MoveResize].
  destruct (h !! r) as [o|] eqn:Hr; [|done].
  assert (Hr' : heap w !! r = Some o) by (by rewrite Hw).
  rewrite (bind_Ok_l _ _ _ _ _ (deref_lookup _ _ _ Hr')).
  destruct o as [s|s|l].
  - edestruct (range_fold_log h
        (fun nextx child =>
           let* p := Proportion child in
           let w0 := portion Round p wd in
           MoveResize Round fuel child nextx y w0 ht ;;
           ret (wrap64 (nextx + w0))) (leaves h fuel))
      as (a & log & Hrun & Hlog); [|exact Hls|exact Hw|].
    { intros a c lc w0 Hc Hw0.
      destruct (leaves_allocated _ _ _ _ Hc) as [oc Hoc]. rewrite <- Hw0 in Hoc.
      rewrite (bind_Ok_l _ _ _ _ _ (Proportion_lookup _ _ _ Hoc)). cbv zeta.
      destruct (IH c lc a y (portion Round (obj_prop oc) wd) ht w0 Hc Hw0)
        as (log & Hrun & Hlog).
      rewrite (bind_Ok_l _ _ _ _ _ Hrun). unfold ret. eauto. }
    rewrite (bind_Ok_l _ _ _ _ _ Hrun). unfold ret. eauto.
  - edestruct (range_fold_log h
        (fun nexty child =>
           let* p := Proportion child in
           let h0 := portion Round p ht in
           MoveResize Round fuel child x nexty wd h0 ;;
           ret (wrap64 (nexty + h0))) (leaves h fuel))
      as (a & log & Hrun & Hlog); [|exact Hls|exact Hw|].
    { intros a c lc w0 Hc Hw0.
      destruct (leaves_allocated _ _ _ _ Hc) as [oc Hoc]. rewrite <- Hw0 in Hoc.
      rewrite (bind_Ok_l _ _ _ _ _ (Proportion_lookup _ _ _ Hoc)). cbv zeta.
      destruct (IH c lc x a wd (portion Round (obj_prop oc) ht) w0 Hc Hw0)
        as (log & Hrun & Hlog).
      rewrite (bind_Ok_l _ _ _ _ _ Hrun). unfold ret. eauto. }
    rewrite (bind_Ok_l _ _ _ _ _ Hrun). unfold ret. eauto.
  - injection Hls as <-.
    exists [FrameTile (leaf_client l);
            ClientMoveResize (leaf_client l) x y wd ht]. split.
    + unfold bind, emit. simpl. by rewrite <- app_assoc, Hw.
    + unfold clients_of. simpl. by rewrite Hr.
Qed.

(** X10.  On a tree, [place] returns, and either leaves the world as it is
    or issues, for the client of every leaf in depth-first order, one
    [FrameTile] followed by one [MoveResize], and nothing else. *)
Theorem place_all_or_nothing (fuel : nat) (t : tree) (geom : Rect) (w : world)
    (r : ref) (ls : list ref)
    (Ht : child t = Some r)
    (Hls : leaves (heap w) fuel r = Some ls) :
  place Round fuel t geom w = Ok (tt, w)
  \/ exists log,
       place Round fuel t geom w = Ok (tt, mkWorld (heap w) (calls w ++ log))
       /\ map call_kind log = tile_calls (clients_of (heap w) ls).
Proof.
  unfold place. rewrite Ht.
  destruct (ValidDims_returns Round _ fuel r ls (Width geom) (Height geom) 1 1
              (Width geom) (Height geom) w Hls eq_refl) as [b Hv].
  rewrite (bind_Ok_l _ _ _ _ _ Hv). destruct b; simpl negb; cbv iota.
  - right. by eapply MoveResize_log.
  - by left.
Qed.

(** One iteration of the loop of [hsplit.MoveResize] on a leaf child. *)
Lemma hsplit_leaf_step (fuel : nat) (c : ref) (l : leaf) (nextx y width height : Z)
    (w : world) :
  heap w !! c = Some (Leaf l) ->
  (let* p := Proportion c in
   let wd := portion Round p width in
   MoveResize Round (S fuel) c nextx y wd height ;;
   ret (wrap64 (nextx + wd))) w
  = Ok (wrap64 (nextx + portion Round (leaf_prop l) width),
        mkWorld (heap w)
          (calls w ++ [FrameTile (leaf_client l);
                       ClientMoveResize (leaf_client l) nextx y
                         (portion Round (leaf_prop l) width) height])).
Proof.
  intros Hc.
  rewrite (bind_Ok_l _ _ _ _ _ (Proportion_lookup _ _ _ Hc)). cbv zeta. simpl.
  unfold bind at 1. rewrite (bind_Ok_l _ _ _ _ _ (deref_lookup _ _ _ Hc)).
  unfold bind, emit, ret. cbn [heap calls].
  by rewrite <- app_assoc.
Qed.

(** One iteration of the loop of [vsplit.MoveResize] on a leaf child. *)
Lemma vsplit_leaf_step (fuel : nat) (c : ref) (l : leaf) (x nexty width height : Z)
    (w : world) :
  heap w !! c = Some (Leaf l) ->
  (let* p := Proportion c in
   let ht := portion Round p height in
   MoveResize Round (S fuel) c x nexty width ht ;;
   ret (wrap64 (nexty + ht))) w
  = Ok (wrap64 (nexty + portion Round (leaf_prop l) height),
        mkWorld (heap w)
          (calls w ++ [FrameTile (leaf_client l);
                       ClientMoveResize (leaf_client l) x nexty width
                         (portion Round (leaf_prop l) height)])).
Proof.
  intros Hc.
  rewrite (bind_Ok_l _ _ _ _ _ (Proportion_lookup _ _ _ Hc)). cbv zeta. simpl.
  unfold bind at 1. rewrite (bind_Ok_l _ _ _ _ _ (deref_lookup _ _ _ Hc)).
  unfold bind, emit, ret. cbn [heap calls].
  by rewrite <- app_assoc.
Qed.

Lemma clients_of_leaf h c l cs :
  h !! c = Some (Leaf l) -> clients_of h (c :: cs) = leaf_client l :: clients_of h cs.
Proof. intros Hc. unfold clients_of. simpl. by rewrite Hc. Qed.

Lemma props_of_leaf h c l cs :
  h !! c = Some (Leaf l) -> props_of h (c :: cs) = leaf_prop l :: props_of h cs.
Proof. intros Hc. unfold props_of. simpl. by rewrite Hc. Qed.

Lemma hsplit_row_loop (fuel : nat) (y width height : Z) (cs : list ref) :
  forall (x : Z) (w : world),
    (forall c, c ∈ cs -> exists l, heap w !! c = Some (Leaf l)) ->
    exists x' log,
      range_fold cs (fun nextx child =>
        let* p := Proportion child in
        let wd := portion Round p width in
        MoveResize Round (S fuel) child nextx y wd height ;;
        ret (wrap64 (nextx + wd))) x w
      = Ok (x', mkWorld (heap w) (calls w ++ log))
      /\ map call_kind log = tile_calls (clients_of (heap w) cs)
      /\ map Width (rects log)
         = map (fun p => portion Round p width) (props_of (heap w) cs)
      /\ row_from x y height (rects log).
Proof.
  induction cs as [|c cs IH]; intros x w Hcs.
  - exists x, []. split; [|done]. cbn [range_fold]. unfold ret.
    rewrite app_nil_r. by destruct w.
  - destruct (Hcs c) as (l & Hc); [left|].
    cbn [range_fold].
    rewrite (bind_Ok_l _ _ _ _ _ (hsplit_leaf_step fuel c l x y width height w Hc)).
    edestruct IH as (x' & log & Hrun & Hkind & Hwidths & Hrow); [|rewrite Hrun].
    { intros c' Hc'. cbn [heap]. apply Hcs. by right. }
    cbn [heap calls] in *. eexists x', (_ :: _ :: log). split; [|split; [|split]].
    + by rewrite <- app_assoc.
    + rewrite (clients_of_leaf _ _ _ _ Hc). simpl. by rewrite Hkind.
    + rewrite (props_of_leaf _ _ _ _ Hc). simpl. by rewrite Hwidths.
    + simpl. done.
Qed.

Lemma vsplit_column_loop (fuel : nat) (x width height : Z) (cs : list ref) :
  forall (y : Z) (w : world),
    (forall c, c ∈ cs -> exists l, heap w !! c = Some (Leaf l)) ->
    exists y' log,
      range_fold cs (fun nexty child =>
        let* p := Proportion child in
        let ht := portion Round p height in
        MoveResize Round (S fuel) child x nexty width ht ;;
        ret (wrap64 (nexty + ht))) y w
      = Ok (y', mkWorld (heap w) (calls w ++ log))
      /\ map call_kind log = tile_calls (clients_of (heap w) cs)
      /\ map Height (rects log)
         = map (fun p => portion Round p height) (props_of (heap w) cs)
      /\ column_from x y width (rects log).
Proof.
  induction cs as [|c cs IH]; intros y w Hcs.
  - exists y, []. split; [|done]. cbn [range_fold]. unfold ret.
    rewrite app_nil_r. by destruct w.
  - destruct (Hcs c) as (l & Hc); [left|].
    cbn [range_fold].
    rewrite (bind_Ok_l _ _ _ _ _ (vsplit_leaf_step fuel c l x y width height w Hc)).
    edestruct IH as (y' & log & Hrun & Hkind & Hheights & Hcol); [|rewrite Hrun].
    { intros c' Hc'. cbn [heap]. apply Hcs. by right. }
    cbn [heap calls] in *. eexists y', (_ :: _ :: log). split; [|split; [|split]].
    + by rewrite <- app_assoc.
    + rewrite (clients_of_leaf _ _ _ _ Hc). simpl. by rewrite Hkind.
    + rewrite (props_of_leaf _ _ _ _ Hc). simpl. by rewrite Hheights.
    + simpl. done.
Qed.

(** X11.  [MoveResize] on a horizontal split of leaves frames and moves the
    clients of its children in child order; the widths are the children's
    shares of the width, and the rectangles form a row: all at the split's
    [y] with its height, the first at the split's [x], each next one where
    the one before it ends (in 64-bit arithmetic). *)
Theorem hsplit_tiles_a_row (fuel : nat) (s : ref) (hs : split)
    (x y width height : Z) (w : world)
    (Hs : heap w !! s = Some (HSplit hs))
    (Hleaves : forall c, c ∈ split_children hs ->
                 exists l, heap w !! c = Some (Leaf l)) :
  exists log,
    MoveResize Round (S (S fuel)) s x y width height w
    = Ok (tt, mkWorld (heap w) (calls w ++ log))
    /\ map call_kind log = tile_calls (clients_of (heap w) (split_children hs))
    /\ map Width (rects log)
       = map (fun p => portion Round p width)
           (props_of (heap w) (split_children hs))
    /\ row_from x y height (rects log).
Proof.
  destruct (hsplit_row_loop fuel y width height _ x w Hleaves)
    as (x' & log & Hrun & Hrest).
  exists log. split; [|done].
  simpl. rewrite (bind_Ok_l _ _ _ _ _ (deref_lookup _ _ _ Hs)).
  by rewrite (bind_Ok_l _ _ _ _ _ Hrun).
Qed.

(** X12.  [MoveResize] on a vertical split of leaves frames and moves the
    clients of its children in child order; the heights are the children's
    shares of the height, and the rectangles form a column: all at the
    split's [x] with its width, the first at the split's [y], each next one
    where the one before it ends (in 64-bit arithmetic). *)
Theorem vsplit_tiles_a_column (fuel : nat) (s : ref) (vs : split)
    (x y width height : Z) (w : world)
    (Hs : heap w !! s = Some (VSplit vs))
    (Hleaves : forall c, c ∈ split_children vs ->
                 exists l, heap w !! c = Some (Leaf l)) :
  exists log,
    MoveResize Round (S (S fuel)) s x y width height w
    = Ok (tt, mkWorld (heap w) (calls w ++ log))
    /\ map call_kind log = tile_calls (clients_of (heap w) (split_children vs))
    /\ map Height (rects log)
       = map (fun p => portion Round p height)
           (props_of (heap w) (split_children vs))
    /\ column_from x y width (rects log).
Proof.
  destruct (vsplit_column_loop fuel x width height _ y w Hleaves)
    as (y' & log & Hrun & Hrest).
  exists log. split; [|done].
  simpl. rewrite (bind_Ok_l _ _ _ _ _ (deref_lookup _ _ _ Hs)).
  by rewrite (bind_Ok_l _ _ _ _ _ Hrun).
Qed.

Lemma range_all_false (cond : ref -> M bool) (w : world) (c : ref) (cs : list ref) :
  (forall c', c' ∈ cs -> exists b, cond c' w = Ok (b, w)) ->
  c ∈ cs -> cond c w = Ok (false, w) ->
  range_all cs cond w = Ok (false, w).
Proof.
  induction cs as [|c' cs IH]; intros Hall Hc Hfalse;
    [by apply not_elem_of_nil in Hc|].
  cbn [range_all]. destruct (Hall c') as [b Hb]; [left|].
  rewrite (bind_Ok_l _ _ _ _ _ Hb). destruct b; [|done].
  apply elem_of_cons in Hc as [-> | Hc]; [congruence|].
  apply IH; [|done..]. intros c'' Hc''. apply Hall. by right.
Qed.

Lemma all_leaves_elem rec cs ls c :
  all_leaves rec cs = Some ls -> c ∈ cs -> exists lc, rec c = Some lc.
Proof.
  revert ls. induction cs as [|c' cs IH]; intros ls Hls Hc;
    [by apply not_elem_of_nil in Hc|].
  simpl in Hls. destruct (rec c') as [lc'|] eqn:Hc'; [|done].
  destruct (all_leaves rec cs) as [lcs|]; [|done].
  apply elem_of_cons in Hc as [-> | Hc]; eauto.
Qed.

(** X13.  When the root is a horizontal split and one of its children is a
    leaf whose share of the width is below 1 or above the width, or the
    height is below 1, [place] returns without a call to any client. *)
Theorem place_skips_on_invalid_share (fuel : nat) (t : tree) (geom : Rect)
    (w : world) (s c : ref) (hs : split) (lc : leaf) (ls : list ref)
    (Ht : child t = Some s)
    (Hs : heap w !! s = Some (HSplit hs))
    (Hls : leaves (heap w) fuel s = Some ls)
    (Hc : c ∈ split_children hs)
    (Hlc : heap w !! c = Some (Leaf lc))
    (Hbad : portion Round (leaf_prop lc) (Width geom) < 1
            \/ Width geom < portion Round (leaf_prop lc) (Width geom)
            \/ Height geom < 1) :
  place Round fuel t geom w = Ok (tt, w).
Proof.
  destruct fuel as [|fuel]; [done|].
  simpl in Hls. rewrite Hs in Hls.
  destruct (all_leaves_elem _ _ _ c Hls Hc) as [lc' Hlc'].
  destruct fuel as [|fuel]; [done|].
  assert (Hv : ValidDims Round (S (S fuel)) s (Width geom) (Height geom) 1 1
                 (Width geom) (Height geom) w = Ok (false, w)).
  { simpl. rewrite (bind_Ok_l _ _ _ _ _ (deref_lookup _ _ _ Hs)).
    apply (range_all_false _ w c); [|done|].
    - intros c' Hc'. destruct (all_leaves_elem _ _ _ c' Hls Hc') as [l' Hl'].
      destruct (leaves_allocated _ _ _ _ Hl') as [oc Hoc].
      rewrite (bind_Ok_l _ _ _ _ _ (Proportion_lookup _ _ _ Hoc)).
      by eapply (ValidDims_returns Round (heap w) (S fuel)).
    - rewrite (bind_Ok_l _ _ _ _ _ (Proportion_lookup _ _ _ Hlc)).
      simpl. rewrite (bind_Ok_l _ _ _ _ _ (deref_lookup _ _ _ Hlc)).
      unfold ret. do 2 f_equal.
      destruct Hbad as [H | [H | H]].
      + apply Z.leb_gt in H. by rewrite H.
      + apply Z.leb_gt in H. rewrite H. by rewrite !andb_false_r.
      + apply Z.leb_gt in H. rewrite H. by rewrite !andb_false_r. }
  unfold place. rewrite Ht. by rewrite (bind_Ok_l _ _ _ _ _ Hv).
Qed.

End PlacementLayout.

Lemma place_single_leaf_witness :
  place Round 1 (mkTree (Some 1%nat)) (mkRect 5 6 0 40) world1
  = Ok (tt, if (1 <=? Width (mkRect 5 6 0 40)) && (1 <=? Height (mkRect 5 6 0 40))
            then mkWorld (heap world1)
                   (calls world1
                    ++ [FrameTile (leaf_client (mkLeaf (Some 0%nat) 10%nat 1%float));
                        ClientMoveResize
                          (leaf_client (mkLeaf (Some 0%nat) 10%nat 1%float))
                          (X (mkRect 5 6 0 40)) (Y (mkRect 5 6 0 40))
                          (Width (mkRect 5 6 0 40)) (Height (mkRect 5 6 0 40))])
            else world1).
Proof.
  apply (place_single_leaf Round 0 1%nat (mkLeaf (Some 0%nat) 10%nat 1%float)
           (mkRect 5 6 0 40) world1).
  vm_compute. reflexivity.
Defined.

Lemma place_all_or_nothing_witness :
  place Round 3 tree0 (mkRect 0 0 100 50) world_nested = Ok (tt, world_nested)
  \/ exists log,
       place Round 3 tree0 (mkRect 0 0 100 50) world_nested
       = Ok (tt, mkWorld (heap world_nested) (calls world_nested ++ log))
       /\ map call_kind log
          = tile_calls (clients_of (heap world_nested) [1%nat; 2%nat; 3%nat]).
Proof.
  apply (place_all_or_nothing Round 3 tree0 (mkRect 0 0 100 50) world_nested 0%nat
           [1%nat; 2%nat; 3%nat]).
  - reflexivity.
  - vm_compute. reflexivity.
Defined.

Lemma hsplit_tiles_a_row_witness :
  exists log,
    MoveResize Round 2 0%nat 0 0 100 50 world2
    = Ok (tt, mkWorld (heap world2) (calls world2 ++ log))
    /\ map call_kind log
       = tile_calls (clients_of (heap world2) [1%nat; 2%nat])
    /\ map Width (rects log)
       = map (fun p => portion Round p 100) (props_of (heap world2) [1%nat; 2%nat])
    /\ row_from 0 0 50 (rects log).
Proof.
  apply (hsplit_tiles_a_row Round 0 0%nat (mkSplit None [1%nat; 2%nat] 0%float)
           0 0 100 50 world2).
  - reflexivity.
  - intros c Hc. cbn [split_children] in Hc.
    apply elem_of_cons in Hc as [->|Hc]; [eexists; reflexivity|].
    apply elem_of_cons in Hc as [->|Hc]; [eexists; reflexivity|].
    by apply not_elem_of_nil in Hc.
Defined.

Lemma vsplit_tiles_a_column_witness :
  exists log,
    MoveResize Round 2 4%nat 0 0 100 50 world_nested
    = Ok (tt, mkWorld (heap world_nested) (calls world_nested ++ log))
    /\ map call_kind log
       = tile_calls (clients_of (heap world_nested) [2%nat; 3%nat])
    /\ map Height (rects log)
       = map (fun p => portion Round p 50)
           (props_of (heap world_nested) [2%nat; 3%nat])
    /\ column_from 0 0 100 (rects log).
Proof.
  apply (vsplit_tiles_a_column Round 0 4%nat
           (mkSplit (Some 0%nat) [2%nat; 3%nat] 0.5%float) 0 0 100 50 world_nested).
  - reflexivity.
  - intros c Hc. cbn [split_children] in Hc.
    apply elem_of_cons in Hc as [->|Hc]; [eexists; reflexivity|].
    apply elem_of_cons in Hc as [->|Hc]; [eexists; reflexivity|].
    by apply not_elem_of_nil in Hc.
Defined.

Lemma place_skips_on_invalid_share_witness :
  place Round 3 tree0 (mkRect 0 0 1 10) world3 = Ok (tt, world3).
Proof.
  eapply (place_skips_on_invalid_share Round 3 tree0 (mkRect 0 0 1 10) world3
            0%nat 1%nat (mkSplit None [3%nat; 1%nat; 2%nat] 0%float)).
  - reflexivity.
  - reflexivity.
  - vm_compute. reflexivity.
  - compute_done.
  - vm_compute. reflexivity.
  - left. vm_compute. reflexivity.
Defined.

(** ** The tolerance and the rounding *)

Section Tolerance.

Local Open Scope R_scope.

(** A finite number that compares [Lt] against a finite positive one is
    smaller in size. *)
Lemma SFltb_bound (x : spec_float) (m2 : positive) (e2 : Z) :
  valid_binary x = true ->
  valid_binary (S754_finite false m2 e2) = true ->
  SFltb (SFabs x) (S754_finite false m2 e2) = true ->
  SFfinite x = true /\ Rabs (SF2R x) < SF2R (S754_finite false m2 e2).
Proof.
  intros Hvx Hvy Hlt.
  assert (Hy : 0 < SF2R (S754_finite false m2 e2)).
  { simpl. pose proof (bpow_pos e2).
    assert (0 < IZR (Zpos m2)) by (by apply IZR_lt). nra. }
  destruct x as [sx|sx| |sx m1 e1]; try done.
  - split; [done|]. simpl (SF2R (S754_zero _)). rewrite Rabs_R0. lra.
  - split; [done|]. rewrite Rabs_SF2R_finite. simpl SF2R. rewrite Rmult_1_l.
    assert (Hv1 : valid_binary (S754_finite false m1 e1) = true) by done.
    unfold SFltb in Hlt. simpl in Hlt.
    destruct (e1 ?= e2)%Z eqn:Hc.
    + apply Z.compare_eq_iff in Hc. subst e2.
      assert (m1 < m2)%positive.
      { by destruct (Pos.compare_cont Eq m1 m2) eqn:Hm. }
      assert (IZR (Zpos m1) < IZR (Zpos m2)) by (apply IZR_lt; lia).
      pose proof (bpow_pos e1). nra.
    + pose proof (proj1 (Z.compare_lt_iff _ _) Hc) as Hlt'.
      pose proof (finite_exponent_lt _ _ _ _ Hv1 Hvy Hlt'). lra.
    + done.
Qed.

Lemma epsilon_value : SF2R (Prim2SF epsilon) = 7378697629483821 / 73786976294838206464.
Proof.
  rewrite epsilon_spec. unfold SF2R. rewrite bpow_neg_val.
  change (2 ^ 66)%Z with 73786976294838206464%Z. lra.
Qed.

Lemma epsilon_valid : valid_binary (S754_finite false 7378697629483821 (-66)) = true.
Proof. reflexivity. Qed.

(** Two finite proportions no more than 0.00009999 apart are [equal]. *)
Lemma equal_close (p q : float) :
  is_finite p = true -> is_finite q = true ->
  Rabs (F2R p - F2R q) <= 9999 / 100000000 ->
  equal p q = true.
Proof.
  intros Hfp Hfq Hd.
  assert (Hm13 : bpow (-13) = / 8192) by (by rewrite bpow_neg_val).
  assert (Hm66 : bpow (-66) = / 73786976294838206464) by (by rewrite bpow_neg_val).
  destruct (sub_error p q (-13) Hfp Hfq) as [Hfz Hz]; [|lia|].
  { rewrite Hm13. lra. }
  change (fexp prec emax (-13)) with (-66)%Z in Hz. rewrite Hm66 in Hz.
  apply Rabs_le_inv in Hz. apply Rabs_le_inv in Hd.
  unfold equal. rewrite ltb_spec, abs_spec, epsilon_spec.
  apply SFltb_of_lt; [apply Prim2SF_valid | exact Hfz | apply epsilon_valid |].
  rewrite <- epsilon_spec, epsilon_value. fold (F2R (p - q)%float).
  apply Rabs_def1; lra.
Qed.

(** X14.  For finite proportions of size at most 2^38, [equal] holds whenever
    the values differ by at most 0.00009999, and only when they differ by
    less than 0.00010001. *)
Theorem equal_tolerance (p q : float)
    (Hfp : is_finite p = true) (Hfq : is_finite q = true)
    (Hp : Rabs (F2R p) <= bpow 38) (Hq : Rabs (F2R q) <= bpow 38) :
  (Rabs (F2R p - F2R q) <= 9999 / 100000000 -> equal p q = true)
  /\ (equal p q = true -> Rabs (F2R p - F2R q) < 10001 / 100000000).
Proof.
  split; [by apply equal_close|].
  intros Heq. unfold equal in Heq. rewrite ltb_spec, abs_spec, epsilon_spec in Heq.
  apply SFltb_bound in Heq as [_ Hlt]; [|apply Prim2SF_valid|apply epsilon_valid].
  rewrite <- epsilon_spec, epsilon_value in Hlt. fold (F2R (p - q)%float) in Hlt.
  apply Rabs_le_inv in Hp. apply Rabs_le_inv in Hq.
  rewrite bpow_pos_val in Hp, Hq. change (2 ^ 38)%Z with 274877906944%Z in Hp, Hq.
  assert (H40 : bpow 40 = 1099511627776) by (by rewrite bpow_pos_val).
  assert (Hm14 : bpow (-14) = / 16384) by (by rewrite bpow_neg_val).
  assert (Hm12 : bpow (-12) = / 4096) by (by rewrite bpow_neg_val).
  assert (Hm65 : bpow (-65) = / 36893488147419103232) by (by rewrite bpow_neg_val).
  destruct (sub_error p q 40 Hfp Hfq) as [_ Hz]; [|lia|].
  { rewrite H40. apply Rabs_def1; lra. }
  change (fexp prec emax 40) with (-13)%Z in Hz.
  assert (Hm13 : bpow (-13) = / 8192) by (by rewrite bpow_neg_val).
  rewrite Hm13 in Hz. apply Rabs_le_inv in Hz.
  assert (Hlt' := Hlt). apply Rabs_def2 in Hlt'.
  destruct (sub_error p q (-12) Hfp Hfq) as [_ Hz2]; [|lia|].
  { rewrite Hm12. apply Rabs_def1; lra. }
  change (fexp prec emax (-12)) with (-65)%Z in Hz2. rewrite Hm65 in Hz2.
  apply Rabs_le_inv in Hz2.
  apply Rabs_def1; lra.
Qed.

End Tolerance.

Lemma equal_tolerance_witness :
  ((Rabs (F2R 0.5%float - F2R 0.5%float) <= 9999 / 100000000)%R -> equal 0.5%float 0.5%float = true)
  /\ (equal 0.5%float 0.5%float = true -> (Rabs (F2R 0.5%float - F2R 0.5%float) < 10001 / 100000000)%R).
Proof.
  assert (H : F2R 0.5%float = (/ 2)%R).
  { unfold F2R. change (Prim2SF 0.5%float) with (S754_finite false 4503599627370496 (-53)).
    unfold SF2R. rewrite bpow_neg_val.
    change (2 ^ 53)%Z with 9007199254740992%Z. lra. }
  apply (equal_tolerance 0.5%float 0.5%float); try reflexivity.
  - rewrite H, bpow_pos_val. change (2 ^ 38)%Z with 274877906944%Z.
    rewrite Rabs_pos_eq; lra.
  - rewrite H, bpow_pos_val. change (2 ^ 38)%Z with 274877906944%Z.
    rewrite Rabs_pos_eq; lra.
Defined.

Lemma binary_round_aux_abs (m e : Z) (l : location) :
  SFabs (binary_round_aux prec emax true m e l)
  = SFabs (binary_round_aux prec emax false m e l).
Proof.
  unfold binary_round_aux.
  destruct (shr_fexp prec emax m e l) as [mrs' e'].
  destruct (shr_fexp prec emax _ e' loc_Exact) as [mrs'' e''].
  destruct (shr_m mrs''); [done | | done].
  by destruct (e'' <=? emax - prec).
Qed.

Lemma binary_normalize_abs (m e : Z) :
  SFabs (binary_normalize prec emax (- m) e false)
  = SFabs (binary_normalize prec emax m e false).
Proof.
  destruct m as [|p|p]; [done| |].
  - change (- Z.pos p) with (Z.neg p). unfold binary_normalize, binary_round.
    destruct (shl_align p e _) as [mz ez]. apply binary_round_aux_abs.
  - change (- Z.neg p) with (Z.pos p). unfold binary_normalize, binary_round.
    destruct (shl_align p e _) as [mz ez]. symmetry. apply binary_round_aux_abs.
Qed.

Lemma SFabs_SFsub_comm (a b : spec_float) :
  SFabs (SFsub prec emax a b) = SFabs (SFsub prec emax b a).
Proof.
  destruct a as [sa|sa| |sa ma ea], b as [sb|sb| |sb mb eb];
    try reflexivity; try (by destruct sa, sb).
  unfold SFsub. change IntDef.Z.min with Z.min. rewrite (Z.min_comm eb ea).
  set (x := cond_Zopp sa _). set (y := cond_Zopp sb _).
  replace (y - x) with (- (x - y)) by lia.
  symmetry. apply binary_normalize_abs.
Qed.

(** X15.  [equal] does not depend on the order of its arguments. *)
Theorem equal_sym (p q : proportion) : equal p q = equal q p.
Proof.
  unfold equal. rewrite !ltb_spec, !abs_spec, !sub_spec.
  unfold SF64sub. by rewrite SFabs_SFsub_comm.
Qed.

Section Rounding.

Local Open Scope R_scope.

(** Any rounding to a nearest integer: the properties of this section hold
    whichever way [misc.Round] breaks ties. *)
Variable Rnd : float -> Z.
Hypothesis Rnd_nearest :
  forall f, is_finite f = true -> Rabs (IZR (Rnd f) - F2R f) <= / 2.

Lemma IZR_close (a b : Z) : Rabs (IZR a - IZR b) < 1 -> a = b.
Proof.
  intros H. apply Rabs_def2 in H as [H1 H2]. rewrite <- minus_IZR in H1, H2.
  change (- (1)) with (IZR (-1)) in H2.
  apply lt_IZR in H1. apply lt_IZR in H2. lia.
Qed.

Lemma float_of_int_small (z : Z) :
  (Z.abs z <= 2 ^ 50)%Z ->
  is_finite (float_of_int z) = true /\ F2R (float_of_int z) = IZR z.
Proof.
  intros Hz. destruct (float_of_int_spec z 51) as (_ & Hf & _ & Hex); [|lia|].
  - rewrite bpow_pos_val, <- abs_IZR. apply IZR_lt. lia.
  - split; [done|]. apply Hex. lia.
Qed.

(** The product of a size and the full proportion rounds to the size. *)
Lemma Rnd_full (size : Z) :
  (Z.abs size <= 2 ^ 50)%Z ->
  Rnd (float_of_int size * fullPortion)%float = size.
Proof.
  intros Hsize. destruct (float_of_int_small size Hsize) as [Hf Hv].
  apply IZR_close.
  destruct (Z.eq_dec size 0%Z) as [-> | Hnz].
  - change (float_of_int 0 * fullPortion)%float with 0%float.
    pose proof (Rnd_nearest 0%float eq_refl) as H. rewrite F2R_zero in H.
    rewrite Rminus_0_r in *. lra.
  - assert (H1 : 1 <= Rabs (IZR size)).
    { rewrite <- abs_IZR. apply IZR_le. lia. }
    assert (H50 : Rabs (IZR size) <= 1125899906842624).
    { rewrite <- abs_IZR. apply IZR_le.
      change 1125899906842624%Z with (2 ^ 50)%Z. lia. }
    assert (Htiny : bpow (-1022) <= 1).
    { rewrite <- bpow_0. apply bpow_le. lia. }
    assert (Hbig : 1125899906842624 < bpow 1023).
    { assert (bpow 51 <= bpow 1023) by (apply bpow_le; lia).
      rewrite (bpow_pos_val 51) in H.
      change (2 ^ 51)%Z with 2251799813685248%Z in H. lra. }
    destruct (mul_error (float_of_int size) fullPortion) as [Hfm Hm].
    + rewrite Hv. lra.
    + unfold fullPortion. rewrite F2R_one, Rabs_R1. lra.
    + unfold fullPortion. rewrite Hv, F2R_one, Rmult_1_r. lra.
    + unfold fullPortion. rewrite Hv, F2R_one, Rmult_1_r. lra.
    + unfold fullPortion in *. rewrite Hv, F2R_one, Rmult_1_r, bpow_m53 in Hm.
      pose proof (Rnd_nearest _ Hfm) as HR.
      set (g := F2R (float_of_int size * 1)%float) in *.
      replace (IZR (Rnd (float_of_int size * 1)%float) - IZR size)
        with ((IZR (Rnd (float_of_int size * 1)%float) - g) + (g - IZR size))
        by ring.
      eapply Rle_lt_trans; [apply Rabs_triang|]. lra.
Qed.

(** X16.  With any rounding to a nearest integer, the full proportion of a
    size of magnitude at most 2^50 is the size itself. *)
Theorem portion_full (size : Z) (Hsize : (Z.abs size <= 2 ^ 50)%Z) :
  portion Rnd fullPortion size = size.
Proof. unfold portion. by apply Rnd_full. Qed.

(** X17.  With any rounding to a nearest integer, the share a positive
    normal proportion of at most 1 takes of a size between 0 and 2^50 is
    between 0 and the size. *)
Theorem portion_bounds (p : proportion) (size : Z)
    (Hfin : is_finite p = true)
    (Hp : bpow (-1022) <= F2R p <= 1)
    (Hsize : (0 <= size <= 2 ^ 50)%Z) :
  (0 <= portion Rnd p size <= size)%Z.
Proof.
  unfold portion. destruct (float_of_int_small size ltac:(lia)) as [Hf Hv].
  pose proof (bpow_pos (-1022)) as Hpos.
  destruct (Z.eq_dec size 0%Z) as [-> | Hnz].
  - assert (Hz : exists s, Prim2SF (float_of_int 0 * p)%float = S754_zero s).
    { change (float_of_int 0) with 0%float. rewrite mul_spec.
      destruct (SF2R_nonzero_finite (Prim2SF p)) as (sp & mp & ep & Hpf).
      { fold (F2R p). lra. }
      rewrite Hpf. by eexists. }
    destruct Hz as [s Hz].
    assert (Hfz : is_finite (float_of_int 0 * p)%float = true)
      by (unfold is_finite; by rewrite Hz).
    pose proof (Rnd_nearest _ Hfz) as H. unfold F2R in H. rewrite Hz in H.
    simpl SF2R in H. rewrite Rminus_0_r in H.
    assert (Rnd (float_of_int 0 * p)%float = 0%Z) as ->; [|lia].
    apply IZR_close. rewrite Rminus_0_r. lra.
  - assert (H1 : 1 <= IZR size) by (apply IZR_le; lia).
    assert (H50 : IZR size <= 1125899906842624).
    { apply IZR_le. change 1125899906842624%Z with (2 ^ 50)%Z. lia. }
    assert (Hbig : 1125899906842624 < bpow 1023).
    { assert (bpow 51 <= bpow 1023) by (apply bpow_le; lia).
      rewrite (bpow_pos_val 51) in H.
      change (2 ^ 51)%Z with 2251799813685248%Z in H. lra. }
    assert (Hprod : 0 <= IZR size * F2R p) by nra.
    destruct (mul_error (float_of_int size) p) as [Hfm Hm].
    + rewrite Hv, Rabs_pos_eq; nra.
    + rewrite Rabs_pos_eq; lra.
    + rewrite Hv, Rabs_pos_eq; nra.
    + rewrite Hv, Rabs_pos_eq; nra.
    + rewrite Hv, (Rabs_pos_eq (IZR size * F2R p)), bpow_m53 in Hm by done.
      pose proof (Rnd_nearest _ Hfm) as HR.
      set (g := F2R (float_of_int size * p)%float) in *.
      set (r := Rnd (float_of_int size * p)%float) in *.
      apply Rabs_le_inv in Hm. apply Rabs_le_inv in HR.
      assert (Hlo : -1 < IZR r) by nra.
      assert (Hhi : IZR r < IZR size + 1) by nra.
      rewrite <- plus_IZR in Hhi. apply lt_IZR in Hlo, Hhi. lia.
Qed.

(** X18.  With any rounding to a nearest integer, [MoveResize] on a split
    whose only child is a leaf of proportion 1.0 frames that leaf's client
    and moves it to the whole rectangle (width and height of magnitude at
    most 2^50). *)
Theorem lone_child_fills_split (fuel : nat) (s c : ref) (o : object) (l : leaf)
    (x y width height : Z) (w : world)
    (Hs : heap w !! s = Some o)
    (Hcs : (exists hs, o = HSplit hs /\ split_children hs = [c])
           \/ (exists vs, o = VSplit vs /\ split_children vs = [c]))
    (Hc : heap w !! c = Some (Leaf l))
    (Hp : leaf_prop l = fullPortion)
    (Hw : (Z.abs width <= 2 ^ 50)%Z) (Hh : (Z.abs height <= 2 ^ 50)%Z) :
  MoveResize Rnd (S (S fuel)) s x y width height w
  = Ok (tt, mkWorld (heap w)
              (calls w ++ [FrameTile (leaf_client l);
                           ClientMoveResize (leaf_client l) x y width height])).
Proof.
  destruct Hcs as [(hs & -> & Hcs) | (vs & -> & Hcs)].
  - cbn [MoveResize]. rewrite (bind_Ok_l _ _ _ _ _ (deref_lookup _ _ _ Hs)).
    rewrite Hcs. cbn [range_fold].
    unfold bind at 1.
    rewrite (bind_Ok_l _ _ _ _ _ (hsplit_leaf_step Rnd fuel c l x y width height w Hc)).
    unfold ret, portion. by rewrite Hp, (Rnd_full width Hw).
  - cbn [MoveResize]. rewrite (bind_Ok_l _ _ _ _ _ (deref_lookup _ _ _ Hs)).
    rewrite Hcs. cbn [range_fold].
    unfold bind at 1.
    rewrite (bind_Ok_l _ _ _ _ _ (vsplit_leaf_step Rnd fuel c l x y width height w Hc)).
    unfold ret, portion. by rewrite Hp, (Rnd_full height Hh).
Qed.

End Rounding.

Lemma portion_full_witness : portion Round fullPortion 100 = 100.
Proof.
  apply (portion_full Round (fun f _ => Round_error f) 100). simpl. lia.
Defined.

Lemma portion_bounds_witness : 0 <= portion Round 0.5%float 100 <= 100.
Proof.
  apply (portion_bounds Round (fun f _ => Round_error f) 0.5%float 100).
  - reflexivity.
  - assert (H : F2R 0.5%float = (/ 2)%R).
    { unfold F2R.
      change (Prim2SF 0.5%float) with (S754_finite false 4503599627370496 (-53)).
      unfold SF2R. rewrite bpow_neg_val.
      change (2 ^ 53)%Z with 9007199254740992%Z. lra. }
    rewrite H. split; [|lra].
    eapply Rle_trans; [apply (bpow_le (-1022) (-1)); lia|].
    rewrite bpow_neg_val. change (2 ^ 1)%Z with 2%Z. lra.
  - simpl. lia.
Defined.

Lemma lone_child_fills_split_witness :
  MoveResize Round 2 0%nat 5 6 100 50 world1
  = Ok (tt, mkWorld (heap world1)
              (calls world1
               ++ [FrameTile (leaf_client (mkLeaf (Some 0%nat) 10%nat 1%float));
                   ClientMoveResize (leaf_client (mkLeaf (Some 0%nat) 10%nat 1%float))
                     5 6 100 50])).
Proof.
  apply (lone_child_fills_split Round (fun f _ => Round_error f) 0 0%nat 1%nat
           (HSplit (mkSplit None [1%nat] 0%float))
           (mkLeaf (Some 0%nat) 10%nat 1%float) 5 6 100 50 world1).
  - reflexivity.
  - left. eexists. split; reflexivity.
  - reflexivity.
  - reflexivity.
  - simpl. lia.
  - simpl. lia.
Defined.

Lemma sum_heights_app (l1 l2 : list call) :
  sum_heights (l1 ++ l2) = sum_heights l1 + sum_heights l2.
Proof.
  induction l1 as [|[c|c x y w h] l1 IH]; simpl; lia.
Qed.

(** The loop of [vsplit.MoveResize] over leaf children of one proportion. *)
Lemma vsplit_loop_leaves (fuel : nat) (p : proportion) (x width height : Z)
    (cs : list ref) :
  forall (nexty : Z) (w : world),
    (forall c, c ∈ cs ->
       exists l, heap w !! c = Some (Leaf l) /\ leaf_prop l = p) ->
    exists nexty' w',
      range_fold cs (fun nexty child =>
        let* p := Proportion child in
        let ht := portion Round p height in
        MoveResize Round (S fuel) child x nexty width ht ;;
        ret (wrap64 (nexty + ht))) nexty w = Ok (nexty', w')
      /\ heap w' = heap w
      /\ exists log, calls w' = calls w ++ log
                     /\ sum_heights log
                        = Z.of_nat (length cs) * portion Round p height.
Proof.
  induction cs as [|c cs IH]; intros nexty w Hcs.
  - exists nexty, w. split; [done|]. split; [done|]. exists [].
    split; [by rewrite app_nil_r | simpl; lia].
  - destruct (Hcs c) as (l & Hc & Hp); [left|].
    cbn [range_fold].
    rewrite (bind_Ok_l _ _ _ _ _
               (vsplit_leaf_step Round fuel c l x nexty width height w Hc)).
    edestruct IH as (nexty' & w' & Hrun & Hheap & log & Hlog & Hsum);
      [|rewrite Hrun].
    { intros c' Hc'. cbn [heap]. apply Hcs. by right. }
    exists nexty', w'. split; [done|]. split; [done|]. eexists.
    split; [rewrite Hlog; cbn [calls]; by rewrite <- app_assoc|].
    rewrite sum_heights_app, Hsum, Hp. cbn [sum_heights length]. lia.
Qed.

(** X19.  For a vertical split with [N >= 1] leaves, each of proportion
    [1.0 / float64(N)], and a height [H] of magnitude at most 2^50,
    [MoveResize] returns, changes no node, and the heights it hands to the
    clients add up to [H] within [N] ([misc.Round] as rounding to the
    nearest integer). *)
Theorem vsplit_equal_shares_cover_height (fuel : nat) (s : ref) (vs : split)
    (x y W H : Z) (w : world)
    (Hs : heap w !! s = Some (VSplit vs))
    (HN : 1 <= Z.of_nat (length (split_children vs)) < 2 ^ 63)
    (Hleaves : forall c, c ∈ split_children vs ->
       exists l, heap w !! c = Some (Leaf l)
                 /\ leaf_prop l
                    = (fullPortion
                       / float_of_int (Z.of_nat (length (split_children vs))))%float)
    (HH : Z.abs H <= 2 ^ 50) :
  exists w', MoveResize Round (S (S fuel)) s x y W H w = Ok (tt, w')
             /\ heap w' = heap w
             /\ exists log, calls w' = calls w ++ log
                  /\ Z.abs (sum_heights log - H)
                     <= Z.of_nat (length (split_children vs)).
Proof.
  destruct (vsplit_loop_leaves fuel _ x W H (split_children vs) y w Hleaves)
    as (nexty' & w' & Hrun & Hheap & log & Hlog & Hsum).
  exists w'. split; [|split; [done|]].
  - cbn [MoveResize]. rewrite (bind_Ok_l _ _ _ _ _ (deref_lookup _ _ _ Hs)).
    by rewrite (bind_Ok_l _ _ _ _ _ Hrun).
  - exists log. split; [done|]. rewrite Hsum.
    by apply equal_share_width.
Qed.

Lemma vsplit_equal_shares_cover_height_witness :
  exists w', MoveResize Round 2 4%nat 0 0 100 51 world_nested = Ok (tt, w')
             /\ heap w' = heap world_nested
             /\ exists log, calls w' = calls world_nested ++ log
                  /\ Z.abs (sum_heights log - 51) <= 2.
Proof.
  apply (vsplit_equal_shares_cover_height 0 4%nat
           (mkSplit (Some 0%nat) [2%nat; 3%nat] 0.5%float) 0 0 100 51 world_nested).
  - reflexivity.
  - simpl. lia.
  - intros c Hc. simpl in Hc.
    apply elem_of_cons in Hc as [->|Hc]; [eexists; split; reflexivity|].
    apply elem_of_cons in Hc as [->|Hc]; [eexists; split; reflexivity|].
    by apply not_elem_of_nil in Hc.
  - simpl. lia.
Defined.

(** ** Swapping clients *)

Lemma set_client_same (l : leaf) : set_client (leaf_client l) (Leaf l) = Leaf l.
Proof. by destruct l. Qed.

Lemma world_eta (w : world) : mkWorld (heap w) (calls w) = w.
Proof. by destruct w. Qed.

(** What [switchClients] does when both lookups find a leaf. *)
Lemma switchClients_found fuel t c1 c2 w r1 r2 l1 l2 :
  findLeaf fuel t c1 w = Ok (Some r1, w) ->
  findLeaf fuel t c2 w = Ok (Some r2, w) ->
  heap w !! r1 = Some (Leaf l1) -> heap w !! r2 = Some (Leaf l2) ->
  switchClients fuel t c1 c2 w
  = Ok (tt, mkWorld
              (<[r2 := Leaf (mkLeaf (leaf_parent l2) (leaf_client l1) (leaf_prop l2))]>
                 (<[r1 := Leaf (mkLeaf (leaf_parent l1) (leaf_client l2) (leaf_prop l1))]>
                    (heap w)))
              (calls w)).
Proof.
  intros H1 H2 Hr1 Hr2. unfold switchClients.
  rewrite (bind_Ok_l _ _ _ _ _ H1), (bind_Ok_l _ _ _ _ _ H2).
  rewrite (bind_Ok_l _ _ _ _ _ (deref_leaf_lookup _ _ _ Hr1)).
  rewrite (bind_Ok_l _ _ _ _ _ (deref_leaf_lookup _ _ _ Hr2)).
  rewrite (bind_Ok_l _ _ _ _ _ (modify_lookup _ _ _ _ Hr1)).
  set (h1 := <[r1 := set_client (leaf_client l2) (Leaf l1)]> (heap w)).
  destruct (decide (r1 = r2)) as [<-|Hne].
  - assert (l2 = l1) as -> by congruence.
    assert (Hh1 : heap (mkWorld h1 (calls w)) !! r1
                  = Some (set_client (leaf_client l1) (Leaf l1)))
      by (subst h1; simpl; by rewrite lookup_insert_eq).
    by rewrite (modify_lookup _ _ _ _ Hh1).
  - assert (Hh1 : heap (mkWorld h1 (calls w)) !! r2 = Some (Leaf l2))
      by (subst h1; simpl; by rewrite lookup_insert_ne).
    by rewrite (modify_lookup _ _ _ _ Hh1).
Qed.

(** X20.  Whenever the lookup of [c] returns, [switchClients(c, c)] returns
    in the world it started from. *)
Theorem switchClients_same_client (fuel : nat) (t : tree) (c : Client)
    (w w1 : world) (lf : option ref)
    (Hfind : findLeaf fuel t c w = Ok (lf, w1)) :
  switchClients fuel t c c w = Ok (tt, w).
Proof.
  destruct (findLeaf_Ok _ _ _ _ _ _ Hfind) as [-> Hl].
  destruct lf as [r|].
  - destruct (Hl r eq_refl) as (l & Hr & Hc).
    rewrite (switchClients_found _ _ _ _ _ _ _ _ _ Hfind Hfind Hr Hr).
    assert (Leaf (mkLeaf (leaf_parent l) (leaf_client l) (leaf_prop l)) = Leaf l)
      as -> by (clear; destruct l; reflexivity).
    rewrite insert_insert_eq, (insert_id _ _ _ Hr). by rewrite world_eta.
  - unfold switchClients. by rewrite !(bind_Ok_l _ _ _ _ _ Hfind).
Qed.

Lemma switchClients_same_client_witness :
  switchClients 3 tree0 10%nat 10%nat world_nested = Ok (tt, world_nested).
Proof.
  apply (switchClients_same_client 3 tree0 10%nat world_nested world_nested
           (Some 1%nat)).
  vm_compute. reflexivity.
Defined.

(** X21.  Whenever the lookups of the two clients return,
    [switchClients(c1, c2)] and [switchClients(c2, c1)] have the same
    result. *)
Theorem switchClients_comm (fuel : nat) (t : tree) (c1 c2 : Client)
    (w w1 w2 : world) (lf1 lf2 : option ref)
    (H1 : findLeaf fuel t c1 w = Ok (lf1, w1))
    (H2 : findLeaf fuel t c2 w = Ok (lf2, w2)) :
  switchClients fuel t c1 c2 w = switchClients fuel t c2 c1 w.
Proof.
  destruct (findLeaf_Ok _ _ _ _ _ _ H1) as [-> Hl1].
  destruct (findLeaf_Ok _ _ _ _ _ _ H2) as [-> Hl2].
  destruct lf1 as [r1|], lf2 as [r2|];
    try (unfold switchClients;
         by rewrite ?(bind_Ok_l _ _ _ _ _ H1), ?(bind_Ok_l _ _ _ _ _ H2),
                    ?(bind_Ok_l _ _ _ _ _ H1)).
  destruct (Hl1 r1 eq_refl) as (l1 & Hr1 & Hc1).
  destruct (Hl2 r2 eq_refl) as (l2 & Hr2 & Hc2).
  rewrite (switchClients_found _ _ _ _ _ _ _ _ _ H1 H2 Hr1 Hr2).
  rewrite (switchClients_found _ _ _ _ _ _ _ _ _ H2 H1 Hr2 Hr1).
  do 3 f_equal. destruct (decide (r1 = r2)) as [<-|Hne].
  - assert (l2 = l1) as -> by congruence. done.
  - by apply insert_insert_ne.
Qed.

Lemma switchClients_comm_witness :
  switchClients 3 tree0 10%nat 30%nat world_nested
  = switchClients 3 tree0 30%nat 10%nat world_nested.
Proof.
  apply (switchClients_comm 3 tree0 10%nat 30%nat world_nested world_nested
           world_nested (Some 1%nat) (Some 3%nat)); vm_compute; reflexivity.
Defined.

(** [findLeaf] on a tree whose leaves are [ls]. *)
Lemma findLeaf_find fuel t c w root ls :
  child t = Some root -> leaves (heap w) fuel root = Some ls ->
  findLeaf fuel t c w = Ok (find (holds_client (heap w) c) ls, w).
Proof.
  intros Ht Hls. unfold findLeaf. rewrite Ht. unfold bind.
  rewrite (VisitLeafNodes_leaves _ (heap w) (findLeaf_visit_heap c)
             fuel root ls Hls None w eq_refl).
  rewrite visit_find by (by eapply leaves_are_leaves).
  by destruct (find _ ls).
Qed.

Lemma all_leaves_ext rec1 rec2 cs :
  (forall c, rec1 c = rec2 c) -> all_leaves rec1 cs = all_leaves rec2 cs.
Proof.
  intros Hrec. induction cs as [|c cs IH]; simpl; [done|].
  by rewrite Hrec, IH.
Qed.

(** Replacing a leaf by a leaf does not change the shape of the tree. *)
Lemma leaves_insert_leaf h r l l' fuel :
  h !! r = Some (Leaf l) ->
  forall n, leaves (<[r := Leaf l']> h) fuel n = leaves h fuel n.
Proof.
  intros Hr. induction fuel as [|fuel IH]; intros n; [done|]. simpl.
  destruct (decide (n = r)) as [->|Hne].
  - by rewrite lookup_insert_eq, Hr.
  - rewrite lookup_insert_ne by done.
    destruct (h !! n) as [[s|s|l0]|]; try done; by apply all_leaves_ext.
Qed.

Lemma clients_of_elem h ls r l :
  r ∈ ls -> h !! r = Some (Leaf l) -> leaf_client l ∈ clients_of h ls.
Proof.
  intros Hr Hl. unfold clients_of. apply list_elem_of_omap.
  exists r. split; [done|]. by rewrite Hl.
Qed.

Lemma clients_unique h ls :
  NoDup (clients_of h ls) ->
  forall r r' l l',
    r ∈ ls -> r' ∈ ls -> h !! r = Some (Leaf l) -> h !! r' = Some (Leaf l') ->
    leaf_client l = leaf_client l' -> r = r'.
Proof.
  induction ls as [|a ls IH]; intros Hnd r r' l l' Hr Hr' Hl Hl' Hc;
    [by apply not_elem_of_nil in Hr|].
  destruct (decide (r = r')) as [|Hne]; [done|]. exfalso.
  unfold clients_of in Hnd. simpl in Hnd. fold (clients_of h ls) in Hnd.
  apply elem_of_cons in Hr as [-> | Hr]; apply elem_of_cons in Hr' as [-> | Hr'];
    try done.
  - rewrite Hl in Hnd. apply NoDup_cons in Hnd as [Hnotin _].
    apply Hnotin. rewrite Hc. by eapply clients_of_elem.
  - rewrite Hl' in Hnd. apply NoDup_cons in Hnd as [Hnotin _].
    apply Hnotin. rewrite <- Hc. by eapply clients_of_elem.
  - apply Hne. eapply IH; try done.
    destruct (h !! a) as [[| |la]|]; try done. by apply NoDup_cons in Hnd as [_ ?].
Qed.

Lemma find_unique {A} (f : A -> bool) (ls : list A) (r : A) :
  r ∈ ls -> f r = true -> (forall x, x ∈ ls -> f x = true -> x = r) ->
  find f ls = Some r.
Proof.
  induction ls as [|a ls IH]; intros Hr Hfr Huniq;
    [by apply not_elem_of_nil in Hr|].
  simpl. destruct (f a) eqn:Hfa.
  - f_equal. apply Huniq; [left | done].
  - apply elem_of_cons in Hr as [-> | Hr]; [congruence|].
    apply IH; [done..|]. intros x Hx. apply Huniq. by right.
Qed.

Lemma holds_client_true h c r :
  holds_client h c r = true <-> exists l, h !! r = Some (Leaf l) /\ leaf_client l = c.
Proof.
  unfold holds_client. destruct (h !! r) as [[| |l]|]; split;
    try done; try (by intros (? & ? & ?)).
  - intros H. apply bool_decide_eq_true in H. eauto.
  - intros (l' & [= <-] & H). by apply bool_decide_eq_true.
Qed.

(** X22.  On a tree whose leaves hold pairwise different clients,
    [switchClients(c1, c2)] run twice returns in the world it started
    from. *)
Theorem switchClients_twice (fuel : nat) (t : tree) (c1 c2 : Client) (w : world)
    (root : ref) (ls : list ref)
    (Ht : child t = Some root)
    (Hls : leaves (heap w) fuel root = Some ls)
    (Hnd : NoDup (clients_of (heap w) ls)) :
  (switchClients fuel t c1 c2 ;; switchClients fuel t c1 c2) w = Ok (tt, w).
Proof.
  pose proof (findLeaf_find fuel t c1 w root ls Ht Hls) as H1.
  pose proof (findLeaf_find fuel t c2 w root ls Ht Hls) as H2.
  destruct (find (holds_client (heap w) c1) ls) as [r1|] eqn:Hf1; cycle 1.
  { assert (Hsw : switchClients fuel t c1 c2 w = Ok (tt, w)).
    { unfold switchClients.
      rewrite (bind_Ok_l _ _ _ _ _ H1), (bind_Ok_l _ _ _ _ _ H2). done. }
    by rewrite (bind_Ok_l _ _ _ _ _ Hsw). }
  destruct (find (holds_client (heap w) c2) ls) as [r2|] eqn:Hf2; cycle 1.
  { assert (Hsw : switchClients fuel t c1 c2 w = Ok (tt, w)).
    { unfold switchClients.
      rewrite (bind_Ok_l _ _ _ _ _ H1), (bind_Ok_l _ _ _ _ _ H2). done. }
    by rewrite (bind_Ok_l _ _ _ _ _ Hsw). }
  apply find_some in Hf1 as [Hin1 Hh1]. apply find_some in Hf2 as [Hin2 Hh2].
  apply list_elem_of_In in Hin1, Hin2.
  apply holds_client_true in Hh1 as (l1 & Hr1 & Hc1).
  apply holds_client_true in Hh2 as (l2 & Hr2 & Hc2).
  rewrite (bind_Ok_l _ _ _ _ _
             (switchClients_found _ _ _ _ _ _ _ _ _ H1 H2 Hr1 Hr2)).
  destruct (decide (r1 = r2)) as [<-|Hne].
  { assert (l2 = l1) as -> by congruence.
    assert (c2 = c1) as -> by congruence.
    assert (Leaf (mkLeaf (leaf_parent l1) (leaf_client l1) (leaf_prop l1)) = Leaf l1)
      as -> by (clear; destruct l1; reflexivity).
    rewrite insert_insert_eq, (insert_id _ _ _ Hr1), world_eta.
    rewrite (switchClients_found _ _ _ _ _ _ _ _ _ H1 H1 Hr1 Hr1).
    assert (Leaf (mkLeaf (leaf_parent l1) (leaf_client l1) (leaf_prop l1)) = Leaf l1)
      as -> by (clear; destruct l1; reflexivity).
    by rewrite insert_insert_eq, (insert_id _ _ _ Hr1), world_eta. }
  assert (Hc12 : c1 <> c2).
  { intros <-. apply Hne. eapply (clients_unique _ _ Hnd); try done. congruence. }
  set (L1 := mkLeaf (leaf_parent l1) (leaf_client l2) (leaf_prop l1)).
  set (L2 := mkLeaf (leaf_parent l2) (leaf_client l1) (leaf_prop l2)).
  set (h' := <[r2 := Leaf L2]> (<[r1 := Leaf L1]> (heap w))).
  set (w' := mkWorld h' (calls w)).
  assert (Hr1' : h' !! r1 = Some (Leaf L1)).
  { subst h'. rewrite lookup_insert_ne by done. by rewrite lookup_insert_eq. }
  assert (Hr2' : h' !! r2 = Some (Leaf L2)).
  { subst h'. by rewrite lookup_insert_eq. }
  assert (Hother : forall x, x <> r1 -> x <> r2 -> h' !! x = heap w !! x).
  { intros x Hx1 Hx2. subst h'. by rewrite !lookup_insert_ne. }
  assert (Hls' : leaves h' fuel root = Some ls).
  { subst h'. rewrite (leaves_insert_leaf _ _ l2) by (by rewrite lookup_insert_ne).
    by rewrite (leaves_insert_leaf _ _ l1). }
  assert (Hf1' : find (holds_client h' c1) ls = Some r2).
  { apply find_unique; [done | apply holds_client_true; eexists; split; [done|]; simpl; done |].
    intros x Hx Hhx. apply holds_client_true in Hhx as (lx & Hlx & Hcx).
    destruct (decide (x = r2)) as [|Hx2]; [done|]. exfalso.
    destruct (decide (x = r1)) as [->|Hx1].
    - rewrite Hr1' in Hlx. injection Hlx as <-. simpl in Hcx. congruence.
    - rewrite Hother in Hlx by done. apply Hx1.
      eapply (clients_unique _ _ Hnd); try done. congruence. }
  assert (Hf2' : find (holds_client h' c2) ls = Some r1).
  { apply find_unique; [done | apply holds_client_true; eexists; split; [done|]; simpl; done |].
    intros x Hx Hhx. apply holds_client_true in Hhx as (lx & Hlx & Hcx).
    destruct (decide (x = r1)) as [|Hx1]; [done|]. exfalso.
    destruct (decide (x = r2)) as [->|Hx2].
    - rewrite Hr2' in Hlx. injection Hlx as <-. simpl in Hcx. congruence.
    - rewrite Hother in Hlx by done. apply Hx2.
      eapply (clients_unique _ _ Hnd); try done. congruence. }
  pose proof (findLeaf_find fuel t c1 w' root ls Ht Hls') as H1'.
  pose proof (findLeaf_find fuel t c2 w' root ls Ht Hls') as H2'.
  cbn [heap w'] in H1', H2'. rewrite Hf1' in H1'. rewrite Hf2' in H2'.
  rewrite (switchClients_found _ _ _ _ _ _ _ _ _ H1' H2' Hr2' Hr1').
  assert (Hw : forall h c, h = heap w -> c = calls w -> mkWorld h c = w)
    by (intros ? ? -> ->; apply world_eta).
  do 2 f_equal. apply Hw; [|done]. cbn [heap].
  apply map_eq. intros x. subst L1 L2. simpl.
  destruct (decide (x = r1)) as [->|Hx1].
  - rewrite lookup_insert_eq, Hr1. by destruct l1.
  - rewrite lookup_insert_ne by done.
    destruct (decide (x = r2)) as [->|Hx2].
    + rewrite lookup_insert_eq, Hr2. by destruct l2.
    + rewrite lookup_insert_ne by done. by apply Hother.
Qed.

Lemma switchClients_twice_witness :
  (switchClients 3 tree0 10%nat 30%nat ;; switchClients 3 tree0 10%nat 30%nat)
    world_nested
  = Ok (tt, world_nested).
Proof.
  apply (switchClients_twice 3 tree0 10%nat 30%nat world_nested 0%nat
           [1%nat; 2%nat; 3%nat]).
  - reflexivity.
  - vm_compute. reflexivity.
  - compute_done.
Defined.

(** ** Insertion and removal return *)

Lemma props_of_cons h c cs :
  props_of h (c :: cs)
  = match h !! c with
    | Some o => obj_prop o :: props_of h cs
    | None => props_of h cs
    end.
Proof. unfold props_of. simpl. by destruct (h !! c). Qed.

Lemma props_of_length h cs : (length (props_of h cs) <= length cs)%nat.
Proof.
  induction cs as [|c cs IH]; [done|]. rewrite props_of_cons.
  destruct (h !! c); simpl; lia.
Qed.

Lemma sum_from_fsum h cs :
  forall acc,
    length (props_of h cs) = length cs ->
    sum_from h cs acc = Some (fsum (props_of h cs) acc).
Proof.
  induction cs as [|c cs IH]; intros acc Hlen; [done|].
  rewrite props_of_cons in *. cbn [sum_from].
  destruct (h !! c) as [o|].
  - cbn [fsum]. apply IH. cbn [length] in Hlen. lia.
  - pose proof (props_of_length h cs). cbn [length] in Hlen. lia.
Qed.

Section Summation.

Local Open Scope R_scope.

Lemma Rsum_app ps qs : Rsum (ps ++ qs) = Rsum ps + Rsum qs.
Proof. induction ps as [|p ps IH]; simpl; [lra | rewrite IH; lra]. Qed.

(** The binary64 sum of at most 800 proportions of size at most 4 is
    within 2^-42 per term of the sum of their values. *)
Lemma fsum_error ps :
  forall acc,
    is_finite acc = true -> Forall (within 4) ps ->
    Rabs (F2R acc) + 5 * IZR (Z.of_nat (length ps)) <= 4000 ->
    is_finite (fsum ps acc) = true
    /\ Rabs (F2R (fsum ps acc) - (F2R acc + Rsum ps))
       <= IZR (Z.of_nat (length ps)) * bpow (-42).
Proof.
  assert (H12 : bpow 12 = 4096) by (by rewrite bpow_pos_val).
  assert (Hm42 : bpow (-42) = / 4398046511104) by (by rewrite bpow_neg_val).
  induction ps as [|p ps IH]; intros acc Hfin Hps Hbound.
  - cbn [fsum Rsum length]. change (Z.of_nat 0) with 0%Z. split; [done|].
    rewrite Rplus_0_r, Rminus_diag, Rabs_R0. lra.
  - apply Forall_cons in Hps as [[Hfp Hp] Hps].
    cbn [length] in Hbound |- *. rewrite Nat2Z.inj_succ, succ_IZR in Hbound |- *.
    assert (Hlen : 0 <= IZR (Z.of_nat (length ps))) by (apply IZR_le; lia).
    pose proof (Rabs_pos (F2R acc)) as Hacc0.
    apply Rabs_le_inv in Hp.
    assert (Hacc := Rabs_le_inv _ _ (Rle_refl (Rabs (F2R acc)))).
    destruct (add_error acc p 12 Hfin Hfp) as [Hfa Ha]; [|lia|].
    { rewrite H12. apply Rabs_def1; lra. }
    change (fexp prec emax 12) with (-41)%Z in Ha.
    assert (Hm41 : bpow (-41) = / 2199023255552) by (by rewrite bpow_neg_val).
    rewrite Hm41 in Ha. apply Rabs_le_inv in Ha.
    destruct (IH (acc + p)%float Hfa Hps) as [Hfs Hs].
    { assert (Rabs (F2R (acc + p)%float) <= Rabs (F2R acc) + 5); [|lra].
      apply Rabs_le. lra. }
    cbn [fsum Rsum]. split; [done|]. rewrite Hm42 in *.
    apply Rabs_le_inv in Hs. apply Rabs_le. lra.
Qed.

(** Taking [chop] off each of the proportions [ps]. *)
Lemma Rsum_map_sub (chop : float) (ps : list proportion) :
  is_finite chop = true -> 0 <= F2R chop <= 1 ->
  Forall (within 2) ps ->
  Forall (within 4) (map (fun p => (p - chop)%float) ps)
  /\ Rabs (Rsum (map (fun p => (p - chop)%float) ps)
           - (Rsum ps - IZR (Z.of_nat (length ps)) * F2R chop))
     <= IZR (Z.of_nat (length ps)) * bpow (-52).
Proof.
  intros Hfc Hc. assert (H2 : bpow 2 = 4) by (by rewrite bpow_pos_val).
  assert (Hm52 : bpow (-52) = / 4503599627370496) by (by rewrite bpow_neg_val).
  induction 1 as [|p ps [Hfp Hp] Hps [IH1 IH2]].
  - cbn [map Rsum length]. change (Z.of_nat 0) with 0%Z. split; [done|].
    rewrite !Rmult_0_l, !Rminus_0_r, Rabs_R0. lra.
  - cbn [length map Rsum]. rewrite Nat2Z.inj_succ, succ_IZR.
    apply Rabs_le_inv in Hp.
    destruct (sub_error p chop 2 Hfp Hfc) as [Hfd Hd]; [|lia|].
    { rewrite H2. apply Rabs_def1; lra. }
    change (fexp prec emax 2) with (-51)%Z in Hd.
    assert (Hm51 : bpow (-51) = / 2251799813685248) by (by rewrite bpow_neg_val).
    rewrite Hm51 in Hd. apply Rabs_le_inv in Hd. split.
    + constructor; [|done]. split; [done|]. apply Rabs_le. lra.
    + rewrite Hm52 in *. apply Rabs_le_inv in IH2. apply Rabs_le. lra.
Qed.

(** The new node's proportion and the amount taken off each of [k]
    children, for [k] between 1 and 500. *)
Lemma newProp_chop (k : Z) :
  (1 <= k <= 500)%Z ->
  let newProp := (fullPortion / float_of_int (k + 1))%float in
  let chop := (newProp / float_of_int k)%float in
  is_finite newProp = true /\ is_finite chop = true
  /\ 0 <= F2R chop <= 1 /\ within 4 newProp
  /\ Rabs (F2R newProp - IZR k * F2R chop) <= bpow (-50).
Proof.
  intros Hk newProp chop.
  destruct (float_of_int_small (k + 1)) as [Hf1 Hv1]; [lia|].
  destruct (float_of_int_small k) as [Hfk Hvk]; [lia|].
  assert (Hkr : 1 <= IZR k <= 500) by (split; apply IZR_le; lia).
  rewrite plus_IZR in Hv1.
  assert (Hm1020 : bpow (-1020) <= / 1000000).
  { eapply Rle_trans; [apply (bpow_le (-1020) (-20)); lia|].
    rewrite bpow_neg_val. change (2 ^ 20)%Z with 1048576%Z.
    apply Rinv_le_contravar; lra. }
  assert (Hm1022 : bpow (-1022) <= bpow (-1020)) by (apply bpow_le; lia).
  assert (H1020 : 1000000 <= bpow 1020).
  { eapply Rle_trans; [|apply (bpow_le 20 1020); lia].
    rewrite bpow_pos_val. change (2 ^ 20)%Z with 1048576%Z. lra. }
  pose proof (bpow_pos (-1022)) as Hpos.
  assert (Hinv1 : / 501 <= / (IZR k + 1) <= / 2).
  { split; apply Rinv_le_contravar; lra. }
  assert (Hinvk : / 500 <= / IZR k <= 1).
  { split; [apply Rinv_le_contravar; lra|].
    rewrite <- Rinv_1. apply Rinv_le_contravar; lra. }
  destruct (div_error fullPortion (float_of_int (k + 1))) as [Hfn Hn].
  { unfold fullPortion. rewrite F2R_one, Rabs_R1. lra. }
  { rewrite Hv1, Rabs_pos_eq; lra. }
  { unfold fullPortion. rewrite F2R_one, Hv1. unfold Rdiv. rewrite Rmult_1_l.
    rewrite Rabs_pos_eq; lra. }
  { unfold fullPortion. rewrite F2R_one, Hv1. unfold Rdiv. rewrite Rmult_1_l.
    rewrite Rabs_pos_eq; lra. }
  fold newProp in Hfn, Hn. unfold fullPortion in Hn. rewrite F2R_one, Hv1 in Hn.
  unfold Rdiv in Hn. rewrite Rmult_1_l in Hn.
  rewrite (Rabs_pos_eq (/ (IZR k + 1))), bpow_m53 in Hn by lra.
  apply Rabs_le_inv in Hn.
  set (np := F2R newProp) in *.
  assert (Hnp : / 502 <= np <= 51 / 100) by lra.
  assert (Hq : / 251000 <= np * / IZR k <= 51 / 100).
  { split.
    - replace (/ 251000) with (/ 502 * / 500) by lra.
      apply Rmult_le_compat; lra.
    - assert (np * / IZR k <= 51 / 100 * 1) by (apply Rmult_le_compat; lra). lra. }
  destruct (div_error newProp (float_of_int k)) as [Hfc Hc].
  { fold np. rewrite Rabs_pos_eq; lra. }
  { rewrite Hvk, Rabs_pos_eq; lra. }
  { fold np. rewrite Hvk. unfold Rdiv. rewrite Rabs_pos_eq; lra. }
  { fold np. rewrite Hvk. unfold Rdiv. rewrite Rabs_pos_eq; lra. }
  fold chop in Hfc, Hc. fold np in Hc. rewrite Hvk in Hc. unfold Rdiv in Hc.
  rewrite (Rabs_pos_eq (np * / IZR k)), bpow_m53 in Hc by lra.
  apply Rabs_le_inv in Hc.
  set (ch := F2R chop) in *.
  assert (Hch : 0 <= ch <= 1) by lra.
  split; [done|]. split; [done|]. split; [done|]. split.
  - split; [done|]. fold np. rewrite Rabs_pos_eq; lra.
  - rewrite bpow_neg_val. change (2 ^ 50)%Z with 1125899906842624%Z.
    assert (Hkk : IZR k * (np * / IZR k) = np) by (field; lra).
    assert (Hd : - (/ 9007199254740992 * np) <= IZR k * ch - np
                 <= / 9007199254740992 * np).
    { rewrite <- Hkk at 2 4. split; nra. }
    apply Rabs_le. lra.
Qed.

End Summation.

Lemma props_of_app h cs1 cs2 :
  props_of h (cs1 ++ cs2) = props_of h cs1 ++ props_of h cs2.
Proof. apply omap_app. Qed.

Lemma props_of_allocated h cs :
  (forall c, c ∈ cs -> is_Some (h !! c)) -> length (props_of h cs) = length cs.
Proof.
  induction cs as [|c cs IH]; intros Hall; [done|]. rewrite props_of_cons.
  destruct (Hall c) as [o ->]; [left|]. cbn [length]. f_equal.
  apply IH. intros c' Hc'. apply Hall. by right.
Qed.

Lemma props_of_map (g : proportion -> proportion) w w' cs :
  (forall c, c ∈ cs ->
     exists p, prop_of w c = Some p /\ prop_of w' c = Some (g p)) ->
  props_of (heap w') cs = map g (props_of (heap w) cs).
Proof.
  induction cs as [|c cs IH]; intros Hcs; [done|]. rewrite !props_of_cons.
  destruct (Hcs c) as (p & Hp & Hp'); [left|]. unfold prop_of in Hp, Hp'.
  destruct (heap w !! c) as [o|]; [|done].
  destruct (heap w' !! c) as [o'|]; [|done].
  simpl in Hp, Hp'. injection Hp as ->. injection Hp' as ->.
  cbn [map]. f_equal. apply IH. intros c' Hc'. apply Hcs. by right.
Qed.

Lemma props_of_singleton w n p :
  prop_of w n = Some p -> props_of (heap w) [n] = [p].
Proof.
  unfold prop_of. intros H. rewrite props_of_cons.
  destruct (heap w !! n); [|done]. by injection H as ->.
Qed.

(** [addNode] up to its final check, on a container with distinct
    children that does not hold the node yet. *)
Lemma addNode_run s n last w sp on :
  deref_split s w = Ok (sp, w) ->
  NoDup (split_children sp) -> n ∉ split_children sp ->
  (forall c, c ∈ split_children sp -> is_Some (heap w !! c)) ->
  heap w !! n = Some on ->
  let cs := split_children sp in
  let newProp := (fullPortion / float_of_int (Z.of_nat (length cs) + 1))%float in
  let chop := (newProp / float_of_int (Z.of_nat (length cs)))%float in
  exists wc sp',
    addNode s n last w = checkPortions s wc
    /\ deref_split s wc = Ok (sp', wc)
    /\ split_children sp' = (if last then cs ++ [n] else n :: cs)
    /\ prop_of wc n = Some newProp
    /\ forall c, c ∈ cs ->
         exists p, prop_of w c = Some p /\ prop_of wc c = Some (p - chop)%float.
Proof.
  intros Hs Hnd Hfresh Hall Hn cs newProp chop.
  destruct (deref_split_Ok _ _ _ _ Hs) as (_ & o0 & Ho0 & _ & Hk0).
  assert (Hsplit0 : split_with cs o0) by (by exists sp).
  set (g := fun p : proportion => (p - chop)%float).
  assert (HA : exists wa,
             (if (0 <? length cs)%nat
              then range cs (fun child =>
                     let* p := Proportion child in SetProportion child (p - chop)%float)
              else ret tt) w = Ok (tt, wa)
             /\ forall r, heap wa !! r
                          = if decide (r ∈ cs) then map_prop g <$> heap w !! r
                            else heap w !! r).
  { destruct (0 <? length cs)%nat eqn:Hlen.
    - destruct (range_map_props g cs w Hnd Hall) as (wa & Hrun & _ & Hheap). eauto.
    - exists w. split; [done|]. intros r. rewrite decide_False; [done|].
      apply Nat.ltb_ge in Hlen. destruct cs; [apply not_elem_of_nil | simpl in Hlen; lia]. }
  destruct HA as (wa & HA & Hwa).
  assert (Hna : heap wa !! n = Some on) by (by rewrite Hwa, decide_False).
  pose proof (modify_lookup n (set_prop newProp) wa on Hna) as Hsetn.
  set (wb := mkWorld (<[n := set_prop newProp on]> (heap wa)) (calls wa)) in *.
  assert (Hsa : exists oa, heap wa !! s = Some oa /\ split_with cs oa).
  { rewrite Hwa, Ho0. destruct (decide (s ∈ cs)); eexists; (split; [done|]);
      [by apply split_with_set_prop | done]. }
  destruct Hsa as (oa & Hoa & Hsplita).
  assert (Hsb : exists ob, heap wb !! s = Some ob /\ split_with cs ob).
  { destruct (decide (s = n)) as [->|Hne].
    - destruct (modify_self _ _ _ _ _ Hsetn) as (on' & Hon & Hon').
      rewrite Hon'. eexists. split; [done|]. apply split_with_set_prop. congruence.
    - rewrite (modify_other _ _ _ _ _ s Hsetn) by done. eauto. }
  destruct Hsb as (ob & Hob & Hsplitb).
  pose proof (modify_lookup s
                (fun o => set_children
                            (if last then obj_children o ++ [n] else n :: obj_children o) o)
                wb ob Hob) as Hmod.
  cbv beta in Hmod. rewrite (split_with_children _ _ Hsplitb) in Hmod.
  set (wc := mkWorld _ (calls wb)) in Hmod.
  destruct (modify_self _ _ _ _ _ Hmod) as (ob' & Hob' & Hoc).
  assert (ob' = ob) as -> by congruence.
  rewrite (split_with_children _ _ Hsplitb) in Hoc.
  destruct (split_with_deref (if last then cs ++ [n] else n :: cs) s wc _ Hoc)
    as (sp' & Hs' & Hcs'); [by eapply split_with_set_children|].
  exists wc, sp'. split; [|split; [done|]; split; [done|]; split].
  - unfold addNode. rewrite (bind_Ok_l _ _ _ _ _ Hs). cbv zeta.
    fold cs. fold newProp. fold chop.
    rewrite (bind_Ok_l _ _ _ _ _ HA).
    unfold SetProportion. rewrite (bind_Ok_l _ _ _ _ _ Hsetn).
    by rewrite (bind_Ok_l _ _ _ _ _ Hmod).
  - rewrite (modify_prop_of _ _ _ _ _ Hmod) by (intros; apply obj_prop_set_children).
    unfold prop_of. destruct (modify_self _ _ _ _ _ Hsetn) as (on' & Hon & Hon').
    rewrite Hon'. simpl. by rewrite obj_prop_set_prop.
  - intros c Hc. destruct (Hall c Hc) as [oc Hoc'].
    exists (obj_prop oc). split; [unfold prop_of; by rewrite Hoc'|].
    rewrite (modify_prop_of _ _ _ _ _ Hmod) by (intros; apply obj_prop_set_children).
    unfold prop_of.
    rewrite (modify_other _ _ _ _ _ c Hsetn) by (by intros ->).
    rewrite Hwa, decide_True by done. rewrite Hoc'. simpl.
    unfold map_prop. by rewrite obj_prop_set_prop.
Qed.

(** The final check passes when the binary64 sum is close to 1. *)
Lemma checkPortions_passes s w sp (c : ref) (cs : list ref) :
  deref_split s w = Ok (sp, w) -> split_children sp = c :: cs ->
  length (props_of (heap w) (c :: cs)) = length (c :: cs) ->
  equal (fsum (props_of (heap w) (c :: cs)) 0) fullPortion = true ->
  checkPortions s w = Ok (tt, w).
Proof.
  intros Hs Hcs Hlen Heq. unfold checkPortions.
  rewrite (bind_Ok_l _ _ _ _ _ Hs), Hcs.
  change (length (c :: cs) =? 0)%nat with false. cbv iota.
  unfold bind at 1. rewrite range_fold_sum_run, (sum_from_fsum _ _ _ Hlen).
  by rewrite Heq.
Qed.

Section AddNodeReturns.

Local Open Scope R_scope.

(** The binary64 sum of the proportions after [addNode], in either
    order, is [equal] to 1. *)
Lemma sum_after_addNode (ps : list proportion) (last : bool) :
  ps <> [] -> (length ps <= 500)%nat ->
  Forall (within 2) ps ->
  Rabs (Rsum ps - 1) <= 9 / 100000 ->
  let k := Z.of_nat (length ps) in
  let newProp := (fullPortion / float_of_int (k + 1))%float in
  let chop := (newProp / float_of_int k)%float in
  let ps' := map (fun p => (p - chop)%float) ps in
  equal (fsum (if last then ps' ++ [newProp] else newProp :: ps') 0) fullPortion
  = true.
Proof.
  intros Hne Hlen Hps Hsum k newProp chop ps'.
  assert (Hk : (1 <= k <= 500)%Z).
  { subst k. destruct ps; [done|]. cbn [length] in *. lia. }
  destruct (newProp_chop k Hk) as (Hfn & Hfc & Hch & Hnp & Hd).
  fold newProp in Hfn, Hnp, Hd. fold chop in Hfc, Hch, Hd.
  destruct (Rsum_map_sub chop ps Hfc Hch Hps) as [Hps' Hsum'].
  fold ps' in Hps', Hsum'. fold k in Hsum'.
  remember (if last then ps' ++ [newProp] else newProp :: ps') as vals eqn:Hdef.
  assert (Hvals : Forall (within 4) vals).
  { subst vals. destruct last.
    - apply Forall_app. split; [done|]. constructor; [exact Hnp | constructor].
    - constructor; [exact Hnp | exact Hps']. }
  assert (Hlenv : length vals = S (length ps)).
  { subst vals ps'. destruct last; [rewrite length_app|]; cbn [length];
      rewrite length_map; [rewrite Nat.add_1_r|]; reflexivity. }
  assert (HR : Rsum vals = Rsum ps' + F2R newProp).
  { subst vals. destruct last; [rewrite Rsum_app|]; cbn [Rsum]; lra. }
  assert (Hkr : 1 <= IZR k <= 500) by (split; apply IZR_le; lia).
  destruct (fsum_error vals 0%float eq_refl Hvals) as [Hfs Hs].
  { unfold proportion in *.
    rewrite F2R_zero, Rabs_R0, Hlenv, Nat2Z.inj_succ, succ_IZR. fold k. lra. }
  unfold proportion in *.
  rewrite F2R_zero, Rplus_0_l, Hlenv, Nat2Z.inj_succ, succ_IZR, HR in Hs.
  fold k in Hs.
  assert (Hm42 : bpow (-42) = / 4398046511104) by (by rewrite bpow_neg_val).
  assert (Hm50 : bpow (-50) = / 1125899906842624) by (by rewrite bpow_neg_val).
  assert (Hm52 : bpow (-52) = / 4503599627370496) by (by rewrite bpow_neg_val).
  rewrite Hm42 in Hs. rewrite Hm50 in Hd. rewrite Hm52 in Hsum'.
  apply Rabs_le_inv in Hs, Hd, Hsum', Hsum.
  subst vals. apply equal_close; [exact Hfs | reflexivity |].
  unfold fullPortion. rewrite F2R_one. apply Rabs_le. lra.
Qed.

End AddNodeReturns.

(** X23.  [addNode] returns normally (its final check does not panic) on
    every container with at most 500 distinct children whose proportions
    are finite numbers of size at most 2 that add up, as real numbers, to
    1 within 0.00009, for every node that is allocated and not yet a
    child; and on every empty container. *)
Theorem addNode_returns (s n : ref) (last : bool) (w : world) (sp : split)
    (on : object)
    (Hs : deref_split s w = Ok (sp, w))
    (Hnd : NoDup (split_children sp))
    (Hfresh : n ∉ split_children sp)
    (Hn : heap w !! n = Some on)
    (Hall : forall c, c ∈ split_children sp -> is_Some (heap w !! c))
    (Hlen : (length (split_children sp) <= 500)%nat)
    (Hb : Forall (within 2) (props_of (heap w) (split_children sp)))
    (Hsum : split_children sp = []
            \/ (Rabs (Rsum (props_of (heap w) (split_children sp)) - 1)
                <= 9 / 100000)%R) :
  exists w', addNode s n last w = Ok (tt, w').
Proof.
  destruct (split_children sp) as [|c0 cs0] eqn:Hcs.
  { destruct (addNode_empty_world s n last w sp on Hs Hcs Hn) as (o1 & _ & _ & H).
    eauto. }
  destruct Hsum as [|Hsum]; [done|].
  destruct (addNode_run s n last w sp on Hs) as (wc & sp' & Heq & Hs' & Hcs' & Hpn & Hprops);
    rewrite ?Hcs; try done.
  rewrite Hcs in Hcs', Hpn, Hprops. cbv zeta in Hprops.
  set (cs := c0 :: cs0) in *.
  set (k := Z.of_nat (length cs)) in *.
  set (newProp := (fullPortion / float_of_int (k + 1))%float) in *.
  set (chop := (newProp / float_of_int k)%float) in *.
  set (ps := props_of (heap w) cs) in *.
  pose proof (props_of_allocated _ _ Hall) as Hlenps. fold ps in Hlenps.
  pose proof (props_of_map (fun p => (p - chop)%float) w wc cs Hprops) as Hmap.
  fold ps in Hmap.
  pose proof (props_of_singleton wc n newProp Hpn) as Hsingle.
  assert (Hvals : props_of (heap wc) (split_children sp')
                  = if last then map (fun p => (p - chop)%float) ps ++ [newProp]
                    else newProp :: map (fun p => (p - chop)%float) ps).
  { rewrite Hcs'. destruct last.
    - by rewrite props_of_app, Hmap, Hsingle.
    - change (n :: cs) with ([n] ++ cs). by rewrite props_of_app, Hmap, Hsingle. }
  exists wc. rewrite Heq.
  assert (Hne : exists c' cs', split_children sp' = c' :: cs').
  { rewrite Hcs'. destruct last; [|eauto]. subst cs. simpl. eauto. }
  destruct Hne as (c' & cs' & Hsp').
  apply (checkPortions_passes s wc sp' c' cs' Hs' Hsp'); rewrite <- Hsp'.
  - rewrite Hvals, Hcs'. destruct last; [rewrite !length_app|]; cbn [length];
      rewrite length_map; [rewrite !Nat.add_1_r|]; f_equal; exact Hlenps.
  - rewrite Hvals.
    assert (Hps_ne : ps <> []).
    { intros Hnil. rewrite Hnil in Hlenps. subst cs. done. }
    pose proof (sum_after_addNode ps last Hps_ne ltac:(lia) Hb Hsum) as H.
    cbv zeta in H. rewrite Hlenps in H. exact H.
Qed.

Lemma addNode_returns_witness :
  exists w', addNode 0%nat 3%nat false world2 = Ok (tt, w').
Proof.
  assert (Hhalf : F2R 0.5%float = (/ 2)%R).
  { unfold F2R.
    change (Prim2SF 0.5%float) with (S754_finite false 4503599627370496 (-53)).
    unfold SF2R. rewrite bpow_neg_val.
    change (2 ^ 53)%Z with 9007199254740992%Z. lra. }
  apply (addNode_returns 0%nat 3%nat false world2
           (mkSplit None [1%nat; 2%nat] 0%float)
           (Leaf (newLeaf None 30%nat))).
  - vm_compute. reflexivity.
  - compute_done.
  - compute_done.
  - reflexivity.
  - intros c Hc. cbn [split_children] in Hc.
    apply elem_of_cons in Hc as [->|Hc]; [eexists; reflexivity|].
    apply elem_of_cons in Hc as [->|Hc]; [eexists; reflexivity|].
    by apply not_elem_of_nil in Hc.
  - simpl. lia.
  - change (props_of (heap world2) (split_children (mkSplit None [1%nat; 2%nat] 0%float)))
      with [0.5%float; 0.5%float].
    repeat constructor; try reflexivity; rewrite Hhalf, Rabs_pos_eq; lra.
  - right.
    change (props_of (heap world2) (split_children (mkSplit None [1%nat; 2%nat] 0%float)))
      with [0.5%float; 0.5%float].
    cbn [Rsum]. rewrite Hhalf.
    replace (/ 2 + (/ 2 + 0) - 1)%R with 0%R by lra. rewrite Rabs_R0. lra.
Defined.

Section RemoveNodeReturns.

Local Open Scope R_scope.

(** Adding [lo] to each of the proportions [ps]. *)
Lemma Rsum_map_add (lo : float) (ps : list proportion) :
  is_finite lo = true -> Rabs (F2R lo) <= 2 ->
  Forall (within 1) ps ->
  Forall (within 4) (map (fun p => (p + lo)%float) ps)
  /\ Rabs (Rsum (map (fun p => (p + lo)%float) ps)
           - (Rsum ps + IZR (Z.of_nat (length ps)) * F2R lo))
     <= IZR (Z.of_nat (length ps)) * bpow (-52).
Proof.
  intros Hfl Hl. assert (H2 : bpow 2 = 4) by (by rewrite bpow_pos_val).
  assert (Hm52 : bpow (-52) = / 4503599627370496) by (by rewrite bpow_neg_val).
  apply Rabs_le_inv in Hl.
  induction 1 as [|p ps [Hfp Hp] Hps [IH1 IH2]].
  - cbn [map Rsum length]. change (Z.of_nat 0) with 0%Z. split; [done|].
    rewrite !Rmult_0_l, Rplus_0_r, Rminus_diag, Rabs_R0. lra.
  - cbn [length map Rsum]. rewrite Nat2Z.inj_succ, succ_IZR.
    apply Rabs_le_inv in Hp.
    destruct (add_error p lo 2 Hfp Hfl) as [Hfd Hd]; [|lia|].
    { rewrite H2. apply Rabs_def1; lra. }
    change (fexp prec emax 2) with (-51)%Z in Hd.
    assert (Hm51 : bpow (-51) = / 2251799813685248) by (by rewrite bpow_neg_val).
    rewrite Hm51 in Hd. apply Rabs_le_inv in Hd. split.
    + constructor; [|done]. split; [done|]. apply Rabs_le. lra.
    + rewrite Hm52 in *. apply Rabs_le_inv in IH2. apply Rabs_le. lra.
Qed.

(** The removed node's proportion shared out over [k] children. *)
Lemma leftovers_error (pn : proportion) (k : Z) :
  (1 <= k <= 500)%Z ->
  is_finite pn = true -> bpow (-1000) <= Rabs (F2R pn) <= 1 ->
  let lo := (pn / float_of_int k)%float in
  is_finite lo = true /\ Rabs (F2R lo) <= 2
  /\ Rabs (IZR k * F2R lo - F2R pn) <= bpow (-53).
Proof.
  intros Hk Hfp [Hlo Hhi] lo.
  destruct (float_of_int_small k) as [Hfk Hvk]; [lia|].
  assert (Hkr : 1 <= IZR k <= 500) by (split; apply IZR_le; lia).
  assert (Hinvk : / 500 <= / IZR k <= 1).
  { split; [apply Rinv_le_contravar; lra|].
    rewrite <- Rinv_1. apply Rinv_le_contravar; lra. }
  pose proof (bpow_pos (-1000)) as Hpos.
  assert (Hm1022 : bpow (-1022) <= bpow (-1000)) by (apply bpow_le; lia).
  assert (Hm1020 : bpow (-1020) <= bpow (-1000) * / 500).
  { replace (-1000)%Z with (-1020 + 20)%Z by lia. rewrite bpow_add.
    rewrite (bpow_pos_val 20). change (2 ^ 20)%Z with 1048576%Z.
    pose proof (bpow_pos (-1020)). nra. }
  assert (H1020 : 1 < bpow 1020).
  { rewrite <- bpow_0. apply bpow_lt. lia. }
  assert (Habs : Rabs (F2R pn / IZR k) = Rabs (F2R pn) * / IZR k).
  { unfold Rdiv. rewrite Rabs_mult, (Rabs_pos_eq (/ IZR k)); lra. }
  assert (Hq : bpow (-1000) * / 500 <= Rabs (F2R pn) * / IZR k <= 1).
  { split.
    - apply Rmult_le_compat; lra.
    - assert (Rabs (F2R pn) * / IZR k <= 1 * 1) by (apply Rmult_le_compat; lra).
      lra. }
  destruct (div_error pn (float_of_int k)) as [Hfl Hl].
  { lra. }
  { rewrite Hvk, Rabs_pos_eq; lra. }
  { rewrite Hvk, Habs. lra. }
  { rewrite Hvk, Habs. lra. }
  fold lo in Hfl, Hl. rewrite Hvk, Habs, bpow_m53 in Hl.
  split; [done|].
  assert (Hl' := Rabs_le_inv _ _ Hl). unfold Rdiv in Hl'.
  assert (Hpq := Rabs_le_inv _ _ (Rle_refl (Rabs (F2R pn * / IZR k)))).
  unfold Rdiv in Habs. rewrite Habs in Hpq.
  split.
  - apply Rabs_le. lra.
  - rewrite bpow_m53.
    replace (IZR k * F2R lo - F2R pn)
      with (IZR k * (F2R lo - F2R pn * / IZR k)) by (field; lra).
    rewrite Rabs_mult, (Rabs_pos_eq (IZR k)) by lra.
    unfold Rdiv in Hl.
    assert (IZR k * Rabs (F2R lo - F2R pn * / IZR k)
            <= IZR k * (/ 9007199254740992 * (Rabs (F2R pn) * / IZR k)))
      by (apply Rmult_le_compat_l; lra).
    replace (IZR k * (/ 9007199254740992 * (Rabs (F2R pn) * / IZR k)))
      with (/ 9007199254740992 * Rabs (F2R pn)) in H by (field; lra).
    lra.
Qed.

(** The binary64 sum of the remaining proportions after [removeNode] is
    [equal] to 1. *)
Lemma sum_after_removeNode (ps : list proportion) (pn : proportion) :
  ps <> [] -> (length ps <= 500)%nat ->
  Forall (within 1) ps ->
  is_finite pn = true -> bpow (-1000) <= Rabs (F2R pn) <= 1 ->
  Rabs (Rsum ps + F2R pn - 1) <= 9 / 100000 ->
  let lo := (pn / float_of_int (Z.of_nat (length ps)))%float in
  equal (fsum (map (fun p => (p + lo)%float) ps) 0) fullPortion = true.
Proof.
  intros Hne Hlen Hps Hfp Hpn Hsum lo. unfold proportion in *.
  set (k := Z.of_nat (length ps)) in *.
  assert (Hk : (1 <= k <= 500)%Z).
  { subst k. destruct ps; [done|]. cbn [length] in *. lia. }
  destruct (leftovers_error pn k Hk Hfp Hpn) as (Hfl & Hl & Hd). fold lo in Hfl, Hl, Hd.
  destruct (Rsum_map_add lo ps Hfl Hl Hps) as [Hps' Hsum'].
  unfold proportion in *. fold k in Hsum'.
  remember (map (fun p => (p + lo)%float) ps) as vals eqn:Hdef.
  assert (Hlenv : length vals = length ps) by (subst vals; apply length_map).
  assert (Hkr : 1 <= IZR k <= 500) by (split; apply IZR_le; lia).
  destruct (fsum_error vals 0%float eq_refl Hps') as [Hfs Hs].
  { unfold proportion in *. rewrite F2R_zero, Rabs_R0, Hlenv. fold k. lra. }
  unfold proportion in *.
  rewrite F2R_zero, Rplus_0_l, Hlenv in Hs. fold k in Hs.
  assert (Hm42 : bpow (-42) = / 4398046511104) by (by rewrite bpow_neg_val).
  assert (Hm52 : bpow (-52) = / 4503599627370496) by (by rewrite bpow_neg_val).
  rewrite Hm42 in Hs. rewrite bpow_m53 in Hd. rewrite Hm52 in Hsum'.
  apply Rabs_le_inv in Hs, Hd, Hsum', Hsum.
  apply equal_close; [exact Hfs | reflexivity |].
  unfold fullPortion. rewrite F2R_one. apply Rabs_le. lra.
Qed.

End RemoveNodeReturns.

(** X24.  [removeNode] returns normally (its final check does not panic)
    when the node occurs once among at most 500 distinct children whose
    proportions are finite numbers of size at most 1 that add up, as real
    numbers, to 1 within 0.00009, the removed node's own proportion being
    at least 2^-1000 in size. *)
Theorem removeNode_returns (s n : ref) (w : world) (sp : split)
    (pre post : list ref) (pn : proportion)
    (Hs : deref_split s w = Ok (sp, w))
    (Hcs : split_children sp = pre ++ n :: post)
    (Hnd : NoDup (pre ++ n :: post))
    (Hall : forall c, c ∈ pre ++ n :: post -> is_Some (heap w !! c))
    (Hlen : (length (pre ++ n :: post) <= 500)%nat)
    (Hb : Forall (within 1) (props_of (heap w) (pre ++ n :: post)))
    (Hpn : prop_of w n = Some pn)
    (Hnz : (bpow (-1000) <= Rabs (F2R pn))%R)
    (Hsum : (Rabs (Rsum (props_of (heap w) (pre ++ n :: post)) - 1)
             <= 9 / 100000)%R) :
  exists w', removeNode s n w = Ok (tt, w').
Proof.
  destruct (deref_split_Ok _ _ _ _ Hs) as (_ & o & Ho & _ & Hk).
  assert (Hsplit : split_with (split_children sp) o) by (by exists sp).
  apply NoDup_app in Hnd as (Hndpre & Hdisj & Hndn).
  apply NoDup_cons in Hndn as [Hnpost Hndpost].
  assert (Hnpre : n ∉ pre) by (intros Hin; apply (Hdisj n Hin); left).
  set (rs := pre ++ post).
  assert (Hndrs : NoDup rs).
  { apply NoDup_app. split; [done|]. split; [|done].
    intros x Hx Hx'. apply (Hdisj x Hx). by right. }
  assert (Hrs_in : forall c, c ∈ rs -> c ∈ pre ++ n :: post).
  { intros c Hc. apply elem_of_app in Hc as [Hc|Hc]; apply elem_of_app;
      [by left | right; by right]. }
  (* the proportions, split likewise *)
  pose proof (props_of_singleton w n pn Hpn) as Hsingle.
  assert (Hprops : props_of (heap w) (pre ++ n :: post)
                   = props_of (heap w) pre ++ pn :: props_of (heap w) post).
  { change (n :: post) with ([n] ++ post).
    by rewrite !props_of_app, Hsingle. }
  rewrite Hprops in Hb, Hsum.
  apply Forall_app in Hb as [Hbpre Hbn]. apply Forall_cons in Hbn as [[Hfn Hn1] Hbpost].
  assert (Hbrs : Forall (within 1) (props_of (heap w) rs)).
  { subst rs. rewrite props_of_app. by apply Forall_app. }
  assert (Hsumrs : (Rabs (Rsum (props_of (heap w) rs) + F2R pn - 1) <= 9 / 100000)%R).
  { subst rs. rewrite props_of_app, !Rsum_app in *. cbn [Rsum] in Hsum.
    replace (Rsum (props_of (heap w) pre) + Rsum (props_of (heap w) post) + F2R pn - 1)%R
      with (Rsum (props_of (heap w) pre) + (F2R pn + Rsum (props_of (heap w) post)) - 1)%R
      by lra.
    exact Hsum. }
  (* the run *)
  destruct (remove_loop_once n pre post Hnpre Hnpost) as (arr & Hrun & Htake).
  fold rs in Hrun, Htake.
  pose proof (modify_lookup s (set_children rs) w o Ho) as Hmod.
  set (w3 := mkWorld _ (calls w)) in Hmod.
  assert (Hstart : removeNode s n w
                   = (if (0 <? length rs)%nat
                      then let* pn := Proportion n in
                           let leftovers :=
                             (pn / float_of_int (Z.of_nat (length rs)))%float in
                           range rs (fun child =>
                             let* p := Proportion child in
                             SetProportion child (p + leftovers)%float) ;;
                           checkPortions s
                      else ret tt) w3).
  { unfold removeNode. rewrite (bind_Ok_l _ _ _ _ _ Hs). cbv zeta. rewrite Hcs.
    rewrite Hrun, Htake. by rewrite (bind_Ok_l _ _ _ _ _ Hmod). }
  rewrite Hstart.
  destruct (0 <? length rs)%nat eqn:Hpos; [|by eexists].
  assert (Hprop3 : forall x, prop_of w3 x = prop_of w x)
    by (apply (modify_prop_of _ _ _ _ _ Hmod); intros; apply obj_prop_set_children).
  assert (Hn3 : exists on3, heap w3 !! n = Some on3 /\ obj_prop on3 = pn).
  { specialize (Hprop3 n). rewrite Hpn in Hprop3. unfold prop_of in Hprop3.
    destruct (heap w3 !! n) as [on3|]; [|done]. exists on3. split; [done|].
    by injection Hprop3. }
  destruct Hn3 as (on3 & Hon3 & Hpn3).
  set (lo := (pn / float_of_int (Z.of_nat (length rs)))%float).
  set (g := fun p : proportion => (p + lo)%float).
  assert (Hall3 : forall c, c ∈ rs -> is_Some (heap w3 !! c)).
  { intros c Hc. destruct (Hall c (Hrs_in c Hc)) as [oc Hoc].
    specialize (Hprop3 c). unfold prop_of in Hprop3. rewrite Hoc in Hprop3.
    destruct (heap w3 !! c); [eauto | done]. }
  destruct (range_map_props g rs w3 Hndrs Hall3) as (w4 & Hrun4 & _ & Hheap4).
  assert (Hrun4' : range rs (fun child =>
                     let* p := Proportion child in SetProportion child (p + lo)%float) w3
                   = Ok (tt, w4)) by exact Hrun4.
  (* the container and its children afterwards *)
  assert (Hs3 : heap w3 !! s = Some (set_children rs o))
    by (subst w3; simpl; by rewrite lookup_insert_eq).
  assert (Hs4 : exists o4, heap w4 !! s = Some o4 /\ split_with rs o4).
  { rewrite Hheap4, Hs3. destruct (decide (s ∈ rs)); simpl; eexists; (split; [done|]).
    - apply split_with_set_prop. by eapply split_with_set_children.
    - by eapply split_with_set_children. }
  destruct Hs4 as (o4 & Ho4 & Hsplit4).
  destruct (split_with_deref rs s w4 o4 Ho4 Hsplit4) as (sp4 & Hs4 & Hcs4).
  assert (Hprops4 : forall c, c ∈ rs ->
            exists p, prop_of w c = Some p /\ prop_of w4 c = Some (g p)).
  { intros c Hc. destruct (Hall3 c Hc) as [oc3 Hoc3].
    exists (obj_prop oc3). split.
    - rewrite <- Hprop3. unfold prop_of. by rewrite Hoc3.
    - unfold prop_of. rewrite Hheap4, decide_True, Hoc3 by done. simpl.
      unfold map_prop. by rewrite obj_prop_set_prop. }
  pose proof (props_of_map g w w4 rs Hprops4) as Hmap.
  assert (Hlenrs : length (props_of (heap w) rs) = length rs).
  { apply props_of_allocated. intros c Hc. by apply Hall, Hrs_in. }
  assert (Hlen' : (length (props_of (heap w) rs) <= 500)%nat).
  { rewrite Hlenrs. subst rs. rewrite length_app in *. cbn [length] in Hlen. lia. }
  exists w4.
  rewrite (bind_Ok_l _ _ _ _ _ (Proportion_lookup _ _ _ Hon3)). rewrite Hpn3.
  cbv zeta. fold lo. rewrite (bind_Ok_l _ _ _ _ _ Hrun4').
  destruct rs as [|c0 rs0] eqn:Hrs; [done|].
  apply (checkPortions_passes s w4 sp4 c0 rs0 Hs4 Hcs4).
  - rewrite Hmap, length_map. exact Hlenrs.
  - rewrite Hmap.
    assert (Hne : props_of (heap w) (c0 :: rs0) <> []).
    { intros Hnil. by rewrite Hnil in Hlenrs. }
    pose proof (sum_after_removeNode _ pn Hne Hlen' Hbrs Hfn (conj Hnz Hn1) Hsumrs) as H.
    cbv zeta in H. rewrite Hlenrs in H. exact H.
Qed.

Lemma removeNode_returns_witness :
  exists w', removeNode 0%nat 2%nat world2 = Ok (tt, w').
Proof.
  assert (Hhalf : F2R 0.5%float = (/ 2)%R).
  { unfold F2R.
    change (Prim2SF 0.5%float) with (S754_finite false 4503599627370496 (-53)).
    unfold SF2R. rewrite bpow_neg_val.
    change (2 ^ 53)%Z with 9007199254740992%Z. lra. }
  apply (removeNode_returns 0%nat 2%nat world2
           (mkSplit None [1%nat; 2%nat] 0%float) [1%nat] [] 0.5%float).
  - vm_compute. reflexivity.
  - reflexivity.
  - compute_done.
  - intros c Hc. cbn [app] in Hc.
    apply elem_of_cons in Hc as [->|Hc]; [eexists; reflexivity|].
    apply elem_of_cons in Hc as [->|Hc]; [eexists; reflexivity|].
    by apply not_elem_of_nil in Hc.
  - simpl. lia.
  - change (Forall (within 1) [0.5%float; 0.5%float]).
    repeat constructor; try reflexivity; rewrite Hhalf, Rabs_pos_eq; lra.
  - reflexivity.
  - rewrite Hhalf, Rabs_pos_eq by lra.
    eapply Rle_trans; [apply (bpow_le (-1000) (-1)); lia|].
    rewrite bpow_neg_val. change (2 ^ 1)%Z with 2%Z. lra.
  - change (Rabs (Rsum [0.5%float; 0.5%float] - 1) <= 9 / 100000)%R.
    cbn [Rsum]. rewrite Hhalf.
    replace (/ 2 + (/ 2 + 0) - 1)%R with 0%R by lra. rewrite Rabs_R0. lra.
Defined.
